(** * Browser MCP server: command dispatch, correlation, retry and circuit breaking

    A shallow embedding of the server side of the repository
    (client-manager.ts, error-handler.ts, retry-manager.ts, server.ts and the
    declarations of types.ts they use), followed by the properties of the
    specification that concern them.

    Conventions of the embedding.
    - A JavaScript [Map] whose iteration order is never observed by the code
      under study ([pendingCommands], [circuitBreakerState],
      [commandRetryStrategies]) is a [gmap]; the client registry, whose first
      element is read by [tools/call], is an insertion-ordered association
      list.
    - [Date.now()] is the [now] field of an environment; timestamps are
      integers (milliseconds).
    - JavaScript numbers that the code only counts or compares are [Z];
      the delays of a retry strategy and the values of [Math.random()],
      which the code multiplies, adds and rounds, are IEEE 754 doubles:
      Rocq's primitive floats, specified by [SpecFloat]. [Math.pow], which
      ECMAScript leaves to the implementation, is a function of the runtime.
    - The logger is not modelled: no property below is about log output. *)

From Stdlib Require Import ZArith QArith Qround Floats String Ascii List Lia Bool.
From stdpp Require Import gmap strings pretty sorting.
Import ListNotations.

Local Open Scope Z_scope.
Local Open Scope string_scope.
Set Warnings "-register-all".

(** ** JavaScript values and the string primitives the code relies on *)

Module Js.

(** A value produced by [JSON.parse]. [undefined] (a missing field) is the
    [None] of [option JSON]. *)
Inductive JSON : Type :=
| JNull
| JBool (b : bool)
| JNum (n : Q)
| JStr (s : string)
| JArr (items : list JSON)
| JObj (fields : list (string * JSON)).

(** ToBoolean. *)
Definition truthy (v : option JSON) : bool :=
  match v with
  | None | Some JNull => false
  | Some (JBool b) => b
  | Some (JNum n) => negb (Qeq_bool n 0)
  | Some (JStr s) => negb (String.eqb s EmptyString)
  | Some (JArr _) | Some (JObj _) => true
  end.

(** [a || b]. *)
Definition or_else (a b : option JSON) : option JSON :=
  if truthy a then a else b.

(** [typeof v === 'object'] (true of [null], arrays and objects). *)
Definition typeof_object (v : option JSON) : bool :=
  match v with
  | Some JNull | Some (JArr _) | Some (JObj _) => true
  | _ => false
  end.

(** Property read [o.k] on a parsed object: the last binding of a repeated
    key wins, a missing key reads [undefined]. *)
Fixpoint field (k : string) (fields : list (string * JSON)) : option JSON :=
  match fields with
  | [] => None
  | (k', v) :: rest =>
      match field k rest with
      | Some w => Some w
      | None => if String.eqb k k' then Some v else None
      end
  end.

(** [Array.prototype.includes] on an array of string literals, for an
    arbitrary value: only a string equal to one of them is included. *)
Definition includes_value (l : list string) (v : option JSON) : bool :=
  match v with
  | Some (JStr s) => existsb (String.eqb s) l
  | _ => false
  end.

(** [String.prototype.includes]. *)
Fixpoint includes (s needle : string) : bool :=
  String.prefix needle s
  || match s with
     | EmptyString => false
     | String _ rest => includes rest needle
     end.

Definition lower_ascii (c : ascii) : ascii :=
  let n := nat_of_ascii c in
  if ((65 <=? n) && (n <=? 90))%nat then ascii_of_nat (n + 32) else c.

(** [String.prototype.toLowerCase], on a string given by its UTF-8 bytes.
    The ASCII letters are lowered. Two other characters have an ASCII
    letter in their lower case: the Kelvin sign U+212A, which becomes [k],
    and U+0130, which becomes [i] followed by the combining dot U+0307. Every
    other character is left as it is: its lower case has no ASCII character,
    so the ASCII characters of the result, which are all the code compares,
    are those [toLowerCase] gives. *)
Fixpoint toLowerCase (s : string) : string :=
  match s with
  | EmptyString => EmptyString
  | String "226" (String "132" (String "170" rest)) =>
      String "k" (toLowerCase rest)
  | String "196" (String "176" rest) =>
      String "i" (String "204" (String "135" (toLowerCase rest)))
  | String c rest => String (lower_ascii c) (toLowerCase rest)
  end.

Fixpoint drop (n : nat) (s : string) : string :=
  match n, s with
  | O, _ => s
  | S n', String _ rest => drop n' rest
  | S _, EmptyString => EmptyString
  end.

(** [s.replace(pat, by)] with a string pattern: the first occurrence only. *)
Fixpoint replace_first (pat by_ s : string) : string :=
  if String.prefix pat s then by_ ++ drop (String.length pat) s
  else match s with
       | EmptyString => EmptyString
       | String c rest => String c (replace_first pat by_ rest)
       end.

End Js.

(** ** Numbers

    The numbers the retry delay is computed from are doubles. *)

Module Number.

(** A whole count as a double. *)
Definition of_nat (n : nat) : float :=
  SF2Prim (binary_normalize prec emax (Z.of_nat n) 0 false).

(** The literal [0.1]: the double nearest to a tenth. *)
Definition tenth : float := 0x1.999999999999ap-4%float.

(** [Math.min] of two numbers: NaN when either is, and [-0] below [+0]. *)
Definition Math_min (x y : float) : float :=
  if is_nan x || is_nan y then nan
  else if (x <? y)%float then x
  else if (y <? x)%float then y
  else if get_sign x then x else y.

(** The values of [Math.floor]: a whole number, an infinity or NaN. The two
    zeros, which nothing in the code tells apart, are both [Int 0]. *)
Inductive Floored : Type :=
| Int (z : Z)
| Infinity (negative : bool)
| NotANumber.

(** [Math.floor]. The floor of the double [+/- m * 2 ^ e] is its signed
    mantissa shifted by [e]: to the left when [e] is positive, and by an
    arithmetic shift to the right, which rounds down, when it is
    negative. *)
Definition Math_floor (x : float) : Floored :=
  match Prim2SF x with
  | S754_zero _ => Int 0
  | S754_infinity s => Infinity s
  | S754_nan => NotANumber
  | S754_finite s m e => Int (Z.shiftl (cond_Zopp s (Z.pos m)) e)
  end.

(** ToBoolean of such a value. *)
Definition toBoolean (d : Floored) : bool :=
  match d with
  | Int z => negb (z =? 0)%Z
  | Infinity _ => true
  | NotANumber => false
  end.

(** The delay of a timer set with [setTimeout(callback, ms)]: Node.js takes
    a delay that is larger than 2147483647, less than 1 or NaN as 1. *)
Definition timerDelay (ms : Floored) : Z :=
  match ms with
  | Int z => if ((1 <=? z) && (z <=? 2147483647))%Z then z else 1
  | _ => 1
  end.

End Number.

(** ** types.ts *)

Module Types.
Import Js.

Inductive ErrorCode : Type :=
| TIMEOUT
| NETWORK_ERROR
| CLOUDFLARE_BLOCK
| SELECTOR_NOT_FOUND
| INVALID_PARAMS
| AUTHENTICATION_FAILED
| RATE_LIMIT_EXCEEDED
| COMMAND_FAILED
| ELEMENT_NOT_FOUND
| ELEMENT_NOT_VISIBLE
| ELEMENT_NOT_INTERACTABLE
| NAVIGATION_FAILED
| PERMISSION_DENIED
| INVALID_URL
| TAB_NOT_FOUND
| STORAGE_ERROR
| COOKIE_ERROR
| SCRIPT_ERROR
| UNKNOWN.

#[global] Instance ErrorCode_eq_dec : EqDecision ErrorCode.
Proof. solve_decision. Defined.

Module ErrorCategory.
Inductive t : Type :=
| NETWORK
| SELECTOR
| PERMISSION
| TIMEOUT
| VALIDATION
| SYSTEM.
End ErrorCategory.

#[global] Instance ErrorCategory_eq_dec : EqDecision ErrorCategory.t.
Proof. solve_decision. Defined.

Record RetryStrategy : Type := {
  maxRetries : Z;
  baseDelay : float;
  maxDelay : float;
  backoffMultiplier : float;
  retryableErrors : list ErrorCode
}.

Record ErrorContext : Type := {
  ctx_command : string;
  ctx_params : option JSON;
  ctx_timestamp : Z;
  ctx_retryCount : nat;
  ctx_category : ErrorCategory.t;
  ctx_recoverable : bool;
  ctx_fallbackStrategies : list string
}.

(** [MCPCommand]. The optional fields hold whatever the frame carried
    (the server copies them without checking their types). *)
Record MCPCommand : Type := {
  cmd_id : option JSON;
  cmd_type : option JSON;
  cmd_params : option JSON;
  cmd_timestamp : Z;
  cmd_timeout : option JSON;
  cmd_retryCount : option Z;
  cmd_maxRetries : option JSON;
  cmd_priority : option JSON;
  cmd_clientId : string
}.

Record RateLimit : Type := {
  requests : Z;
  windowStart : Z
}.

Record ClientState : Type := {
  id : string;
  connected : bool;
  connectedAt : Z;
  lastHeartbeat : Z;
  lastActivity : Z;
  activeCommands : list (string * MCPCommand);
  commandHistory : list MCPCommand;
  apiKey : string;
  rateLimit : RateLimit
}.

End Types.

(** ** state/client-manager.ts *)

Module ClientManager.
Import Types.

(** [Map<string, ClientState>], in insertion order. *)
Definition t : Type := list (string * ClientState).

Definition empty : t := [].

Fixpoint get (clientId : string) (m : t) : option ClientState :=
  match m with
  | [] => None
  | (k, c) :: rest => if String.eqb k clientId then Some c else get clientId rest
  end.

(** [Map.prototype.set]: an existing key keeps its position. *)
Fixpoint set (clientId : string) (c : ClientState) (m : t) : t :=
  match m with
  | [] => [(clientId, c)]
  | (k, c') :: rest =>
      if String.eqb k clientId then (k, c) :: rest
      else (k, c') :: set clientId c rest
  end.

Fixpoint delete (clientId : string) (m : t) : t :=
  match m with
  | [] => []
  | (k, c) :: rest =>
      if String.eqb k clientId then rest else (k, c) :: delete clientId rest
  end.

Definition addClient (client : ClientState) (m : t) : t :=
  set (id client) client m.

Definition getClient (clientId : string) (m : t) : option ClientState :=
  get clientId m.

Definition getAllClients (m : t) : list ClientState := map snd m.

(** The [Partial<ClientState>] objects the server passes to
    [updateClientState] carry [lastHeartbeat] and [lastActivity] only. *)
Record Updates : Type := {
  upd_lastHeartbeat : option Z;
  upd_lastActivity : option Z
}.

(** [Object.assign(client, updates)]. *)
Definition assign (client : ClientState) (updates : Updates) : ClientState :=
  {| id := id client;
     connected := connected client;
     connectedAt := connectedAt client;
     lastHeartbeat := default (lastHeartbeat client) (upd_lastHeartbeat updates);
     lastActivity := default (lastActivity client) (upd_lastActivity updates);
     activeCommands := activeCommands client;
     commandHistory := commandHistory client;
     apiKey := apiKey client;
     rateLimit := rateLimit client |}.

Definition updateClientState (clientId : string) (updates : Updates) (m : t) : t :=
  match get clientId m with
  | Some client => set clientId (assign client updates) m
  | None => m
  end.

Definition removeClient (clientId : string) (m : t) : t := delete clientId m.

Definition getConnectedClients (m : t) : list ClientState :=
  List.filter connected (getAllClients m).

Definition getClientCount (m : t) : nat := length m.

Definition getActiveCommandCount (m : t) : nat :=
  fold_left (fun count kc => (count + length (activeCommands (snd kc)))%nat) m 0%nat.

End ClientManager.

(** ** The environment of an asynchronous call

    [executeWithRetry] reads the clock, draws random numbers and awaits the
    operation it is given. The operation is a closure over the server; what
    it returns depends on frames and timers that arrive later. The embedding
    takes these answers from an oracle, indexed by how many were asked for so
    far, and threads the counters through an environment. The oracle also
    holds [Math.pow], whose results ECMAScript leaves to the implementation
    (Number::exponentiate is implementation-approximated). *)

Module Runtime.
Import Js.

(** How one invocation of the operation settles. A rejection carries the
    message of the [Error] (a non-[Error] reason is wrapped by
    [new Error(String(error))] in the source). *)
Inductive Outcome : Type :=
| Resolves (value : option JSON)
| Rejects (message : string).

Record Oracle : Type := {
  attempt : nat -> Outcome;      (* the i-th invocation of the operation *)
  duration : nat -> Z;           (* the time the i-th invocation takes *)
  random : nat -> float;         (* the i-th value of Math.random() *)
  Math_pow : float -> float -> float
}.

Record Env : Type := {
  now : Z;                       (* Date.now() *)
  calls : nat;                   (* invocations of the operation so far *)
  draws : nat                    (* calls of Math.random() so far *)
}.

(** [await executor()]. *)
Definition invoke (o : Oracle) (e : Env) : Outcome * Env :=
  (attempt o (calls e),
   {| now := now e + duration o (calls e); calls := S (calls e); draws := draws e |}).

(** [Math.random()]. *)
Definition draw (o : Oracle) (e : Env) : float * Env :=
  (random o (draws e),
   {| now := now e; calls := calls e; draws := S (draws e) |}).

(** [await this.sleep(ms)]. *)
Definition sleep (ms : Z) (e : Env) : Env :=
  {| now := now e + ms; calls := calls e; draws := draws e |}.

End Runtime.

(** ** error/error-handler.ts *)

Module ErrorHandler.
Import Js Number Types Runtime.

Record ErrorHandlerConfig : Type := {
  defaultRetryStrategy : RetryStrategy;
  commandRetryStrategies : gmap string RetryStrategy;
  fallbackStrategies : list (ErrorCode * list string)
}.

Definition categorizeError (errorCode : ErrorCode) : ErrorCategory.t :=
  match errorCode with
  | NETWORK_ERROR | CLOUDFLARE_BLOCK | NAVIGATION_FAILED => ErrorCategory.NETWORK
  | SELECTOR_NOT_FOUND | ELEMENT_NOT_FOUND | ELEMENT_NOT_VISIBLE
  | ELEMENT_NOT_INTERACTABLE => ErrorCategory.SELECTOR
  | PERMISSION_DENIED | TAB_NOT_FOUND => ErrorCategory.PERMISSION
  | TIMEOUT => ErrorCategory.TIMEOUT
  | INVALID_PARAMS | INVALID_URL => ErrorCategory.VALIDATION
  | STORAGE_ERROR | COOKIE_ERROR | SCRIPT_ERROR | UNKNOWN => ErrorCategory.SYSTEM
  | _ => ErrorCategory.SYSTEM
  end.

Definition recoverableErrors : list ErrorCode :=
  [TIMEOUT; NETWORK_ERROR; SELECTOR_NOT_FOUND; ELEMENT_NOT_FOUND;
   ELEMENT_NOT_VISIBLE; ELEMENT_NOT_INTERACTABLE; NAVIGATION_FAILED;
   CLOUDFLARE_BLOCK].

Definition isRecoverable (errorCode : ErrorCode) : bool :=
  bool_decide (errorCode ∈ recoverableErrors).

Definition getRetryStrategy (cfg : ErrorHandlerConfig) (command : string) : RetryStrategy :=
  default (defaultRetryStrategy cfg) (commandRetryStrategies cfg !! command).

(** The delay before jitter:
    [Math.min(baseDelay * Math.pow(backoffMultiplier, retryCount), maxDelay)]. *)
Definition backoffDelay (pow : float -> float -> float) (strategy : RetryStrategy)
    (retryCount : nat) : float :=
  Math_min
    (baseDelay strategy * pow (backoffMultiplier strategy) (of_nat retryCount))%float
    (maxDelay strategy).

(** [calculateRetryDelay], given the value [r] that [Math.random()] returns. *)
Definition calculateRetryDelay (pow : float -> float -> float)
    (strategy : RetryStrategy) (retryCount : nat) (r : float) : Floored :=
  let delay := backoffDelay pow strategy retryCount in
  let jitter := (r * tenth * delay)%float in
  Math_floor (delay + jitter)%float.

Definition shouldRetry (errorCode : ErrorCode) (retryCount : nat)
    (strategy : RetryStrategy) : bool :=
  if Z.of_nat retryCount >=? maxRetries strategy then false
  else bool_decide (errorCode ∈ retryableErrors strategy).

Fixpoint lookup_fallback (errorCode : ErrorCode)
    (table : list (ErrorCode * list string)) : option (list string) :=
  match table with
  | [] => None
  | (c, l) :: rest =>
      if bool_decide (c = errorCode) then Some l else lookup_fallback errorCode rest
  end.

Definition getFallbackStrategies (cfg : ErrorHandlerConfig) (errorCode : ErrorCode)
    : list string :=
  default [] (lookup_fallback errorCode (fallbackStrategies cfg)).

Definition createErrorContext (cfg : ErrorHandlerConfig) (command : string)
    (params : option JSON) (errorCode : ErrorCode) (retryCount : nat) (e : Env)
    : ErrorContext :=
  {| ctx_command := command;
     ctx_params := params;
     ctx_timestamp := now e;
     ctx_retryCount := retryCount;
     ctx_category := categorizeError errorCode;
     ctx_recoverable := isRecoverable errorCode;
     ctx_fallbackStrategies := getFallbackStrategies cfg errorCode |}.

(** [extractErrorCode]: the first keyword found in the lower-cased message. *)
Definition extractErrorCode (errorMessage : string) : ErrorCode :=
  let message := toLowerCase errorMessage in
  if includes message "timeout" then TIMEOUT
  else if includes message "network" then NETWORK_ERROR
  else if includes message "cloudflare" then CLOUDFLARE_BLOCK
  else if includes message "selector" || includes message "not found" then SELECTOR_NOT_FOUND
  else if includes message "element not visible" then ELEMENT_NOT_VISIBLE
  else if includes message "element not interactable" then ELEMENT_NOT_INTERACTABLE
  else if includes message "navigation" then NAVIGATION_FAILED
  else if includes message "permission" then PERMISSION_DENIED
  else if includes message "invalid url" then INVALID_URL
  else if includes message "tab not found" then TAB_NOT_FOUND
  else if includes message "storage" then STORAGE_ERROR
  else if includes message "cookie" then COOKIE_ERROR
  else if includes message "script" then SCRIPT_ERROR
  else UNKNOWN.

Record ErrorResult : Type := {
  res_shouldRetry : bool;
  res_delay : option Floored;
  res_fallbackStrategies : list string
}.

Definition handleError (cfg : ErrorHandlerConfig) (o : Oracle) (errorMessage : string)
    (command : string) (params : option JSON) (retryCount : nat) (e : Env)
    : ErrorResult * Env :=
  let errorCode := extractErrorCode errorMessage in
  let strategy := getRetryStrategy cfg command in
  let context := createErrorContext cfg command params errorCode retryCount e in
  if shouldRetry errorCode retryCount strategy then
    let '(r, e') := draw o e in
    ({| res_shouldRetry := true;
        res_delay := Some (calculateRetryDelay (Math_pow o) strategy retryCount r);
        res_fallbackStrategies := ctx_fallbackStrategies context |}, e')
  else
    ({| res_shouldRetry := false;
        res_delay := None;
        res_fallbackStrategies := ctx_fallbackStrategies context |}, e).

Definition defaultRetryableErrors : list ErrorCode :=
  [TIMEOUT; NETWORK_ERROR; SELECTOR_NOT_FOUND; ELEMENT_NOT_FOUND;
   ELEMENT_NOT_VISIBLE; ELEMENT_NOT_INTERACTABLE; NAVIGATION_FAILED;
   CLOUDFLARE_BLOCK].

(** [createDefaultErrorHandlerConfig]. *)
Definition createDefaultErrorHandlerConfig : ErrorHandlerConfig :=
  {| defaultRetryStrategy :=
       {| maxRetries := 3; baseDelay := 1000; maxDelay := 10000;
          backoffMultiplier := 2; retryableErrors := defaultRetryableErrors |};
     commandRetryStrategies :=
       <["navigate" :=
          {| maxRetries := 5; baseDelay := 2000; maxDelay := 15000;
             backoffMultiplier := 2;
             retryableErrors :=
               [NETWORK_ERROR; CLOUDFLARE_BLOCK; NAVIGATION_FAILED; TIMEOUT] |}]>
       (<["click" :=
          {| maxRetries := 3; baseDelay := 500; maxDelay := 3000;
             backoffMultiplier := 1.5;
             retryableErrors :=
               [SELECTOR_NOT_FOUND; ELEMENT_NOT_FOUND; ELEMENT_NOT_VISIBLE;
                ELEMENT_NOT_INTERACTABLE] |}]>
       (<["extract" :=
          {| maxRetries := 2; baseDelay := 1000; maxDelay := 5000;
             backoffMultiplier := 2;
             retryableErrors :=
               [SELECTOR_NOT_FOUND; ELEMENT_NOT_FOUND; TIMEOUT] |}]> ∅));
     fallbackStrategies :=
       [(SELECTOR_NOT_FOUND,
         ["try_alternative_selectors"; "wait_for_element"; "scroll_to_element"]);
        (ELEMENT_NOT_VISIBLE,
         ["scroll_to_element"; "wait_for_visibility"; "try_alternative_selectors"]);
        (ELEMENT_NOT_INTERACTABLE,
         ["wait_for_interactable"; "scroll_to_element"; "try_alternative_selectors"]);
        (CLOUDFLARE_BLOCK,
         ["wait_for_cloudflare"; "retry_with_delay"; "try_alternative_approach"]);
        (NAVIGATION_FAILED,
         ["retry_navigation"; "check_url_validity"; "try_alternative_url"]);
        (TIMEOUT,
         ["increase_timeout"; "retry_with_delay"; "check_network_connection"])] |}.

End ErrorHandler.

(** ** error/retry-manager.ts *)

Module RetryManager.
Import Js Number Types Runtime ErrorHandler.

Inductive BreakerState : Type := CLOSED | OPEN | HALF_OPEN.

#[global] Instance BreakerState_eq_dec : EqDecision BreakerState.
Proof. solve_decision. Defined.

Record Breaker : Type := {
  failures : Z;
  lastFailureTime : Z;
  state : BreakerState
}.

Record RetryManagerConfig : Type := {
  errorHandler : ErrorHandlerConfig;
  circuitBreakerThreshold : Z;
  circuitBreakerTimeout : Z
}.

(** The private field [circuitBreakerState]. *)
Abbreviation Breakers := (gmap string Breaker).

(** The object [recordFailure] starts from when the key has no entry. *)
Definition freshBreaker : Breaker :=
  {| failures := 0; lastFailureTime := 0; state := CLOSED |}.

Definition isCircuitBreakerOpen (cfg : RetryManagerConfig) (key : string)
    (nowMs : Z) (st : Breakers) : bool * Breakers :=
  match st !! key with
  | None => (false, st)
  | Some b =>
      match state b with
      | OPEN =>
          if nowMs - lastFailureTime b >? circuitBreakerTimeout cfg then
            (false,
             <[key := {| failures := failures b;
                         lastFailureTime := lastFailureTime b;
                         state := HALF_OPEN |}]> st)
          else (true, st)
      | _ => (false, st)
      end
  end.

Definition recordFailure (cfg : RetryManagerConfig) (key : string)
    (nowMs : Z) (st : Breakers) : Breakers :=
  let b := default freshBreaker (st !! key) in
  let failures' := failures b + 1 in
  <[key := {| failures := failures';
              lastFailureTime := nowMs;
              state := if failures' >=? circuitBreakerThreshold cfg
                       then OPEN else state b |}]> st.

Definition resetCircuitBreaker (key : string) (st : Breakers) : Breakers :=
  match st !! key with
  | Some b =>
      <[key := {| failures := 0;
                  lastFailureTime := lastFailureTime b;
                  state := CLOSED |}]> st
  | None => st
  end.

Definition getCircuitBreakerStatus (key : string) (st : Breakers) : option Breaker :=
  st !! key.

Definition resetAllCircuitBreakers (st : Breakers) : Breakers := ∅.

(** How a call of [executeWithRetry] ends. [Unfinished] is the answer of
    the bounded loop below when its bound is used up; the function
    [executeWithRetry] never gives it (see [executeWithRetry_finishes]). *)
Inductive Completion : Type :=
| Returns (value : option JSON)
| Throws (message : string)
| Unfinished.

Section WithSerializer.

(** [JSON.stringify] is the platform's; the development is parametric in
    it. Inside a template literal [undefined] prints as itself. *)
Variable JSON_stringify : JSON -> string.

Definition stringify (params : option JSON) : string :=
  match params with
  | Some v => JSON_stringify v
  | None => "undefined"
  end.

Definition circuitBreakerKey (command : string) (params : option JSON) : string :=
  command ++ "_" ++ stringify params.

(** The body of [while (true)], at most [fuel] times. *)
Fixpoint retryLoop (fuel : nat) (cfg : RetryManagerConfig) (o : Oracle)
    (command : string) (params : option JSON) (key : string)
    (retryCount : nat) (st : Breakers) (e : Env)
    : Completion * Breakers * Env :=
  match fuel with
  | O => (Unfinished, st, e)
  | S fuel' =>
      let '(outcome, e1) := invoke o e in
      match outcome with
      | Resolves result =>
          (Returns result, resetCircuitBreaker key st, e1)
      | Rejects lastError =>
          let '(errorResult, e2) :=
            handleError (errorHandler cfg) o lastError command params retryCount e1 in
          if negb (res_shouldRetry errorResult) then
            (Throws lastError, recordFailure cfg key (now e2) st, e2)
          else
            let e3 :=
              match res_delay errorResult with
              | Some d => if toBoolean d then sleep (timerDelay d) e2 else e2
              | None => e2
              end in
            retryLoop fuel' cfg o command params key (S retryCount) st e3
      end
  end.

(** The number of iterations after which the loop has certainly left:
    one attempt, and one more for every retry the strategy allows. *)
Definition attemptBound (cfg : RetryManagerConfig) (command : string) : nat :=
  S (Z.to_nat (maxRetries (getRetryStrategy (errorHandler cfg) command))).

Definition circuitOpenMessage (command : string) : string :=
  "Circuit breaker is open for command: " ++ command.

Definition executeWithRetry (cfg : RetryManagerConfig) (o : Oracle)
    (command : string) (params : option JSON) (st : Breakers) (e : Env)
    : Completion * Breakers * Env :=
  let key := circuitBreakerKey command params in
  let '(isOpen, st1) := isCircuitBreakerOpen cfg key (now e) st in
  if isOpen then (Throws (circuitOpenMessage command), st1, e)
  else retryLoop (attemptBound cfg command) cfg o command params key 0 st1 e.

End WithSerializer.

(** [createRetryManager]: its own error handler, with the default strategy
    for every command. *)
Definition createRetryManager : RetryManagerConfig :=
  {| errorHandler :=
       {| defaultRetryStrategy :=
            {| maxRetries := 3; baseDelay := 1000; maxDelay := 10000;
               backoffMultiplier := 2; retryableErrors := defaultRetryableErrors |};
          commandRetryStrategies := ∅;
          fallbackStrategies := [] |};
     circuitBreakerThreshold := 5;
     circuitBreakerTimeout := 60000 |}.

End RetryManager.

(** ** server.ts *)

Module Server.
Import Js Types Runtime.

(** An entry of [pendingCommands]. [resolve] and [reject] are the two
    functions of one promise, named here by its handle; [timeout] is the
    handle [setTimeout] returned. *)
Record PendingCommand : Type := {
  promise : nat;
  timeout : nat
}.

(** The state of a settled promise. *)
Inductive Settlement : Type :=
| Fulfilled (data : option JSON)
| Failed (message : string).

Record State : Type := {
  clientManager : ClientManager.t;
  pendingCommands : gmap string PendingCommand;
  (** the timers that are armed, each with the command id and the promise
      its callback closes over *)
  timers : gmap nat (string * nat);
  (** the promises that have been settled *)
  promises : gmap nat Settlement;
  (** the next promise and timer handle *)
  nextHandle : nat
}.

Definition initial : State :=
  {| clientManager := ClientManager.empty;
     pendingCommands := ∅;
     timers := ∅;
     promises := ∅;
     nextHandle := 0 |}.

Definition withClients (f : ClientManager.t -> ClientManager.t) (s : State) : State :=
  {| clientManager := f (clientManager s);
     pendingCommands := pendingCommands s;
     timers := timers s;
     promises := promises s;
     nextHandle := nextHandle s |}.

(** Calling [resolve] or [reject] of a promise: only the first call
    settles it. *)
Definition settle (p : nat) (v : Settlement) (s : State) : State :=
  match promises s !! p with
  | Some _ => s
  | None =>
      {| clientManager := clientManager s;
         pendingCommands := pendingCommands s;
         timers := timers s;
         promises := <[p := v]> (promises s);
         nextHandle := nextHandle s |}
  end.

(** [clearTimeout]. *)
Definition clearTimeout (t : nat) (s : State) : State :=
  {| clientManager := clientManager s;
     pendingCommands := pendingCommands s;
     timers := delete t (timers s);
     promises := promises s;
     nextHandle := nextHandle s |}.

(** [this.pendingCommands.delete(id)]. *)
Definition deletePending (commandId : string) (s : State) : State :=
  {| clientManager := clientManager s;
     pendingCommands := delete commandId (pendingCommands s);
     timers := timers s;
     promises := promises s;
     nextHandle := nextHandle s |}.

Definition handleAuth (clientId : string) (nowMs : Z) (s : State) : State :=
  let clientState :=
    {| id := clientId;
       connected := true;
       connectedAt := nowMs;
       lastHeartbeat := nowMs;
       lastActivity := nowMs;
       activeCommands := [];
       commandHistory := [];
       apiKey := "no-auth-required";
       rateLimit := {| requests := 0; windowStart := nowMs |} |} in
  withClients (ClientManager.addClient clientState) s.

Definition validTypes : list string :=
  ["navigate"; "click"; "extract"; "extract_data"; "extract_table";
   "extract_links"; "extract_images"; "extract_text"; "extract_attribute";
   "type"; "select"; "check"; "hover"; "scroll"; "dragDrop"; "upload";
   "evaluate"; "reload"; "goBack"; "goForward"; "newTab"; "closeTab";
   "switchTab"; "getTabs"; "getCookies"; "setCookie"; "deleteCookie";
   "clearCookies"; "getLocalStorage"; "setLocalStorage"; "getSessionStorage";
   "setSessionStorage"; "clearStorage"; "wait"; "waitForSelector";
   "waitForText"; "waitForNavigation"; "waitForNetworkIdle"; "analyze";
   "screenshot"].

Definition validateCommand (command : MCPCommand) : bool :=
  if negb (includes_value validTypes (cmd_type command)) then false
  else if negb (truthy (cmd_params command))
          || negb (typeof_object (cmd_params command)) then false
  else true.

Definition windowMs : Z := 60000.
Definition maxRequests : Z := 100.

(** Assignment to the fields of [client.rateLimit]; the client object is
    the one the registry holds. *)
Definition setRateLimit (clientId : string) (rl : RateLimit) (s : State) : State :=
  withClients
    (fun m =>
       match ClientManager.get clientId m with
       | Some client =>
           ClientManager.set clientId
             {| id := id client;
                connected := connected client;
                connectedAt := connectedAt client;
                lastHeartbeat := lastHeartbeat client;
                lastActivity := lastActivity client;
                activeCommands := activeCommands client;
                commandHistory := commandHistory client;
                apiKey := apiKey client;
                rateLimit := rl |} m
       | None => m
       end) s.

Definition checkRateLimit (clientId : string) (nowMs : Z) (s : State) : bool * State :=
  match ClientManager.getClient clientId (clientManager s) with
  | None => (false, s)
  | Some client =>
      let expired := nowMs - windowStart (rateLimit client) >? windowMs in
      let rl1 :=
        if expired then {| requests := 0; windowStart := nowMs |}
        else rateLimit client in
      let s1 := if expired then setRateLimit clientId rl1 s else s in
      if requests rl1 >=? maxRequests then (false, s1)
      else
        (true,
         setRateLimit clientId
           {| requests := requests rl1 + 1; windowStart := windowStart rl1 |} s1)
  end.

(** What [handleCommand] does with a frame: it answers with an error frame
    or hands the command to the queue. *)
Inductive CommandReply : Type :=
| ErrorSent (code message : string)
| Enqueued (command : MCPCommand).

(** [handleCommand]; [message] is the parsed frame, [generated] the id
    [generateCommandId()] would give. *)
Definition handleCommand (clientId : string) (message : list (string * JSON))
    (generated : string) (nowMs : Z) (s : State) : CommandReply * State :=
  let command :=
    {| cmd_id := or_else (field "id" message) (Some (JStr generated));
       cmd_type := or_else (field "command" message) (field "type" message);
       cmd_params := or_else (field "params" message) (Some (JObj []));
       cmd_timestamp := nowMs;
       cmd_timeout := or_else (field "timeout" message) (Some (JNum 30000));
       cmd_retryCount := Some 0;
       cmd_maxRetries := or_else (field "maxRetries" message) (Some (JNum 3));
       cmd_priority := or_else (field "priority" message) (Some (JStr "normal"));
       cmd_clientId := clientId |} in
  if negb (validateCommand command) then
    (ErrorSent "INVALID_PARAMS" "Invalid command parameters", s)
  else
    let '(allowed, s1) := checkRateLimit clientId nowMs s in
    if negb allowed then (ErrorSent "RATE_LIMIT_EXCEEDED" "Rate limit exceeded", s1)
    else (Enqueued command, s1).

(** A [response] frame, as [MCPResponse] declares it; [rsp_error] is
    [error.message] when the frame has an [error]. *)
Record ResponseFrame : Type := {
  rsp_id : string;
  rsp_success : bool;
  rsp_data : option JSON;
  rsp_error : option string
}.

(** [response.error?.message || 'Command failed']. *)
Definition errorMessageOf (message : ResponseFrame) : string :=
  match rsp_error message with
  | Some m => if String.eqb m EmptyString then "Command failed" else m
  | None => "Command failed"
  end.

Definition handleResponse (clientId : string) (message : ResponseFrame)
    (nowMs : Z) (s : State) : State :=
  let s1 :=
    withClients
      (ClientManager.updateClientState clientId
         {| ClientManager.upd_lastHeartbeat := None;
            ClientManager.upd_lastActivity := Some nowMs |}) s in
  match pendingCommands s1 !! rsp_id message with
  | Some pendingCommand =>
      let s2 := clearTimeout (timeout pendingCommand) s1 in
      let s3 := deletePending (rsp_id message) s2 in
      if rsp_success message then
        settle (promise pendingCommand) (Fulfilled (rsp_data message)) s3
      else
        settle (promise pendingCommand) (Failed (errorMessageOf message)) s3
  | None => s1
  end.

Definition handleHeartbeat (clientId : string) (nowMs : Z) (s : State) : State :=
  withClients
    (ClientManager.updateClientState clientId
       {| ClientManager.upd_lastHeartbeat := Some nowMs;
          ClientManager.upd_lastActivity := Some nowMs |}) s.

Definition handleDisconnection (clientId : string) (s : State) : State :=
  withClients (ClientManager.removeClient clientId) s.

Definition staleTimeout : Z := 120000.

Definition cleanupStaleConnections (nowMs : Z) (s : State) : State :=
  withClients
    (fun m =>
       fold_left
         (fun m' client =>
            if nowMs - lastHeartbeat client >? staleTimeout
            then ClientManager.removeClient (id client) m'
            else m')
         (ClientManager.getAllClients m) m) s.

(** The synchronous part of the operation [tools/call] gives to
    [executeWithRetry]: a new promise, its 30 second timer, and the entry
    of [pendingCommands] under the generated command id. *)
Definition sendCommand (commandId : string) (s : State) : State :=
  let h := nextHandle s in
  {| clientManager := clientManager s;
     pendingCommands := <[commandId := {| promise := h; timeout := h |}]> (pendingCommands s);
     timers := <[h := (commandId, h)]> (timers s);
     promises := promises s;
     nextHandle := S h |}.

(** The callback given to [setTimeout]. *)
Definition timeoutCallback (commandId : string) (p : nat) (s : State) : State :=
  settle p (Failed "Command timeout") (deletePending commandId s).

(** The event loop runs the callback of a timer that is still armed, once;
    a timer that was cleared or has fired never runs. *)
Definition fireTimer (t : nat) (s : State) : State :=
  match timers s !! t with
  | Some (commandId, p) => timeoutCallback commandId p (clearTimeout t s)
  | None => s
  end.

(** The units of work of the dispatch loop. *)
Inductive Event : Type :=
| Auth (clientId : string) (nowMs : Z)
| Command (clientId : string) (message : list (string * JSON))
          (generated : string) (nowMs : Z)
| Response (clientId : string) (message : ResponseFrame) (nowMs : Z)
| Heartbeat (clientId : string) (nowMs : Z)
| Disconnect (clientId : string)
| Sweep (nowMs : Z)
| Send (commandId : string)
| TimerFires (t : nat).

Definition step (s : State) (ev : Event) : State :=
  match ev with
  | Auth clientId nowMs => handleAuth clientId nowMs s
  | Command clientId message generated nowMs =>
      snd (handleCommand clientId message generated nowMs s)
  | Response clientId message nowMs => handleResponse clientId message nowMs s
  | Heartbeat clientId nowMs => handleHeartbeat clientId nowMs s
  | Disconnect clientId => handleDisconnection clientId s
  | Sweep nowMs => cleanupStaleConnections nowMs s
  | Send commandId => sendCommand commandId s
  | TimerFires t => fireTimer t s
  end.

Definition run (evs : list Event) (s : State) : State := fold_left step evs s.

(** The command ids the operation generated along a trace. *)
Definition sent (evs : list Event) : list string :=
  flat_map (fun ev => match ev with Send commandId => [commandId] | _ => [] end) evs.

(** *** The MCP endpoint *)

(** What [const { name, arguments: args } = request.params] reads from a
    [params] that is neither [undefined] nor [null]: the two properties,
    each [undefined] when [params] does not have it (as when [params] is a
    number, a string or an array). *)
Record ToolCall : Type := {
  name : option JSON;
  arguments : option JSON
}.

Record MCPRequest : Type := {
  method : string;
  request_id : option JSON;
  params : option ToolCall
}.

(** The answers of [handleMCPProtocol]. The two constant results are not
    spelled out; [ToolResult] carries the value the source prints with
    [JSON.stringify(result, null, 2)]. [Raises] is the [TypeError] of
    destructuring a missing [params], or of [name.replace] when [name] is
    not a string (it is then [undefined], or a value without a [replace]
    method); [Running] stands for a call that has not completed. *)
Inductive MCPReply : Type :=
| InitializeResult (rid : option JSON)
| ToolsListResult (rid : option JSON)
| ToolResult (rid : option JSON) (result : option JSON)
| ErrorReply (rid : option JSON) (code : Z) (message : string)
| Raises
| Running.

(** The command the operation of [tools/call] builds and sends to the
    client. *)
Definition toolCommand (generated : string) (commandType : string)
    (args : option JSON) (nowMs : Z) : MCPCommand :=
  {| cmd_id := Some (JStr generated);
     cmd_type := Some (JStr commandType);
     cmd_params := args;
     cmd_timestamp := nowMs;
     cmd_timeout := None;
     cmd_retryCount := None;
     cmd_maxRetries := None;
     cmd_priority := None;
     cmd_clientId := "mcp-client" |}.

Section WithSerializer.
Import RetryManager.
Variable JSON_stringify : JSON -> string.

Definition handleMCPProtocol (cfg : RetryManagerConfig) (o : Oracle)
    (request : MCPRequest) (s : State) (st : Breakers) (e : Env)
    : MCPReply * Breakers * Env :=
  if String.eqb (method request) "initialize" then
    (InitializeResult (request_id request), st, e)
  else if String.eqb (method request) "tools/list" then
    (ToolsListResult (request_id request), st, e)
  else if String.eqb (method request) "tools/call" then
    match params request with
    | None => (Raises, st, e)
    | Some call =>
        match name call with
        | Some (JStr toolName) =>
            let commandType := replace_first "browser_" EmptyString toolName in
            match ClientManager.getAllClients (clientManager s) with
            | [] =>
                (ErrorReply (request_id request) (-32603) "No connected clients", st, e)
            | client :: _ =>
                let '(completion, st', e') :=
                  executeWithRetry JSON_stringify cfg o commandType (arguments call) st e in
                match completion with
                | Returns result => (ToolResult (request_id request) result, st', e')
                | Throws errorMessage =>
                    (ErrorReply (request_id request) (-32603)
                       ("Command failed: " ++ errorMessage), st', e')
                | Unfinished => (Running, st', e')
                end
            end
        | _ => (Raises, st, e)
        end
    end
  else (ErrorReply (request_id request) (-32601) "Unknown method", st, e).

End WithSerializer.

End Server.

(** ** Observations used by the statements *)

Module Observe.
Import Js Types Runtime Server.

(** The rate-limit window the registry holds for a client. *)
Definition rateLimitOf (clientId : string) (s : State) : option RateLimit :=
  rateLimit <$> ClientManager.getClient clientId (clientManager s).

(** Successive calls of [checkRateLimit] for one client, at the given
    times: the answers, and the state they leave. *)
Fixpoint checkRateLimits (clientId : string) (times : list Z) (s : State)
    : list bool * State :=
  match times with
  | [] => ([], s)
  | t :: rest =>
      let '(ok, s1) := checkRateLimit clientId t s in
      let '(oks, s2) := checkRateLimits clientId rest s1 in
      (ok :: oks, s2)
  end.

(** The breaker of a key as the manager reads it: a key without an entry
    counts as the closed breaker with no failures that [recordFailure]
    starts from. *)
Definition breakerOf (key : string) (st : gmap string RetryManager.Breaker)
    : RetryManager.Breaker :=
  default RetryManager.freshBreaker (st !! key).

(** Failures recorded one after the other for one key, at the given
    times. *)
Definition recordFailures (cfg : RetryManager.RetryManagerConfig) (key : string)
    (times : list Z) (st : gmap string RetryManager.Breaker)
    : gmap string RetryManager.Breaker :=
  fold_left (fun st' t => RetryManager.recordFailure cfg key t st') times st.

(** Two states with the same pending commands, timers and promises. *)
Definition sameCorrelator (s s' : State) : Prop :=
  pendingCommands s' = pendingCommands s
  /\ timers s' = timers s
  /\ promises s' = promises s
  /\ nextHandle s' = nextHandle s.

(** The pending table, the armed timers and the promises fit together:
    every pending entry was sent under an id of [ids], has its timer armed
    for it and its promise unsettled; every armed timer belongs to the
    pending entry of its command; handles in use are below the next one. *)
Definition consistent (ids : list string) (s : State) : Prop :=
  (forall commandId pc,
     pendingCommands s !! commandId = Some pc ->
     commandId ∈ ids
     /\ promise pc = timeout pc
     /\ timers s !! timeout pc = Some (commandId, promise pc)
     /\ promises s !! promise pc = None)
  /\ (forall t commandId p,
        timers s !! t = Some (commandId, p) ->
        pendingCommands s !! commandId = Some {| promise := p; timeout := t |})
  /\ (forall t, is_Some (timers s !! t) -> (t < nextHandle s)%nat)
  /\ (forall p, is_Some (promises s !! p) -> (p < nextHandle s)%nat).

(** The command [commandId], whose promise and timer have handle [h], has
    been resolved with [v]. *)
Definition resolvedAs (commandId : string) (h : nat) (v : Settlement)
    (s : State) : Prop :=
  pendingCommands s !! commandId = None
  /\ timers s !! h = None
  /\ promises s !! h = Some v.

(** What a resolving event settles the promise with. *)
Definition settlementOf (ev : Event) : Settlement :=
  match ev with
  | Response _ message _ =>
      if rsp_success message then Fulfilled (rsp_data message)
      else Failed (errorMessageOf message)
  | _ => Failed "Command timeout"
  end.

(** [ev] resolves the pending command [commandId] with entry [pc]: it is
    a reply carrying the id, or the firing of the entry's timer. *)
Definition resolves (ev : Event) (commandId : string) (pc : PendingCommand) : Prop :=
  match ev with
  | Response _ message _ => rsp_id message = commandId
  | TimerFires t => t = timeout pc
  | _ => False
  end.

(** What a reply and a timeout have in common: the timer is disarmed, the
    entry deleted, the promise settled. *)
Definition resolveWith (commandId : string) (pc : PendingCommand) (v : Settlement)
    (s : State) : State :=
  settle (promise pc) v (deletePending commandId (clearTimeout (timeout pc) s)).

End Observe.

(** ** Concrete states used to run the definitions *)

Module Examples.
Import Js Number Types Runtime Server.

Definition client0 : State := handleAuth "client_1" 1000 initial.

(** A serializer to instantiate [JSON_stringify] with when running the
    definitions. It prints as [JSON.stringify] does on [null], booleans,
    whole numbers, strings without characters to escape, and arrays and
    objects of these (a fraction is printed as its floor; the examples
    have none). *)
Fixpoint compact (v : JSON) : string :=
  match v with
  | JNull => "null"
  | JBool b => if b then "true" else "false"
  | JNum n => pretty (Qfloor n)
  | JStr s => String.append (String "034" s) (String "034" EmptyString)
  | JArr items =>
      "[" ++ String.concat "," (map compact items) ++ "]"
  | JObj fields =>
      "{" ++ String.concat ","
               (map (fun kv : string * JSON =>
                       String.append (String "034" (fst kv))
                         (String "034" (String ":" (compact (snd kv)))))
                    fields) ++ "}"
  end.

(** A [Math.pow] to run the definitions with. For an exponent that is a
    whole number and not negative it multiplies that many factors, which is
    exact whenever the products are doubles, as they are for the
    strategies of the repository; for any other exponent it gives NaN. *)
Fixpoint product (x : float) (n : nat) : float :=
  match n with
  | O => 1%float
  | S k => (x * product x k)%float
  end.

Definition powerOf (x y : float) : float :=
  match Math_floor y, Math_floor (- y)%float with
  | Int z, Int z' => if (0 <=? z)%Z && (z' =? - z)%Z then product x (Z.to_nat z) else nan
  | _, _ => nan
  end.

(** An operation that fails every time with the message of the pending
    command's timer. *)
Definition alwaysTimesOut : Oracle :=
  {| attempt := fun _ => Rejects "Command timeout";
     duration := fun _ => 30000;
     random := fun _ => 0.5%float;
     Math_pow := powerOf |}.

(** An operation that fails every time because of its arguments. *)
Definition alwaysInvalidUrl : Oracle :=
  {| attempt := fun _ => Rejects "Invalid URL";
     duration := fun _ => 5;
     random := fun _ => 0%float;
     Math_pow := powerOf |}.

Definition startEnv : Env := {| now := 0; calls := 0; draws := 0 |}.

(** An operation that fails twice with an error of the transport and then
    succeeds. *)
Definition failsTwice : Oracle :=
  {| attempt := fun i => if (i <? 2)%nat then Rejects "Network error"
                         else Resolves (Some (JStr "ok"));
     duration := fun _ => 100;
     random := fun _ => 0%float;
     Math_pow := powerOf |}.

(** An operation that fails twice with an error of the transport and then
    because of its arguments. *)
Definition failsThenInvalid : Oracle :=
  {| attempt := fun i => if (i <? 2)%nat then Rejects "Network error"
                         else Rejects "Invalid URL";
     duration := fun _ => 100;
     random := fun _ => 0%float;
     Math_pow := powerOf |}.

(** The strategy [createRetryManager] installs for every command. *)
Definition shippedStrategy : RetryStrategy :=
  ErrorHandler.defaultRetryStrategy (RetryManager.errorHandler RetryManager.createRetryManager).

(** A tool call whose name is no known command kind and whose arguments
    are not an object. *)
Definition bogusCall : MCPRequest :=
  {| method := "tools/call";
     request_id := Some (JNum 7);
     params := Some {| name := Some (JStr "browser_bogus");
                       arguments := Some (JStr "oops") |} |}.

(** A [command] frame of the same kind. *)
Definition bogusFrame : list (string * JSON) :=
  [("type", JStr "command"); ("command", JStr "bogus"); ("params", JStr "oops")].

(** A client connects and two commands are sent to it. *)
Definition twoPending : list Event :=
  [Auth "client_1" 1000; Send "cmd_1"; Send "cmd_2"].

(** The reply to the first of them. *)
Definition replyOne : Event :=
  Response "client_1"
    {| rsp_id := "cmd_1"; rsp_success := true;
       rsp_data := Some (JStr "done"); rsp_error := None |} 1500.

(** The timer of the first command, a second reply and a disconnection. *)
Definition lateEvents : list Event :=
  [TimerFires 0; replyOne; Disconnect "client_1"].

End Examples.

(** ** state/command-queue.ts *)

Module CommandQueue.
Import Js Types.

(** The queue, the [processing] flag and, as the trace of the calls of
    [executeCommand] (which only prints its argument), the commands executed
    so far. *)
Record t : Type := {
  queue : list MCPCommand;
  processing : bool;
  executed : list MCPCommand
}.

Definition empty : t := {| queue := []; processing := false; executed := [] |}.

Definition getPriorityValue (priority : option JSON) : Z :=
  match priority with
  | Some (JStr p) =>
      if String.eqb p "high" then 0
      else if String.eqb p "normal" then 1
      else if String.eqb p "low" then 2
      else 1
  | _ => 1
  end.

Definition priorityOf (c : MCPCommand) : Z := getPriorityValue (cmd_priority c).

(** [Array.prototype.sort] with the comparator of [enqueue] is a stable
    sort by priority value; the answer of a stable sort does not depend on
    the algorithm, and insertion is the one written here. *)
Fixpoint insertByPriority (c : MCPCommand) (l : list MCPCommand) : list MCPCommand :=
  match l with
  | [] => [c]
  | x :: rest =>
      if (priorityOf c <=? priorityOf x)%Z then c :: x :: rest
      else x :: insertByPriority c rest
  end.

Fixpoint sortByPriority (l : list MCPCommand) : list MCPCommand :=
  match l with
  | [] => []
  | c :: rest => insertByPriority c (sortByPriority rest)
  end.

(** One turn of the loop of [processQueue], up to its [await]: with a
    command in the queue, shift it and execute it; with none, clear the
    flag and return. *)
Definition processTurn (q : t) : t :=
  match queue q with
  | command :: rest =>
      {| queue := rest; processing := true; executed := (executed q ++ [command])%list |}
  | [] => {| queue := []; processing := false; executed := executed q |}
  end.

(** [enqueue]: push, sort and, unless a run of [processQueue] is under way,
    start one (it runs up to its first [await]). *)
Definition enqueue (command : MCPCommand) (q : t) : t :=
  let q1 := {| queue := sortByPriority (queue q ++ [command])%list;
               processing := processing q;
               executed := executed q |} in
  if processing q then q1 else processTurn q1.

(** The continuation of [processQueue] after an [await]; there is one to
    run only while [processing] is set. *)
Definition resume (q : t) : t :=
  if processing q then processTurn q else q.

Definition getQueueLength (q : t) : nat := length (queue q).

Definition clearQueue (q : t) : t :=
  {| queue := []; processing := processing q; executed := executed q |}.

(** The units of work on a queue. *)
Inductive Op : Type :=
| Enqueue (command : MCPCommand)
| Resume.

Definition apply (q : t) (op : Op) : t :=
  match op with
  | Enqueue command => enqueue command q
  | Resume => resume q
  end.

Definition enqueued (ops : list Op) : list MCPCommand :=
  flat_map (fun op => match op with Enqueue c => [c] | Resume => [] end) ops.

End CommandQueue.

(** ** utils/logger.ts *)

Module Logger.
Import Js.

Inductive LogLevel : Type := DEBUG | INFO | WARN | ERROR.

(** The numeric value of the enum member. *)
Definition value (l : LogLevel) : Z :=
  match l with DEBUG => 0 | INFO => 1 | WARN => 2 | ERROR => 3 end.

Definition levelName (l : LogLevel) : string :=
  match l with
  | DEBUG => "DEBUG" | INFO => "INFO" | WARN => "WARN" | ERROR => "ERROR"
  end.

Definition parseLevel (level : string) : LogLevel :=
  let l := toLowerCase level in
  if String.eqb l "debug" then DEBUG
  else if String.eqb l "info" then INFO
  else if String.eqb l "warn" then WARN
  else if String.eqb l "error" then ERROR
  else INFO.

(** What reaches the console: the level name and the message of each entry
    (the timestamp and the meta object are left out). *)
Definition Output : Type := list (string * string).

(** The methods [debug], [info], [warn] and [error] of a logger built with
    the configured level string. *)
Definition logAt (configured : string) (method : LogLevel) (message : string)
    (out : Output) : Output :=
  if (value (parseLevel configured) <=? value method)%Z
  then (out ++ [(levelName method, message)])%list
  else out.

End Logger.

(** ** utils/config-loader.ts *)

Module ConfigLoader.
Import Js.

(** [path.split('.')]. *)
Fixpoint splitDots (current : string) (s : string) : list string :=
  match s with
  | EmptyString => [current]
  | String c rest =>
      if Ascii.eqb c "." then current :: splitDots EmptyString rest
      else splitDots (current ++ String c EmptyString) rest
  end.

(** [current?.[key]] for a key that names no built-in property (none of the
    keys [validateConfig] asks for does): an own property of an object, and
    [undefined] on anything else. *)
Definition optionalProperty (current : option JSON) (key : string) : option JSON :=
  match current with
  | Some (JObj fields) => field key fields
  | _ => None
  end.

Definition getNestedValue (obj : option JSON) (path : string) : option JSON :=
  fold_left optionalProperty (splitDots EmptyString path) obj.

Definition required : list string :=
  ["server.port"; "server.host"; "websocket.heartbeatInterval";
   "authentication.enabled"; "rateLimit.enabled"; "logging.level"].

(** The [for] loop of [validateConfig] over the fields that are left: the
    message of the error it throws, if it throws. *)
Fixpoint checkFields (fields : list string) (config : JSON) : option string :=
  match fields with
  | [] => None
  | f :: rest =>
      match getNestedValue (Some config) f with
      | None | Some JNull => Some ("Missing required configuration field: " ++ f)
      | Some _ => checkFields rest config
      end
  end.

Definition validateConfig (config : JSON) : option string :=
  checkFields required config.

End ConfigLoader.

(** ** Observations used by the further properties *)

Module Invariants.
Import Js Types Runtime Server.

(** What holds of every entry of the client registry the server builds: it
    is filed under its own id, it is connected, it has no active command and
    no history, and its rate-limit counter is between 0 and [maxRequests]. *)
Definition entryOk (kc : string * ClientState) : Prop :=
  fst kc = id (snd kc)
  /\ connected (snd kc) = true
  /\ activeCommands (snd kc) = []
  /\ commandHistory (snd kc) = []
  /\ (0 <= requests (rateLimit (snd kc)) <= maxRequests)%Z.

Definition registryOk (m : ClientManager.t) : Prop :=
  NoDup (map fst m) /\ Forall entryOk m.

(** The client ids of the [auth] frames of a trace. *)
Definition authenticated (evs : list Event) : list string :=
  flat_map (fun ev => match ev with Auth clientId _ => [clientId] | _ => [] end) evs.

(** A client the sweep at [nowMs] removes. *)
Definition stale (nowMs : Z) (c : ClientState) : bool :=
  nowMs - lastHeartbeat c >? staleTimeout.

End Invariants.

(** ** Observations on the circuit breaker table *)

Module BreakerObserve.
Import Js Types Runtime ErrorHandler RetryManager.

(** What holds of every breaker the manager stores: the count is not
    negative, a breaker that is not closed has reached the threshold, and a
    closed one is below it or was reset to 0. *)
Definition breakerOk (cfg : RetryManagerConfig) (b : Breaker) : Prop :=
  (0 <= failures b)%Z
  /\ (state b <> CLOSED -> (circuitBreakerThreshold cfg <= failures b)%Z)
  /\ (state b = CLOSED ->
      (failures b < circuitBreakerThreshold cfg)%Z \/ failures b = 0%Z).

Definition breakersOk (cfg : RetryManagerConfig) (st : gmap string Breaker) : Prop :=
  forall key b, st !! key = Some b -> breakerOk cfg b.

Section WithSerializer.
Variable JSON_stringify : JSON -> string.

(** [n] calls of [executeWithRetry] for the same command and parameters, one
    after the other: how each completed, and the table and environment they
    leave. *)
Fixpoint executeTimes (n : nat) (cfg : RetryManagerConfig) (o : Oracle)
    (command : string) (params : option JSON) (st : gmap string Breaker) (e : Env)
    : list Completion * gmap string Breaker * Env :=
  match n with
  | O => ([], st, e)
  | S n' =>
      let '(completion, st1, e1) :=
        executeWithRetry JSON_stringify cfg o command params st e in
      let '(rest, st2, e2) := executeTimes n' cfg o command params st1 e1 in
      (completion :: rest, st2, e2)
  end.

End WithSerializer.

End BreakerObserve.

(** ** Observations on doubles *)

Module Double.
Local Close Scope string_scope.

(** The magnitude of a double as a whole number: its value times
    [2 ^ scale], where [scale] is large enough for the exponent of every
    double and of every exact product of two doubles. The infinities have
    the magnitude [top], above every finite double. *)

Definition scale : Z := 2200.

Definition top : Z := 2 ^ (emax + scale).

Definition mag (x : spec_float) : Z :=
  match x with
  | S754_finite _ m e => Z.pos m * 2 ^ (e + scale)
  | S754_infinity _ => top
  | _ => 0
  end.

Definition nonneg (x : spec_float) : bool :=
  match x with
  | S754_zero _ => true
  | S754_finite s _ _ | S754_infinity s => negb s
  | S754_nan => false
  end.

Definition rne (a k : Z) : Z :=
  let q := a / 2 ^ k in
  match 2 * (a mod 2 ^ k) ?= 2 ^ k with
  | Lt => q
  | Eq => if Z.even q then q else q + 1
  | Gt => q + 1
  end.

Definition exponentOf (q : Z) : Z := fexp prec emax (Z.log2 q + 1 - scale) + scale.

Definition RND (q : Z) : Z := rne q (exponentOf q) * 2 ^ exponentOf q.

Definition round (q : Z) : Z := Z.min (RND q) top.

(** A zero of either sign or a positive finite double. *)
Definition finiteNonneg (x : spec_float) : bool :=
  match x with
  | S754_zero _ => true
  | S754_finite s _ _ => negb s
  | _ => false
  end.

End Double.

Module QueueObserve.
Import Js Types CommandQueue.

(** The order of the comparator of [enqueue]. *)
Definition byPriority (a b : MCPCommand) : Prop := priorityOf a <= priorityOf b.

Definition hasPriority (v : Z) (c : MCPCommand) : bool := (priorityOf c =? v)%Z.

(** The queue after a sequence of units of work on a new one. *)
Definition after (ops : list Op) : t := fold_left apply ops empty.

(** What holds of a queue between two units of work. *)
Record queueOk (ops : list Op) (q : t) : Prop := {
  ok_conserved : (executed q ++ queue q)%list ≡ₚ enqueued ops;
  ok_idle : processing q = false -> queue q = [];
  ok_sorted : StronglySorted byPriority (queue q)
}.

End QueueObserve.

Module ConfigObserve.
Import Js ConfigLoader.

(** The test of [validateConfig] on one field, negated. *)
Definition present (config : JSON) (f : string) : Prop :=
  match getNestedValue (Some config) f with
  | None | Some JNull => False
  | Some _ => True
  end.

End ConfigObserve.

(** * Properties *)

(** ** The client registry *)

Module ClientManagerFacts.
Import Types ClientManager.

Lemma get_set_eq clientId c m : get clientId (set clientId c m) = Some c.
Proof.
  induction m as [|[k c'] m IH]; simpl.
  - by rewrite String.eqb_refl.
  - destruct (String.eqb k clientId) eqn:E; simpl; rewrite E; [done | exact IH].
Qed.

Lemma get_set_ne clientId other c m :
  clientId <> other -> get other (set clientId c m) = get other m.
Proof.
  intros Hne. induction m as [|[k c'] m IH]; simpl.
  - destruct (String.eqb clientId other) eqn:E; [|done].
    apply String.eqb_eq in E. contradiction.
  - destruct (String.eqb k clientId) eqn:E; simpl.
    + apply String.eqb_eq in E. subst k.
      destruct (String.eqb clientId other) eqn:E'; [|done].
      apply String.eqb_eq in E'. contradiction.
    + by rewrite IH.
Qed.

Lemma get_delete_eq_None clientId m :
  get clientId m = None -> delete clientId m = m.
Proof.
  induction m as [|[k c] m IH]; simpl; [done|].
  destruct (String.eqb k clientId); [done|]. intros H. by rewrite IH.
Qed.

End ClientManagerFacts.

(** ** Rate limiting *)

Module RateLimitFacts.
Import Js Types Runtime Server Observe ClientManagerFacts.

Lemma rateLimitOf_setRateLimit clientId rl s :
  is_Some (ClientManager.getClient clientId (clientManager s)) ->
  rateLimitOf clientId (setRateLimit clientId rl s) = Some rl.
Proof.
  intros [c Hc]. unfold rateLimitOf, setRateLimit, ClientManager.getClient in *.
  simpl. rewrite Hc. by rewrite get_set_eq.
Qed.

Lemma rateLimitOf_Some clientId rl s :
  rateLimitOf clientId s = Some rl ->
  exists c, ClientManager.getClient clientId (clientManager s) = Some c
            /\ rateLimit c = rl.
Proof.
  unfold rateLimitOf. destruct (ClientManager.getClient _ _) as [c|]; simpl; [|done].
  intros [= <-]. eauto.
Qed.

(** A check inside the window, below the limit: allowed, and the counter
    goes up by one. *)
Lemma checkRateLimit_allowed clientId nowMs s n w :
  rateLimitOf clientId s = Some {| requests := n; windowStart := w |} ->
  nowMs - w <= windowMs -> n < maxRequests ->
  exists s', checkRateLimit clientId nowMs s = (true, s')
             /\ rateLimitOf clientId s' = Some {| requests := n + 1; windowStart := w |}.
Proof.
  intros Hrl Hwin Hn. apply rateLimitOf_Some in Hrl as (c & Hc & Hrl).
  unfold checkRateLimit. rewrite Hc, Hrl. simpl.
  destruct (nowMs - w >? windowMs) eqn:E; [lia|]. simpl.
  destruct (n >=? maxRequests) eqn:E'; [lia|].
  eexists; split; [reflexivity|].
  apply rateLimitOf_setRateLimit. eauto.
Qed.

(** A check inside the window, at the limit: denied, nothing changes. *)
Lemma checkRateLimit_denied clientId nowMs s n w :
  rateLimitOf clientId s = Some {| requests := n; windowStart := w |} ->
  nowMs - w <= windowMs -> maxRequests <= n ->
  checkRateLimit clientId nowMs s = (false, s).
Proof.
  intros Hrl Hwin Hn. apply rateLimitOf_Some in Hrl as (c & Hc & Hrl).
  unfold checkRateLimit. rewrite Hc, Hrl. simpl.
  destruct (nowMs - w >? windowMs) eqn:E; [lia|]. simpl.
  destruct (n >=? maxRequests) eqn:E'; [done|lia].
Qed.

(** A check after the window has elapsed: the window restarts and the
    check is the first of the new window. *)
Lemma checkRateLimit_expired clientId nowMs s rl :
  rateLimitOf clientId s = Some rl ->
  nowMs - windowStart rl > windowMs ->
  exists s', checkRateLimit clientId nowMs s = (true, s')
             /\ rateLimitOf clientId s' = Some {| requests := 1; windowStart := nowMs |}.
Proof.
  intros Hrl Hwin. apply rateLimitOf_Some in Hrl as (c & Hc & Hrl).
  unfold checkRateLimit. rewrite Hc, Hrl. simpl.
  destruct (nowMs - windowStart rl >? windowMs) eqn:E; [|lia]. simpl.
  eexists; split; [reflexivity|].
  apply rateLimitOf_setRateLimit.
  unfold setRateLimit, ClientManager.getClient in *. simpl. rewrite Hc.
  rewrite get_set_eq. eauto.
Qed.

(** Whatever the state, a denied check returns it as it was. *)
Lemma checkRateLimit_false_pure clientId nowMs s s' :
  checkRateLimit clientId nowMs s = (false, s') -> s' = s.
Proof.
  unfold checkRateLimit.
  destruct (ClientManager.getClient _ _) as [c|]; [|congruence].
  destruct (nowMs - windowStart (rateLimit c) >? windowMs); simpl.
  - congruence.
  - destruct (requests (rateLimit c) >=? maxRequests); congruence.
Qed.

End RateLimitFacts.

Module RateLimitClaims.
Import Js Types Runtime Server Observe Examples ClientManagerFacts RateLimitFacts.

Lemma checkRateLimits_allowed clientId times : forall s n w,
  rateLimitOf clientId s = Some {| requests := n; windowStart := w |} ->
  n + Z.of_nat (length times) <= maxRequests ->
  Forall (fun t => t - w <= windowMs) times ->
  exists s',
    checkRateLimits clientId times s = (replicate (length times) true, s')
    /\ rateLimitOf clientId s'
       = Some {| requests := n + Z.of_nat (length times); windowStart := w |}.
Proof.
  induction times as [|t times IH]; intros s n w Hrl Hlen Hwin.
  - exists s. simpl. by rewrite Z.add_0_r.
  - apply Forall_cons in Hwin as [Ht Hwin]. simpl length in *.
    destruct (checkRateLimit_allowed clientId t s n w Hrl Ht) as (s1 & Hc & Hrl1); [lia|].
    destruct (IH s1 (n + 1) w Hrl1) as (s2 & Hcs & Hrl2); [lia | done |].
    exists s2. simpl. rewrite Hc, Hcs. split; [done|].
    rewrite Hrl2. do 2 f_equal. lia.
Qed.

(** C8. With [maxRequests = 100] and [windowMs = 60000], for a client whose
    window starts at [w] with the counter at 0, and 100 checks at times
    inside the window: every prefix of [k] checks succeeds and leaves the
    counter at [k]; a 101st check inside the window returns [false] and
    leaves the state as it was; a check made once more than [windowMs] has
    elapsed since [w] succeeds and restarts the window with the counter at
    1; and in any state whatever a check that returns [false] changes
    nothing. *)
Theorem C8_rate_limit_window clientId s w (times : list Z) :
  rateLimitOf clientId s = Some {| requests := 0; windowStart := w |} ->
  length times = 100%nat ->
  Forall (fun t => t - w <= 60000) times ->
  (forall k, (k <= 100)%nat ->
     exists sk,
       checkRateLimits clientId (take k times) s = (replicate k true, sk)
       /\ rateLimitOf clientId sk
          = Some {| requests := Z.of_nat k; windowStart := w |})
  /\ (exists s100,
        checkRateLimits clientId times s = (replicate 100 true, s100)
        /\ (forall t, t - w <= 60000 ->
              checkRateLimit clientId t s100 = (false, s100))
        /\ (forall t, t - w > 60000 ->
              exists s', checkRateLimit clientId t s100 = (true, s')
                         /\ rateLimitOf clientId s'
                            = Some {| requests := 1; windowStart := t |}))
  /\ (forall anyId t s0 s1,
        checkRateLimit anyId t s0 = (false, s1) -> s1 = s0).
Proof.
  intros Hrl Hlen Hwin. split; [|split].
  - intros k Hk.
    destruct (checkRateLimits_allowed clientId (take k times) s 0 w Hrl)
      as (sk & Hc & Hr).
    + rewrite length_take. unfold maxRequests. lia.
    + by apply Forall_take.
    + exists sk. rewrite length_take, Hlen in Hc, Hr.
      replace (k `min` 100)%nat with k in * by lia. by rewrite Z.add_0_l in Hr.
  - destruct (checkRateLimits_allowed clientId times s 0 w Hrl)
      as (s100 & Hc & Hr); [rewrite Hlen; unfold maxRequests; lia | done |].
    rewrite Hlen in Hc, Hr. simpl Z.add in Hr.
    exists s100. split; [done|]. split.
    + intros t Ht. eapply checkRateLimit_denied; [exact Hr | done | unfold maxRequests; lia].
    + intros t Ht. eapply checkRateLimit_expired; [exact Hr | simpl; unfold windowMs; lia].
  - intros anyId t s0 s1. apply checkRateLimit_false_pure.
Qed.

Lemma C8_rate_limit_window_witness :
  exists s100,
    checkRateLimits "client_1" (replicate 100 2000) client0 = (replicate 100 true, s100)
    /\ checkRateLimit "client_1" 2000 s100 = (false, s100).
Proof.
  destruct (C8_rate_limit_window "client_1" client0 1000 (replicate 100 2000))
    as (_ & (s100 & Hc & Hdeny & _) & _).
  - reflexivity.
  - reflexivity.
  - apply Forall_forall. intros t Ht. apply elem_of_replicate in Ht as [-> _]. lia.
  - exists s100. split; [exact Hc | apply Hdeny; lia].
Defined.

(** C10. For a client id that the registry does not hold,
    [checkRateLimit] returns [false] and the state it returns is the state
    it was given; and a [command] frame from such a client is answered with
    an error frame, leaving the state, and so every client's rate-limit
    window, as it was. *)
Theorem C10_unregistered_client_denied clientId nowMs s :
  ClientManager.getClient clientId (clientManager s) = None ->
  checkRateLimit clientId nowMs s = (false, s)
  /\ forall message generated,
       exists code text,
         handleCommand clientId message generated nowMs s = (ErrorSent code text, s).
Proof.
  intros Hnone.
  assert (Hcheck : checkRateLimit clientId nowMs s = (false, s))
    by (unfold checkRateLimit; by rewrite Hnone).
  split; [exact Hcheck|].
  intros message generated. unfold handleCommand.
  destruct (negb (validateCommand _)); [eauto|].
  rewrite Hcheck. simpl. eauto.
Qed.

Lemma C10_unregistered_client_denied_witness :
  checkRateLimit "ghost" 5000 client0 = (false, client0).
Proof.
  apply (C10_unregistered_client_denied "ghost" 5000 client0). reflexivity.
Defined.

End RateLimitClaims.

(** ** Backoff delays *)

Module DoubleFacts.
Import Number Double.
Local Close Scope string_scope.

Lemma pow2_pos n : 0 <= n -> 0 < 2 ^ n.
Proof. intros. by apply Z.pow_pos_nonneg. Qed.

Lemma pow2_add a b : 0 <= a -> 0 <= b -> 2 ^ (a + b) = 2 ^ a * 2 ^ b.
Proof. intros. by apply Z.pow_add_r. Qed.

Lemma pow2_le a b : 0 <= a <= b -> 2 ^ a <= 2 ^ b.
Proof. intros. apply Z.pow_le_mono_r; lia. Qed.

Lemma pow2_lt a b : 0 <= a < b -> 2 ^ a < 2 ^ b.
Proof. intros. apply Z.pow_lt_mono_r; lia. Qed.

Lemma digits2_size p : digits2_pos p = Pos.size p.
Proof. induction p as [p IH|p IH|]; simpl; by rewrite ?IH. Qed.

Lemma digits2_log2 p : Z.pos (digits2_pos p) = Z.log2 (Z.pos p) + 1.
Proof.
  rewrite digits2_size. destruct p as [p|p|]; simpl; try lia.
Qed.

Lemma log2_bounds q : 0 < q -> 2 ^ Z.log2 q <= q < 2 ^ (Z.log2 q + 1).
Proof. intros H. apply Z.log2_spec in H. by rewrite <- Z.add_1_r in H. Qed.

(** ** Rounding to nearest, ties to even, of [a / 2 ^ k] *)

Lemma rne_bounds a k : 0 <= k -> a / 2 ^ k <= rne a k <= a / 2 ^ k + 1.
Proof.
  intros Hk. unfold rne.
  destruct (2 * (a mod 2 ^ k) ?= 2 ^ k); [destruct (Z.even _)| |]; lia.
Qed.

Lemma rne_exact a k : 0 <= k -> rne (a * 2 ^ k) k = a.
Proof.
  intros Hk. pose proof (pow2_pos k Hk). unfold rne.
  rewrite Z.mod_mul by lia. rewrite Z.div_mul by lia.
  change (2 * 0) with 0. by destruct (Z.compare_spec 0 (2 ^ k)); try lia.
Qed.

Lemma rne_0 a : rne a 0 = a.
Proof. pose proof (rne_exact a 0). rewrite Z.mul_1_r in H. by apply H. Qed.

Lemma rne_scale a k j : 0 <= k -> 0 <= j -> rne (a * 2 ^ j) (k + j) = rne a k.
Proof.
  intros Hk Hj. pose proof (pow2_pos k Hk). pose proof (pow2_pos j Hj).
  unfold rne. rewrite pow2_add by done.
  rewrite Z.div_mul_cancel_r by lia.
  rewrite Z.mul_mod_distr_r by lia.
  replace (2 * (a mod 2 ^ k * 2 ^ j)) with (2 * (a mod 2 ^ k) * 2 ^ j) by lia.
  rewrite <- (Zmult_compare_compat_r _ _ (2 ^ j)) by lia. done.
Qed.

Lemma rne_mono a b k : 0 <= k -> a <= b -> rne a k <= rne b k.
Proof.
  intros Hk Hab. pose proof (pow2_pos k Hk) as Hp.
  pose proof (Z.div_le_mono a b (2 ^ k) Hp Hab) as Hq.
  destruct (Z.eq_dec (a / 2 ^ k) (b / 2 ^ k)) as [E|E].
  - pose proof (Z.div_mod a (2 ^ k)) as Ha. pose proof (Z.div_mod b (2 ^ k)) as Hb.
    assert (Hr : a mod 2 ^ k <= b mod 2 ^ k) by nia.
    unfold rne. rewrite <- E.
    destruct (Z.compare_spec (2 * (a mod 2 ^ k)) (2 ^ k));
      destruct (Z.compare_spec (2 * (b mod 2 ^ k)) (2 ^ k));
      destruct (Z.even (a / 2 ^ k)); lia.
  - pose proof (rne_bounds a k Hk). pose proof (rne_bounds b k Hk). lia.
Qed.

Lemma rne_le_multiple a k c : 0 <= k -> a <= c * 2 ^ k -> rne a k <= c.
Proof.
  intros Hk H. rewrite <- (rne_exact c k Hk). by apply rne_mono.
Qed.

Lemma rne_ge_multiple a k c : 0 <= k -> c * 2 ^ k <= a -> c <= rne a k.
Proof.
  intros Hk H. rewrite <- (rne_exact c k Hk). by apply rne_mono.
Qed.


(** ** The rounding of a scaled magnitude *)

Lemma exponentOf_eq q : exponentOf q = Z.max (Z.log2 q - 52) 1126.
Proof. unfold exponentOf, fexp, SpecFloat.emin, prec, emax, scale. lia. Qed.

Lemma exponentOf_ge q : 1126 <= exponentOf q.
Proof. rewrite exponentOf_eq. lia. Qed.

Lemma exponentOf_nonneg q : 0 <= exponentOf q.
Proof. pose proof (exponentOf_ge q). lia. Qed.

Lemma exponentOf_mono q q' : q <= q' -> exponentOf q <= exponentOf q'.
Proof.
  intros H. rewrite !exponentOf_eq. pose proof (Z.log2_le_mono q q' H). lia.
Qed.

Lemma RND_0 : RND 0 = 0.
Proof. by vm_compute. Qed.

Lemma RND_nonneg q : 0 <= q -> 0 <= RND q.
Proof.
  intros Hq. unfold RND. pose proof (exponentOf_nonneg q) as Hn.
  pose proof (pow2_pos _ Hn). pose proof (rne_bounds q _ Hn).
  pose proof (Z.div_pos q (2 ^ exponentOf q)). nia.
Qed.

(** The mantissa of a rounded magnitude has at most 53 bits, and exactly
    53 above the subnormal range. *)
Lemma mantissa_le q : 0 <= q -> rne q (exponentOf q) <= 2 ^ 53.
Proof.
  intros Hq. pose proof (exponentOf_nonneg q) as Hn.
  apply rne_le_multiple; [done|].
  destruct (Z.eq_dec q 0) as [->|Hne].
  - pose proof (pow2_pos _ Hn). lia.
  - pose proof (log2_bounds q ltac:(lia)) as [_ Hlt].
    rewrite <- pow2_add by lia.
    assert (Z.log2 q + 1 <= 53 + exponentOf q) by (rewrite exponentOf_eq; lia).
    pose proof (Z.log2_nonneg q).
    pose proof (pow2_le (Z.log2 q + 1) (53 + exponentOf q)). lia.
Qed.

Lemma mantissa_ge q : 1126 < exponentOf q -> 2 ^ 52 <= rne q (exponentOf q).
Proof.
  intros Hn. apply rne_ge_multiple; [lia|].
  rewrite exponentOf_eq in *.
  assert (Hq : 0 < q).
  { destruct (Z.lt_ge_cases 0 q) as [|Hle]; [done|].
    rewrite (Z.log2_nonpos q) in Hn by lia. lia. }
  pose proof (log2_bounds q Hq) as [Hge _].
  rewrite <- pow2_add by lia.
  by replace (52 + Z.max (Z.log2 q - 52) 1126) with (Z.log2 q) by lia.
Qed.

Lemma RND_mono q q' : 0 <= q -> q <= q' -> RND q <= RND q'.
Proof.
  intros Hq Hle. pose proof (exponentOf_mono q q' Hle) as Hn.
  pose proof (exponentOf_nonneg q) as Hn0.
  destruct (Z.eq_dec (exponentOf q) (exponentOf q')) as [E|E].
  - unfold RND. rewrite <- E. pose proof (pow2_pos _ Hn0).
    pose proof (rne_mono q q' _ Hn0 Hle). nia.
  - assert (Hlt : exponentOf q < exponentOf q') by lia.
    pose proof (mantissa_le q Hq) as H1.
    pose proof (exponentOf_ge q) as Hge.
    pose proof (mantissa_ge q' ltac:(lia)) as H2.
    unfold RND.
    pose proof (pow2_pos _ Hn0).
    pose proof (pow2_pos (exponentOf q') ltac:(lia)).
    assert (2 ^ 53 * 2 ^ exponentOf q <= 2 ^ 52 * 2 ^ exponentOf q').
    { rewrite <- !pow2_add by lia. apply pow2_le. lia. }
    nia.
Qed.

Lemma round_mono q q' : 0 <= q -> q <= q' -> round q <= round q'.
Proof. intros Hq Hle. unfold round. pose proof (RND_mono q q' Hq Hle). lia. Qed.

Lemma top_pos : 0 < top.
Proof. by vm_compute. Qed.

Lemma round_nonneg q : 0 <= q -> 0 <= round q.
Proof. intros Hq. unfold round. pose proof (RND_nonneg q Hq). pose proof top_pos. lia. Qed.

Lemma round_le_top q : round q <= top.
Proof. unfold round. lia. Qed.

Lemma round_0 : round 0 = 0.
Proof. by vm_compute. Qed.

(** ** Valid finite doubles *)

Lemma valid_finite s m e :
  valid_binary (S754_finite s m e) = true ->
  fexp prec emax (Z.log2 (Z.pos m) + 1 + e) = e
  /\ -1074 <= e <= 971
  /\ Z.pos m < 2 ^ 53.
Proof.
  unfold valid_binary, SpecFloat.valid_binary, bounded, canonical_mantissa.
  rewrite digits2_log2. intros H. apply andb_true_iff in H as [H1 H2].
  apply Z.eqb_eq in H1. apply Z.leb_le in H2.
  split; [done|]. unfold fexp, SpecFloat.emin, prec, emax in *.
  split; [lia|].
  pose proof (log2_bounds (Z.pos m) ltac:(lia)) as [_ Hlt].
  pose proof (Z.log2_nonneg (Z.pos m)).
  assert (Hl : Z.log2 (Z.pos m) + 1 <= 53) by lia.
  pose proof (pow2_le (Z.log2 (Z.pos m) + 1) 53 ltac:(lia)). lia.
Qed.

Lemma log2_mag m n : 0 <= n -> Z.log2 (Z.pos m * 2 ^ n) = Z.log2 (Z.pos m) + n.
Proof. intros Hn. rewrite Z.log2_mul_pow2 by lia. lia. Qed.

(** Rounding leaves the magnitude of a double as it is. *)
Lemma round_valid s m e :
  valid_binary (S754_finite s m e) = true ->
  round (mag (S754_finite s m e)) = mag (S754_finite s m e)
  /\ mag (S754_finite s m e) < top.
Proof.
  intros Hv. apply valid_finite in Hv as (Hc & He & Hm).
  assert (Hs : 0 <= e + scale) by (unfold scale; lia).
  assert (Hlt : Z.pos m * 2 ^ (e + scale) < top).
  { unfold top. pose proof (pow2_pos _ Hs).
    assert (2 ^ 53 * 2 ^ (e + scale) <= 2 ^ (emax + scale)).
    { rewrite <- pow2_add by lia. apply pow2_le. unfold emax, scale. lia. }
    nia. }
  split; [|done]. unfold round, RND, mag.
  assert (Hn : exponentOf (Z.pos m * 2 ^ (e + scale)) = e + scale).
  { unfold exponentOf. rewrite log2_mag by done.
    replace (Z.log2 (Z.pos m) + (e + scale) + 1 - scale)
      with (Z.log2 (Z.pos m) + 1 + e) by lia.
    by rewrite Hc. }
  rewrite Hn, rne_exact by done. lia.
Qed.


(** ** What [binary_round_aux] computes *)

Lemma shr_1_spec m r s :
  0 <= m ->
  shr_1 (Build_shr_record m r s) = Build_shr_record (m / 2) (Z.odd m) (r || s).
Proof.
  intros Hm. rewrite <- Z.div2_div.
  destruct m as [|[p|p|]|p]; try reflexivity. lia.
Qed.

Lemma iter_pos_nat {A : Type} (f : A -> A) p : forall x,
  SpecFloat.iter_pos f p x = Nat.iter (Pos.to_nat p) f x.
Proof.
  induction p as [p IH|p IH|]; intros x; cbn [SpecFloat.iter_pos].
  - rewrite !IH, Pos2Nat.inj_xI, Nat.iter_succ_r.
    replace (2 * Pos.to_nat p)%nat with (Pos.to_nat p + Pos.to_nat p)%nat by lia.
    by rewrite Nat.iter_add.
  - rewrite !IH, Pos2Nat.inj_xO.
    replace (2 * Pos.to_nat p)%nat with (Pos.to_nat p + Pos.to_nat p)%nat by lia.
    by rewrite Nat.iter_add.
  - reflexivity.
Qed.

Lemma shr_iter m j :
  0 <= m ->
  let rec := Nat.iter j shr_1 (Build_shr_record m false false) in
  shr_m rec = m / 2 ^ Z.of_nat j
  /\ shr_r rec || shr_s rec = negb (m mod 2 ^ Z.of_nat j =? 0).
Proof.
  intros Hm. induction j as [|j [IH1 IH2]].
  - simpl. rewrite Z.div_1_r, Z.mod_1_r. done.
  - cbn zeta in *. rewrite Nat.iter_succ.
    destruct (Nat.iter j shr_1 _) as [m' r s]. cbn [shr_m shr_r shr_s] in *.
    assert (Hh : 0 < 2 ^ Z.of_nat j) by (apply pow2_pos; lia).
    assert (Hm' : 0 <= m') by (subst m'; apply Z.div_pos; lia).
    rewrite shr_1_spec by done. cbn [shr_m shr_r shr_s].
    rewrite Nat2Z.inj_succ, Z.pow_succ_r by lia.
    split.
    + subst m'. rewrite Z.div_div by lia. f_equal. lia.
    + rewrite IH2. rewrite (Z.mul_comm 2), Z.rem_mul_r by lia.
      rewrite <- IH1.
      pose proof (Z.mod_pos_bound m (2 ^ Z.of_nat j) Hh).
      rewrite (Zmod_odd m').
      destruct (Z.odd m').
      * simpl. symmetry. apply negb_true_iff, Z.eqb_neq. lia.
      * by rewrite Z.mul_0_r, Z.add_0_r.
Qed.


Lemma shr_round_nat m j :
  0 <= m ->
  let rec := Nat.iter j shr_1 (Build_shr_record m false false) in
  round_nearest_even (shr_m rec) (loc_of_shr_record rec) = rne m (Z.of_nat j).
Proof.
  intros Hm. destruct j as [|j]; [cbn; by rewrite rne_0|].
  cbn zeta. rewrite Nat.iter_succ.
  destruct (shr_iter m j Hm) as [H1 H2].
  destruct (Nat.iter j shr_1 _) as [m' r s]. cbn [shr_m shr_r shr_s] in *.
  assert (Hh : 0 < 2 ^ Z.of_nat j) by (apply pow2_pos; lia).
  assert (Hm' : 0 <= m') by (subst m'; apply Z.div_pos; lia).
  rewrite shr_1_spec by done. rewrite H2.
  unfold rne. rewrite Nat2Z.inj_succ, Z.pow_succ_r by lia.
  rewrite (Z.mul_comm 2 (2 ^ Z.of_nat j)), Z.rem_mul_r by lia.
  rewrite <- Z.div_div by lia. rewrite <- H1. rewrite (Zmod_odd m').
  pose proof (Z.mod_pos_bound m (2 ^ Z.of_nat j) Hh) as Hlo.
  destruct (Z.odd m'); destruct (Z.eqb_spec (m mod 2 ^ Z.of_nat j) 0) as [E0|E0];
    cbn [negb loc_of_shr_record round_nearest_even shr_m shr_r shr_s];
    match goal with |- _ = match ?a ?= ?b with _ => _ end =>
      destruct (Z.compare_spec a b) as [E|E|E]
    end; try lia; reflexivity.
Qed.

Lemma shr_round m e n :
  0 <= m ->
  let '(rec, e') := shr (Build_shr_record m false false) e n in
  e' = e + Z.max n 0
  /\ shr_m rec = m / 2 ^ Z.max n 0
  /\ round_nearest_even (shr_m rec) (loc_of_shr_record rec) = rne m (Z.max n 0).
Proof.
  intros Hm. destruct n as [|p|p]; cbn [shr].
  - rewrite Z.add_0_r. cbn. by rewrite rne_0, Z.div_1_r.
  - rewrite iter_pos_nat. replace (Z.max (Z.pos p) 0) with (Z.of_nat (Pos.to_nat p))
      by (rewrite positive_nat_Z; lia).
    split; [rewrite positive_nat_Z; lia|]. split.
    + apply (shr_iter m (Pos.to_nat p) Hm).
    + apply (shr_round_nat m (Pos.to_nat p) Hm).
  - replace (Z.max (Z.neg p) 0) with 0 by lia. rewrite Z.add_0_r.
    cbn. by rewrite rne_0, Z.div_1_r.
Qed.

Lemma Zdigits2_log2 m : 0 < m -> Zdigits2 m = Z.log2 m + 1.
Proof. destruct m as [|p|p]; try lia. intros _. apply digits2_log2. Qed.

(** The second shift of [binary_round_aux]: a mantissa that rounding took
    to [2 ^ 53] is brought back to 53 bits. *)
Lemma renormalize m2 E :
  0 <= m2 <= 2 ^ 53 -> -1074 <= E ->
  let '(rec, e2) := shr_fexp prec emax m2 E loc_Exact in
  shr_m rec * 2 ^ (e2 + scale) = m2 * 2 ^ (E + scale)
  /\ 0 <= shr_m rec < 2 ^ 53
  /\ E <= e2 <= E + 1
  /\ (2 ^ 52 <= m2 -> 2 ^ 52 <= shr_m rec).
Proof.
  intros Hm2 HE. unfold shr_fexp. cbn [shr_record_of_loc].
  destruct (Z.eq_dec m2 (2 ^ 53)) as [->|Hne].
  - replace (fexp prec emax (Zdigits2 (2 ^ 53) + E) - E) with 1
      by (change (Zdigits2 (2 ^ 53)) with 54;
          unfold fexp, SpecFloat.emin, prec, emax; lia).
    cbn [shr SpecFloat.iter_pos]. rewrite shr_1_spec by lia. cbn [shr_m].
    change (2 ^ 53 / 2) with (2 ^ 52).
    split; [|split; [lia | split; [lia | done]]].
    replace (E + 1 + scale) with (1 + (E + scale)) by lia.
    rewrite pow2_add by (unfold scale; lia). change (2 ^ 53) with (2 ^ 52 * 2 ^ 1). lia.
  - assert (Hn : fexp prec emax (Zdigits2 m2 + E) - E <= 0).
    { destruct (Z.eq_dec m2 0) as [->|H0].
      - cbn [Zdigits2]. unfold fexp, SpecFloat.emin, prec, emax. lia.
      - rewrite Zdigits2_log2 by lia.
        assert (Z.log2 m2 < 53) by (apply Z.log2_lt_pow2; lia).
        unfold fexp, SpecFloat.emin, prec, emax. lia. }
    pose proof (shr_round m2 E (fexp prec emax (Zdigits2 m2 + E) - E) ltac:(lia)) as H.
    destruct (shr _ _ _) as [rec e2]. destruct H as (He & Hm & _).
    replace (Z.max (fexp prec emax (Zdigits2 m2 + E) - E) 0) with 0 in * by lia.
    rewrite Z.div_1_r in Hm. rewrite Z.add_0_r in He. subst e2. rewrite Hm.
    split; [done|]. split; [lia|]. split; [lia | done].
Qed.


(** The rounding of a positive mantissa that is aligned on its exponent:
    the result is not negative and its magnitude is the rounded magnitude
    of the input (an overflow gives the infinity). *)
Lemma binary_round_aux_mag m e :
  e <= fexp prec emax (Z.log2 (Z.pos m) + 1 + e) ->
  0 <= e + scale ->
  let x := binary_round_aux prec emax false (Z.pos m) e loc_Exact in
  nonneg x = true /\ mag x = round (Z.pos m * 2 ^ (e + scale)).
Proof.
  intros Hal Hs x.
  assert (Hx : x = binary_round_aux prec emax false (Z.pos m) e loc_Exact) by done.
  clearbody x. revert Hx. unfold binary_round_aux.
  set (E := fexp prec emax (Z.log2 (Z.pos m) + 1 + e)) in *.
  assert (HE : -1074 <= E) by (subst E; unfold fexp, SpecFloat.emin, prec, emax; lia).
  set (q := Z.pos m * 2 ^ (e + scale)).
  assert (Hq : 0 < q) by (subst q; pose proof (pow2_pos _ Hs); lia).
  assert (Hn : exponentOf q = E + scale).
  { unfold exponentOf. subst q E. rewrite log2_mag by done. f_equal. f_equal. lia. }
  (* the first shift and the rounding *)
  unfold shr_fexp at 1. cbn [Zdigits2]. rewrite digits2_log2. fold E.
  cbn [shr_record_of_loc].
  pose proof (shr_round (Z.pos m) e (E - e) ltac:(lia)) as H1.
  destruct (shr _ e (E - e)) as [rec1 e1]. destruct H1 as (He1 & _ & Hr1).
  replace (Z.max (E - e) 0) with (E - e) in * by lia.
  replace (e + (E - e)) with E in He1 by lia. subst e1. rewrite Hr1.
  assert (Hm2 : rne (Z.pos m) (E - e) = rne q (exponentOf q)).
  { rewrite Hn. subst q. replace (E + scale) with (E - e + (e + scale)) by lia.
    by rewrite rne_scale by lia. }
  rewrite Hm2. set (m2 := rne q (exponentOf q)).
  assert (Hm2le : 0 <= m2 <= 2 ^ 53).
  { split; [|apply mantissa_le; lia]. subst m2.
    pose proof (rne_bounds q _ (exponentOf_nonneg q)).
    pose proof (Z.div_pos q (2 ^ exponentOf q) ltac:(lia)
                  (pow2_pos _ (exponentOf_nonneg q))). lia. }
  (* the second shift *)
  pose proof (renormalize m2 E Hm2le HE) as H2.
  destruct (shr_fexp prec emax m2 E loc_Exact) as [rec2 e2].
  destruct H2 as (Hval & Hrange & He2 & Hnorm).
  assert (HRND : RND q = shr_m rec2 * 2 ^ (e2 + scale)).
  { unfold RND. fold m2. by rewrite Hn, Hval. }
  assert (Hs2 : 0 <= e2 + scale) by (unfold scale; lia).
  pose proof (pow2_pos _ Hs2) as Hp2.
  unfold round. rewrite HRND.
  destruct (shr_m rec2) as [|p|p] eqn:Em; [|
    destruct (Z.leb_spec e2 (emax - prec)) as [Hfin|Hinf] | lia]; intros ->.
  - split; [done|]. cbn [mag]. pose proof top_pos. lia.
  - split; [done|]. cbn [mag].
    assert (Z.pos p * 2 ^ (e2 + scale) < top); [|lia].
    unfold top.
    assert (2 ^ 53 * 2 ^ (e2 + scale) <= 2 ^ (emax + scale)).
    { rewrite <- pow2_add by lia. apply pow2_le. unfold emax, prec, scale in *. lia. }
    nia.
  - split; [done|]. cbn [mag].
    assert (top <= Z.pos p * 2 ^ (e2 + scale)); [|lia].
    assert (Hnormal : 2 ^ 52 <= m2).
    { apply mantissa_ge. rewrite Hn. unfold emax, prec, scale in *. lia. }
    specialize (Hnorm Hnormal). unfold top.
    assert (2 ^ (emax + scale) <= 2 ^ 52 * 2 ^ (e2 + scale)).
    { rewrite <- pow2_add by lia. apply pow2_le. unfold emax, prec, scale in *. lia. }
    nia.
Qed.


(** ** Products and sums of doubles that are not negative *)

Lemma finiteNonneg_nonneg x : finiteNonneg x = true -> nonneg x = true.
Proof. by destruct x. Qed.

Lemma mag_nonneg x : 0 <= mag x.
Proof.
  pose proof top_pos.
  destruct x as [s|s| |s m e]; cbn [mag]; lia.
Qed.

Lemma finite_mag_lt_top x :
  valid_binary x = true -> finiteNonneg x = true -> mag x < top.
Proof.
  destruct x as [s|s| |s m e]; intros Hv Hf; try discriminate Hf.
  - apply top_pos.
  - by apply round_valid.
Qed.

Lemma round_mag x :
  valid_binary x = true -> finiteNonneg x = true -> round (mag x) = mag x.
Proof.
  destruct x as [s|s| |s m e]; intros Hv Hf; try discriminate Hf.
  - apply round_0.
  - by apply round_valid.
Qed.

Lemma nonneg_finite x : nonneg x = true -> mag x < top -> finiteNonneg x = true.
Proof. destruct x as [s|s| |s m e]; cbn; first [done | lia]. Qed.

Lemma SFmul_mag x y :
  valid_binary x = true -> valid_binary y = true ->
  finiteNonneg x = true -> finiteNonneg y = true ->
  nonneg (SFmul prec emax x y) = true
  /\ mag (SFmul prec emax x y) = round (mag x * mag y / 2 ^ scale).
Proof.
  intros Hvx Hvy Hx Hy.
  destruct x as [sx|sx| |sx mx ex]; try discriminate Hx;
    destruct y as [sy|sy| |sy my ey]; try discriminate Hy;
    cbn [SFmul mag nonneg];
    rewrite ?Z.mul_0_l, ?Z.mul_0_r, ?Zdiv_0_l, ?round_0; try done.
  destruct sx; [discriminate Hx|]. destruct sy; [discriminate Hy|].
  cbn [xorb]. change (Z.pos (mx * my)) with (Z.pos mx * Z.pos my) at 2.
  apply valid_finite in Hvx as (Hcx & Hex & Hmx).
  apply valid_finite in Hvy as (Hcy & Hey & Hmy).
  assert (Hsx : 0 <= ex + scale) by (unfold scale; lia).
  assert (Hsy : 0 <= ey + scale) by (unfold scale; lia).
  assert (Hs : 0 <= ex + ey + scale) by (unfold scale; lia).
  assert (Hexact : Z.pos mx * 2 ^ (ex + scale) * (Z.pos my * 2 ^ (ey + scale)) / 2 ^ scale
                   = Z.pos (mx * my) * 2 ^ (ex + ey + scale)).
  { replace (Z.pos mx * 2 ^ (ex + scale) * (Z.pos my * 2 ^ (ey + scale)))
      with (Z.pos (mx * my) * 2 ^ (ex + ey + scale) * 2 ^ scale).
    - apply Z.div_mul. unfold scale. lia.
    - rewrite Pos2Z.inj_mul, <- Z.mul_assoc, <- pow2_add by (unfold scale; lia).
      replace (ex + ey + scale + scale) with (ex + scale + (ey + scale)) by lia.
      rewrite pow2_add by done. ring. }
  rewrite Hexact. apply (binary_round_aux_mag (mx * my) (ex + ey)); [|done].
  pose proof (Z.log2_mul_below (Z.pos mx) (Z.pos my) ltac:(lia) ltac:(lia)) as Hlog.
  rewrite Pos2Z.inj_mul.
  pose proof (Z.log2_nonneg (Z.pos mx)). pose proof (Z.log2_nonneg (Z.pos my)).
  unfold fexp, SpecFloat.emin, prec, emax in *. lia.
Qed.

Lemma shl_align_spec m e e' :
  let '(m', e2) := shl_align m e e' in
  e2 = Z.min e e' /\ Z.pos m' = Z.pos m * 2 ^ (e - e2).
Proof.
  unfold shl_align. destruct (e' - e) as [|d|d] eqn:E.
  - split; [lia|]. rewrite Z.sub_diag. lia.
  - split; [lia|]. rewrite Z.sub_diag. lia.
  - split; [lia|]. replace (e - e') with (Z.pos d) by lia.
    clear E. induction d as [|d IH] using Pos.peano_ind.
    + cbn. lia.
    + rewrite Pos.iter_succ, Pos2Z.inj_xO, IH, Pos2Z.inj_succ, Z.pow_succ_r by lia. lia.
Qed.

Lemma binary_round_mag m e :
  -1074 <= e ->
  let x := binary_round prec emax false m e in
  nonneg x = true /\ mag x = round (Z.pos m * 2 ^ (e + scale)).
Proof.
  intros He. cbv zeta. unfold binary_round.
  pose proof (shl_align_spec m e (fexp prec emax (Z.pos (digits2_pos m) + e))) as H.
  destruct (shl_align _ _ _) as [mz ez]. destruct H as (Hez & Hmz).
  rewrite digits2_log2 in Hez.
  set (F := fexp prec emax (Z.log2 (Z.pos m) + 1 + e)) in *.
  assert (HF : -1074 <= F) by (subst F; unfold fexp, SpecFloat.emin, prec, emax; lia).
  assert (Hd : 0 <= e - ez) by lia.
  assert (Hs : 0 <= ez + scale) by (unfold scale; lia).
  replace (Z.pos m * 2 ^ (e + scale)) with (Z.pos mz * 2 ^ (ez + scale)).
  - apply binary_round_aux_mag; [|done].
    rewrite Hmz, log2_mag by done.
    replace (Z.log2 (Z.pos m) + (e - ez) + 1 + ez) with (Z.log2 (Z.pos m) + 1 + e) by lia.
    fold F. lia.
  - rewrite Hmz. replace (e + scale) with (e - ez + (ez + scale)) by lia.
    rewrite (pow2_add (e - ez) (ez + scale)) by done. ring.
Qed.

Lemma SFadd_mag x y :
  valid_binary x = true -> valid_binary y = true ->
  finiteNonneg x = true -> finiteNonneg y = true ->
  nonneg (SFadd prec emax x y) = true
  /\ mag (SFadd prec emax x y) = round (mag x + mag y).
Proof.
  intros Hvx Hvy Hx Hy.
  destruct x as [sx|sx| |sx mx ex]; try discriminate Hx;
    destruct y as [sy|sy| |sy my ey]; try discriminate Hy.
  - destruct sx, sy; split; by vm_compute.
  - cbn [SFadd]. split; [by apply finiteNonneg_nonneg|].
    rewrite Z.add_0_l. symmetry. by apply round_mag.
  - cbn [SFadd]. split; [by apply finiteNonneg_nonneg|].
    change (mag (S754_zero sy)) with 0. rewrite Z.add_0_r. symmetry. by apply round_mag.
  - destruct sx; [discriminate Hx|]. destruct sy; [discriminate Hy|].
    cbn [SFadd cond_Zopp mag].
    apply valid_finite in Hvx as (_ & Hex & _).
    apply valid_finite in Hvy as (_ & Hey & _).
    pose proof (shl_align_spec mx ex (Z.min ex ey)) as Hax.
    pose proof (shl_align_spec my ey (Z.min ex ey)) as Hay.
    destruct (shl_align mx ex _) as [ax e1]. destruct (shl_align my ey _) as [ay e2].
    destruct Hax as (He1 & Hax). destruct Hay as (He2 & Hay). cbn [fst].
    replace e1 with (Z.min ex ey) in * by lia.
    replace e2 with (Z.min ex ey) in * by lia.
    set (ez := Z.min ex ey) in *.
    change (Z.pos ax + Z.pos ay) with (Z.pos (ax + ay)). cbn [binary_normalize].
    replace (Z.pos mx * 2 ^ (ex + scale) + Z.pos my * 2 ^ (ey + scale))
      with (Z.pos (ax + ay) * 2 ^ (ez + scale)).
    + apply binary_round_mag. lia.
    + rewrite Pos2Z.inj_add, Hax, Hay.
      replace (ex + scale) with (ex - ez + (ez + scale)) by lia.
      replace (ey + scale) with (ey - ez + (ez + scale)) by lia.
      rewrite (pow2_add (ex - ez) (ez + scale)), (pow2_add (ey - ez) (ez + scale))
        by (unfold scale; lia).
      ring.
Qed.


(** ** Comparisons *)

Lemma SFcompare_mag x y :
  valid_binary x = true -> valid_binary y = true ->
  nonneg x = true -> nonneg y = true ->
  SFcompare x y = Some (mag x ?= mag y).
Proof.
  intros Hvx Hvy Hx Hy. pose proof top_pos as Htop.
  assert (Hfin : forall s m e, valid_binary (S754_finite s m e) = true ->
                  0 < mag (S754_finite s m e) < top).
  { intros s m e Hv. pose proof (round_valid s m e Hv) as [_ Hlt].
    apply valid_finite in Hv as (_ & He & _). split; [|done]. cbn [mag].
    pose proof (pow2_pos (e + scale) ltac:(unfold scale; lia)). lia. }
  destruct x as [sx|sx| |sx mx ex]; try discriminate Hx;
    destruct y as [sy|sy| |sy my ey]; try discriminate Hy;
    try (destruct sx; [discriminate Hx|]); try (destruct sy; [discriminate Hy|]);
    try pose proof (Hfin _ _ _ Hvx) as Hmx; try pose proof (Hfin _ _ _ Hvy) as Hmy;
    cbn [SFcompare]; f_equal; symmetry;
    try (first [apply Z.compare_eq_iff | apply Z.compare_lt_iff | apply Z.compare_gt_iff];
         cbn [mag] in *; lia).
  clear Hmx Hmy Hfin.
  apply valid_finite in Hvx as (Hcx & Hex & Hmx).
  apply valid_finite in Hvy as (Hcy & Hey & Hmy).
  assert (Hlt : forall m1 e1 m2 e2,
            fexp prec emax (Z.log2 (Z.pos m1) + 1 + e1) = e1 ->
            fexp prec emax (Z.log2 (Z.pos m2) + 1 + e2) = e2 ->
            -1074 <= e1 -> e1 < e2 ->
            Z.pos m1 * 2 ^ (e1 + scale) < Z.pos m2 * 2 ^ (e2 + scale)).
  { intros m1 e1 m2 e2 H1 H2 Hlo Hlt.
    pose proof (log2_bounds (Z.pos m1) ltac:(lia)) as [_ Hup].
    pose proof (log2_bounds (Z.pos m2) ltac:(lia)) as [Hdown _].
    pose proof (Z.log2_nonneg (Z.pos m1)). pose proof (Z.log2_nonneg (Z.pos m2)).
    assert (Hs1 : 0 <= e1 + scale) by (unfold scale; lia).
    assert (Hs2 : 0 <= e2 + scale) by (unfold scale; lia).
    pose proof (pow2_pos _ Hs1). pose proof (pow2_pos _ Hs2).
    assert (Hd : Z.log2 (Z.pos m1) + 1 + e1 <= Z.log2 (Z.pos m2) + e2)
      by (unfold fexp, SpecFloat.emin, prec, emax in *; lia).
    assert (2 ^ (Z.log2 (Z.pos m1) + 1) * 2 ^ (e1 + scale)
            <= 2 ^ Z.log2 (Z.pos m2) * 2 ^ (e2 + scale)).
    { rewrite <- !pow2_add by lia. apply pow2_le. lia. }
    nia. }
  cbn [mag]. destruct (Z.compare_spec ex ey) as [->|Hl|Hg].
  - change (Pos.compare_cont Eq mx my) with (Z.pos mx ?= Z.pos my).
    symmetry. apply Zmult_compare_compat_r. apply Z.lt_gt, pow2_pos. unfold scale. lia.
  - apply Z.compare_lt_iff. apply Hlt; [done | done | lia | done].
  - apply Z.compare_gt_iff. apply Hlt; [done | done | lia | done].
Qed.

Lemma Prim2SF_0 : Prim2SF 0 = S754_zero false.
Proof. by vm_compute. Qed.

Lemma Prim2SF_1 : Prim2SF 1 = S754_finite false 4503599627370496 (-52).
Proof. by vm_compute. Qed.

Lemma leb_mag x y :
  (x <=? y)%float = true ->
  nonneg (Prim2SF x) = true -> nonneg (Prim2SF y) = true ->
  mag (Prim2SF x) <= mag (Prim2SF y).
Proof.
  rewrite FloatAxioms.leb_spec. unfold SFleb. intros H Hx Hy.
  rewrite (SFcompare_mag _ _ (Prim2SF_valid x) (Prim2SF_valid y) Hx Hy) in H.
  destruct (Z.compare_spec (mag (Prim2SF x)) (mag (Prim2SF y)));
    first [lia | discriminate H].
Qed.

Lemma ltb_mag x y :
  (x <? y)%float = true ->
  nonneg (Prim2SF x) = true -> nonneg (Prim2SF y) = true ->
  mag (Prim2SF x) < mag (Prim2SF y).
Proof.
  rewrite FloatAxioms.ltb_spec. unfold SFltb. intros H Hx Hy.
  rewrite (SFcompare_mag _ _ (Prim2SF_valid x) (Prim2SF_valid y) Hx Hy) in H.
  destruct (Z.compare_spec (mag (Prim2SF x)) (mag (Prim2SF y)));
    first [lia | discriminate H].
Qed.

(** A double that is not below 0 is a zero, a positive double or the
    positive infinity. *)
Lemma zero_leb x : (0 <=? x)%float = true -> nonneg (Prim2SF x) = true.
Proof.
  rewrite FloatAxioms.leb_spec, Prim2SF_0. unfold SFleb.
  by destruct (Prim2SF x) as [s|[|]| |[|] m e].
Qed.

Lemma is_finite_spec x :
  is_finite x = true ->
  match Prim2SF x with S754_zero _ | S754_finite _ _ _ => True | _ => False end.
Proof.
  unfold is_finite, is_nan, is_infinity. rewrite !FloatAxioms.eqb_spec, abs_spec.
  replace (Prim2SF infinity) with (S754_infinity false) by (by vm_compute).
  by destruct (Prim2SF x) as [s|[|]| |s m e].
Qed.

(** ** The floor *)

Lemma Math_floor_mag x :
  finiteNonneg (Prim2SF x) = true ->
  Math_floor x = Int (mag (Prim2SF x) / 2 ^ scale).
Proof.
  unfold Math_floor. pose proof (Prim2SF_valid x) as Hv.
  destruct (Prim2SF x) as [s|s| |s m e]; try discriminate.
  - intros _. by rewrite Zdiv_0_l.
  - destruct s; [discriminate|]. intros _.
    apply valid_finite in Hv as (_ & He & _). cbn [cond_Zopp mag]. f_equal.
    assert (Hs : 0 <= e + scale) by (unfold scale; lia).
    destruct (Z.le_gt_cases 0 e) as [Hpos|Hneg].
    + rewrite Z.shiftl_mul_pow2 by done.
      rewrite (Z.add_comm e scale), (pow2_add scale e) by (unfold scale; lia).
      rewrite (Z.mul_comm (2 ^ scale)), Z.mul_assoc, Z.div_mul; [done|].
      unfold scale. lia.
    + rewrite Z.shiftl_div_pow2 by lia.
      replace scale with (e + scale + - e) at 2 by lia.
      rewrite (pow2_add (e + scale) (- e)), (Z.mul_comm (2 ^ (e + scale))) by lia.
      rewrite Z.div_mul_cancel_r; [done | | ];
        apply Z.neq_sym, Z.lt_neq, pow2_pos; lia.
Qed.


(** ** Products and sums of primitive doubles *)

Lemma mul_mag (x y : float) :
  finiteNonneg (Prim2SF x) = true -> finiteNonneg (Prim2SF y) = true ->
  nonneg (Prim2SF (x * y)) = true
  /\ mag (Prim2SF (x * y)) = round (mag (Prim2SF x) * mag (Prim2SF y) / 2 ^ scale).
Proof.
  intros Hx Hy. rewrite mul_spec.
  apply SFmul_mag; auto using Prim2SF_valid.
Qed.

Lemma add_mag (x y : float) :
  finiteNonneg (Prim2SF x) = true -> finiteNonneg (Prim2SF y) = true ->
  nonneg (Prim2SF (x + y)) = true
  /\ mag (Prim2SF (x + y)) = round (mag (Prim2SF x) + mag (Prim2SF y)).
Proof.
  intros Hx Hy. rewrite add_spec.
  apply SFadd_mag; auto using Prim2SF_valid.
Qed.

Lemma finiteNonneg_below (x y : float) :
  nonneg (Prim2SF x) = true -> mag (Prim2SF x) <= mag (Prim2SF y) ->
  finiteNonneg (Prim2SF y) = true -> finiteNonneg (Prim2SF x) = true.
Proof.
  intros Hx Hle Hy. apply nonneg_finite; [done|].
  pose proof (finite_mag_lt_top _ (Prim2SF_valid y) Hy). lia.
Qed.

Lemma scaled_product_mono a b c :
  0 <= a <= b -> 0 <= c -> a * c / 2 ^ scale <= b * c / 2 ^ scale.
Proof.
  intros Hab Hc. apply Z.div_le_mono; [by vm_compute | nia].
Qed.

Lemma Prim2SF_tenth :
  Prim2SF tenth = S754_finite false 7205759403792794 (-56).
Proof. by vm_compute. Qed.

(** When [d] is not below 0 and [d + 0.1 * d] is finite, [d], its tenth
    and the sum are zeros or positive doubles. *)
Lemma top_finite (d : float) :
  nonneg (Prim2SF d) = true ->
  is_finite (d + tenth * d)%float = true ->
  finiteNonneg (Prim2SF d) = true
  /\ finiteNonneg (Prim2SF (tenth * d)) = true
  /\ finiteNonneg (Prim2SF (d + tenth * d)) = true.
Proof.
  intros Hdn Hfin. apply is_finite_spec in Hfin.
  assert (Hc : finiteNonneg (Prim2SF tenth) = true) by (by vm_compute).
  assert (Hd : finiteNonneg (Prim2SF d) = true).
  { rewrite add_spec, mul_spec in Hfin. rewrite Prim2SF_tenth in Hfin.
    destruct (Prim2SF d) as [s|[|]| |[|] m e];
      try reflexivity; try discriminate Hdn. exfalso. exact Hfin. }
  destruct (mul_mag tenth d Hc Hd) as [Hwn _].
  assert (Hwf : finiteNonneg (Prim2SF (tenth * d)) = true).
  { rewrite add_spec in Hfin. unfold SF64add in Hfin.
    destruct (Prim2SF (tenth * d)) as [s|[|]| |[|] m e];
      try reflexivity; try discriminate Hwn.
    destruct (Prim2SF d) as [s|[|]| |[|] m e]; try discriminate Hd; exfalso; exact Hfin. }
  destruct (add_mag d (tenth * d) Hd Hwf) as [Hun _].
  split; [done|]. split; [done|].
  destruct (Prim2SF (d + tenth * d)) as [s|[|]| |[|] m e];
    try reflexivity; try discriminate Hun; exfalso; exact Hfin.
Qed.

(** The range of [Math.floor(d + r * 0.1 * d)] for a random value [r] of
    [0, 1) and a delay [d] that is not negative, when the top of the range
    is finite: from the floor of [d] to the floor of [d + 0.1 * d], all
    sums and products being those of doubles. *)
Lemma jitter_range (d r : float) :
  (0 <=? r)%float = true -> (r <? 1)%float = true ->
  (0 <=? d)%float = true ->
  is_finite (d + tenth * d)%float = true ->
  exists lo z hi,
    Math_floor d = Int lo
    /\ Math_floor (d + r * tenth * d)%float = Int z
    /\ Math_floor (d + tenth * d)%float = Int hi
    /\ 0 <= lo <= z /\ z <= hi.
Proof.
  intros Hr0 Hr1 Hd0 Hfin.
  set (c := tenth) in *.
  assert (Hc : finiteNonneg (Prim2SF c) = true) by (by vm_compute).
  assert (H1 : finiteNonneg (Prim2SF 1) = true) by (by vm_compute).
  (* the random value *)
  pose proof (zero_leb r Hr0) as Hrn.
  pose proof (ltb_mag r 1 Hr1 Hrn (finiteNonneg_nonneg _ H1)) as Hrlt.
  assert (Hr : finiteNonneg (Prim2SF r) = true)
    by (apply (finiteNonneg_below r 1); [done | lia | done]).
  (* the delay and the top of the range *)
  destruct (top_finite d (zero_leb d Hd0) Hfin) as (Hd & Hwf & Huf).
  destruct (mul_mag c d Hc Hd) as [_ Hw].
  destruct (add_mag d (c * d) Hd Hwf) as [_ Hu].
  (* the jitter *)
  destruct (mul_mag r c Hr Hc) as [Htn Ht].
  assert (Hscale : 0 < 2 ^ scale) by (by vm_compute).
  assert (Hone : mag (Prim2SF 1) = 2 ^ scale) by (by vm_compute).
  pose proof (mag_nonneg (Prim2SF r)) as Hr0'.
  pose proof (mag_nonneg (Prim2SF c)) as Hc0.
  assert (Htle : mag (Prim2SF (r * c)) <= mag (Prim2SF c)).
  { rewrite Ht. rewrite <- (round_mag (Prim2SF c) (Prim2SF_valid c) Hc).
    rewrite (round_mag (Prim2SF c) (Prim2SF_valid c) Hc) at 1.
    apply round_mono; [apply Z.div_pos; [nia | done]|].
    apply Z.div_le_upper_bound; [done|]. nia. }
  assert (Htf : finiteNonneg (Prim2SF (r * c)) = true)
    by (by apply (finiteNonneg_below (r * c) c)).
  destruct (mul_mag (r * c) d Htf Hd) as [Hjn Hj].
  assert (Hjle : mag (Prim2SF (r * c * d)) <= mag (Prim2SF (c * d))).
  { rewrite Hj, Hw. pose proof (mag_nonneg (Prim2SF (r * c))).
    pose proof (mag_nonneg (Prim2SF d)).
    apply round_mono; [apply Z.div_pos; [nia | done]|].
    by apply scaled_product_mono. }
  assert (Hjf : finiteNonneg (Prim2SF (r * c * d)) = true)
    by (by apply (finiteNonneg_below (r * c * d) (c * d))).
  (* the sum *)
  destruct (add_mag d (r * c * d) Hd Hjf) as [Hsn Hs].
  pose proof (mag_nonneg (Prim2SF d)) as Hd0'.
  pose proof (mag_nonneg (Prim2SF (r * c * d))) as Hj0.
  assert (Hsle : mag (Prim2SF (d + r * c * d)) <= mag (Prim2SF (d + c * d))).
  { rewrite Hs, Hu. apply round_mono; lia. }
  assert (Hsge : mag (Prim2SF d) <= mag (Prim2SF (d + r * c * d))).
  { rewrite Hs. rewrite <- (round_mag (Prim2SF d) (Prim2SF_valid d) Hd).
    rewrite (round_mag (Prim2SF d) (Prim2SF_valid d) Hd) at 2.
    apply round_mono; lia. }
  assert (Hsf : finiteNonneg (Prim2SF (d + r * c * d)) = true)
    by (by apply (finiteNonneg_below (d + r * c * d) (d + c * d))).
  exists (mag (Prim2SF d) / 2 ^ scale), (mag (Prim2SF (d + r * c * d)) / 2 ^ scale),
         (mag (Prim2SF (d + c * d)) / 2 ^ scale).
  rewrite !Math_floor_mag by done.
  split; [done|]. split; [done|]. split; [done|].
  split; [split|]; [by apply Z.div_pos | by apply Z.div_le_mono..].
Qed.

(** ** [Math.min] and finiteness *)

Lemma SFcompare_refl x :
  valid_binary x = true -> nonneg x = true -> SFcompare x x = Some Eq.
Proof. intros Hv Hx. rewrite SFcompare_mag by done. by rewrite Z.compare_refl. Qed.

Lemma finite_is_finite (x : float) :
  finiteNonneg (Prim2SF x) = true -> is_finite x = true.
Proof.
  intros Hx. unfold is_finite, is_nan, is_infinity.
  rewrite !FloatAxioms.eqb_spec, abs_spec.
  replace (Prim2SF infinity) with (S754_infinity false) by (by vm_compute).
  unfold SFeqb at 1.
  rewrite (SFcompare_refl _ (Prim2SF_valid x) (finiteNonneg_nonneg _ Hx)).
  by destruct (Prim2SF x) as [s|s| |[|] m e].
Qed.

(** What is not below a double that is not negative is not negative. *)
Lemma SFleb_nonneg x y :
  nonneg x = true -> SFleb x y = true -> nonneg y = true.
Proof.
  unfold SFleb.
  destruct x as [sx|[|]| |[|] mx ex]; try discriminate;
    destruct y as [sy|[|]| |[|] my ey]; try reflexivity; discriminate.
Qed.

(** A negative double is below every double that is not negative. *)
Lemma SFltb_negative x y :
  nonneg x = true -> nonneg y = false -> y <> S754_nan -> SFltb y x = true.
Proof.
  unfold SFltb.
  destruct x as [sx|[|]| |[|] mx ex]; try discriminate;
    destruct y as [sy|[|]| |[|] my ey]; try reflexivity; try discriminate; done.
Qed.

Lemma leb_refl (x : float) : nonneg (Prim2SF x) = true -> (x <=? x)%float = true.
Proof.
  intros Hx. rewrite FloatAxioms.leb_spec. unfold SFleb.
  by rewrite (SFcompare_refl _ (Prim2SF_valid x) Hx).
Qed.

(** A [Math.min] that is not below 0 is not above its second argument,
    which is then not negative either. *)
Lemma Math_min_le (x y : float) :
  (0 <=? Math_min x y)%float = true ->
  (Math_min x y <=? y)%float = true /\ nonneg (Prim2SF y) = true.
Proof.
  unfold Math_min. destruct (is_nan x || is_nan y) eqn:En; [discriminate|].
  apply orb_false_iff in En as [_ Hy].
  assert (Hynan : Prim2SF y <> S754_nan).
  { unfold is_nan in Hy. rewrite FloatAxioms.eqb_spec in Hy. intros E.
    rewrite E in Hy. discriminate Hy. }
  assert (Hself : (0 <=? y)%float = true ->
                  (y <=? y)%float = true /\ nonneg (Prim2SF y) = true).
  { intros H. pose proof (zero_leb y H). split; [by apply leb_refl | done]. }
  destruct (x <? y)%float eqn:Exy.
  { intros H. pose proof (zero_leb x H) as Hx.
    rewrite FloatAxioms.ltb_spec in Exy. unfold SFltb in Exy.
    assert (Hle : SFleb (Prim2SF x) (Prim2SF y) = true).
    { unfold SFleb. by destruct (SFcompare _ _) as [[| |]|]. }
    split; [by rewrite FloatAxioms.leb_spec | by apply (SFleb_nonneg (Prim2SF x))]. }
  destruct (y <? x)%float eqn:Eyx; [exact Hself|].
  destruct (get_sign x); [|exact Hself].
  intros H. pose proof (zero_leb x H) as Hx.
  rewrite FloatAxioms.ltb_spec in Exy, Eyx.
  destruct (nonneg (Prim2SF y)) eqn:Hyn.
  - split; [|done]. rewrite FloatAxioms.leb_spec. unfold SFleb, SFltb in *.
    rewrite (SFcompare_mag _ _ (Prim2SF_valid x) (Prim2SF_valid y) Hx Hyn) in *.
    rewrite (SFcompare_mag _ _ (Prim2SF_valid y) (Prim2SF_valid x) Hyn Hx) in *.
    destruct (Z.compare_spec (mag (Prim2SF x)) (mag (Prim2SF y)));
      destruct (Z.compare_spec (mag (Prim2SF y)) (mag (Prim2SF x)));
      first [done | lia].
  - rewrite (SFltb_negative _ _ Hx Hyn Hynan) in Eyx. discriminate Eyx.
Qed.

(** The top of the range does not decrease with the delay. *)
Lemma range_top_mono (d cap : float) :
  nonneg (Prim2SF d) = true -> nonneg (Prim2SF cap) = true ->
  mag (Prim2SF d) <= mag (Prim2SF cap) ->
  is_finite (cap + tenth * cap)%float = true ->
  is_finite (d + tenth * d)%float = true
  /\ exists hi top',
       Math_floor (d + tenth * d)%float = Int hi
       /\ Math_floor (cap + tenth * cap)%float = Int top'
       /\ hi <= top'.
Proof.
  intros Hdn Hcn Hle Hfin.
  assert (Hc : finiteNonneg (Prim2SF tenth) = true) by (by vm_compute).
  assert (Hscale : 0 < 2 ^ scale) by (by vm_compute).
  destruct (top_finite cap Hcn Hfin) as (Hcap & Hwcap & Hucap).
  assert (Hd : finiteNonneg (Prim2SF d) = true) by (by apply (finiteNonneg_below d cap)).
  pose proof (mag_nonneg (Prim2SF tenth)). pose proof (mag_nonneg (Prim2SF d)).
  destruct (mul_mag tenth d Hc Hd) as [Hwn Hw].
  destruct (mul_mag tenth cap Hc Hcap) as [_ Hwc].
  assert (Hwle : mag (Prim2SF (tenth * d)) <= mag (Prim2SF (tenth * cap))).
  { rewrite Hw, Hwc. apply round_mono; [apply Z.div_pos; [nia | done]|].
    rewrite !(Z.mul_comm (mag (Prim2SF tenth))). by apply scaled_product_mono. }
  assert (Hwf : finiteNonneg (Prim2SF (tenth * d)) = true)
    by (by apply (finiteNonneg_below (tenth * d) (tenth * cap))).
  destruct (add_mag d (tenth * d) Hd Hwf) as [Hun Hu].
  destruct (add_mag cap (tenth * cap) Hcap Hwcap) as [_ Huc].
  pose proof (mag_nonneg (Prim2SF (tenth * d))).
  assert (Hule : mag (Prim2SF (d + tenth * d)) <= mag (Prim2SF (cap + tenth * cap))).
  { rewrite Hu, Huc. apply round_mono; lia. }
  assert (Huf : finiteNonneg (Prim2SF (d + tenth * d)) = true)
    by (by apply (finiteNonneg_below (d + tenth * d) (cap + tenth * cap))).
  split; [by apply finite_is_finite|].
  exists (mag (Prim2SF (d + tenth * d)) / 2 ^ scale),
         (mag (Prim2SF (cap + tenth * cap)) / 2 ^ scale).
  rewrite !Math_floor_mag by done. split; [done|]. split; [done|].
  by apply Z.div_le_mono.
Qed.

End DoubleFacts.

Module DelayClaims.
Import Js Number Types Runtime ErrorHandler RetryManager Examples Double DoubleFacts.
Local Close Scope string_scope.






End DelayClaims.

(** ** The circuit breaker table *)

Module BreakerFacts.
Import Js Types Runtime ErrorHandler RetryManager Observe.

Lemma breakerOf_recordFailure cfg key nowMs (st : gmap string Breaker) :
  breakerOf key (recordFailure cfg key nowMs st)
  = {| failures := failures (breakerOf key st) + 1;
       lastFailureTime := nowMs;
       state := if failures (breakerOf key st) + 1 >=? circuitBreakerThreshold cfg
                then OPEN else state (breakerOf key st) |}.
Proof. unfold breakerOf, recordFailure. by rewrite lookup_insert_eq. Qed.

Lemma recordFailure_other cfg key other nowMs (st : gmap string Breaker) :
  key <> other -> recordFailure cfg key nowMs st !! other = st !! other.
Proof. intros Hne. unfold recordFailure. by rewrite lookup_insert_ne. Qed.

Lemma breakerOf_resetCircuitBreaker key (st : gmap string Breaker) :
  failures (breakerOf key (resetCircuitBreaker key st)) = 0
  /\ state (breakerOf key (resetCircuitBreaker key st)) = CLOSED.
Proof.
  unfold breakerOf, resetCircuitBreaker.
  destruct (st !! key) as [b|] eqn:E.
  - by rewrite lookup_insert_eq.
  - by rewrite E.
Qed.

Lemma resetCircuitBreaker_other key other (st : gmap string Breaker) :
  key <> other -> resetCircuitBreaker key st !! other = st !! other.
Proof.
  intros Hne. unfold resetCircuitBreaker.
  destruct (st !! key); [by rewrite lookup_insert_ne | done].
Qed.

Lemma recordFailures_snoc cfg key times t (st : gmap string Breaker) :
  recordFailures cfg key (times ++ [t]) st
  = recordFailure cfg key t (recordFailures cfg key times st).
Proof. unfold recordFailures. by rewrite fold_left_app. Qed.

(** Counting from a closed breaker without failures: after [n] recorded
    failures the count is [n], and the breaker is open from the moment the
    count reaches the threshold, closed before. *)
Lemma recordFailures_count cfg key times (st : gmap string Breaker) :
  failures (breakerOf key st) = 0 ->
  state (breakerOf key st) = CLOSED ->
  let b := breakerOf key (recordFailures cfg key times st) in
  failures b = Z.of_nat (length times)
  /\ (Z.of_nat (length times) < circuitBreakerThreshold cfg -> state b = CLOSED)
  /\ (times <> [] -> circuitBreakerThreshold cfg <= Z.of_nat (length times) ->
      state b = OPEN).
Proof.
  intros Hf Hs. induction times as [|t times IH] using rev_ind; simpl.
  - rewrite Hf, Hs. by repeat split.
  - destruct IH as (IHf & IHc & _).
    rewrite recordFailures_snoc, breakerOf_recordFailure, length_app. simpl.
    rewrite IHf.
    replace (Z.of_nat (length times + 1)) with (Z.of_nat (length times) + 1) by lia.
    split; [done|].
    destruct (Z.of_nat (length times) + 1 >=? circuitBreakerThreshold cfg) eqn:E.
    + split; [lia | done].
    + split; [intros _; apply IHc; lia | lia].
Qed.

End BreakerFacts.

Module BreakerClaims.
Import Js Types Runtime ErrorHandler RetryManager Observe BreakerFacts.

(** C5. With a threshold of 5, for every key whose breaker is closed with
    no failure counted (a key without an entry, or one just reset): after
    [n] failures recorded in a row the count is [n]; the breaker is still
    closed, so not open, after 1 to 4 of them and it is open once the 5th
    is recorded; breakers of other keys are not touched. And whatever the
    table, one recorded success leaves the key with a count of 0 and the
    state closed. *)
Theorem C5_breaker_opens_at_fifth_failure cfg key (st : gmap string Breaker)
    (times : list Z) :
  circuitBreakerThreshold cfg = 5 ->
  failures (breakerOf key st) = 0 ->
  state (breakerOf key st) = CLOSED ->
  let b := breakerOf key (recordFailures cfg key times st) in
  failures b = Z.of_nat (length times)
  /\ ((length times < 5)%nat -> state b = CLOSED)
  /\ ((5 <= length times)%nat -> state b = OPEN)
  /\ (state b = OPEN <-> (5 <= length times)%nat)
  /\ (forall other, other <> key ->
        recordFailures cfg key times st !! other = st !! other)
  /\ (forall anySt : gmap string Breaker,
        failures (breakerOf key (resetCircuitBreaker key anySt)) = 0
        /\ state (breakerOf key (resetCircuitBreaker key anySt)) = CLOSED
        /\ (forall entry, anySt !! key = Some entry ->
              getCircuitBreakerStatus key (resetCircuitBreaker key anySt)
              = Some {| failures := 0;
                        lastFailureTime := lastFailureTime entry;
                        state := CLOSED |})).
Proof.
  intros Hthr Hf Hs b.
  destruct (recordFailures_count cfg key times st Hf Hs) as (Hcount & Hclosed & Hopen).
  fold b in Hcount, Hclosed, Hopen. rewrite Hthr in Hclosed, Hopen.
  assert (Hlt : (length times < 5)%nat -> state b = CLOSED) by (intros; apply Hclosed; lia).
  assert (Hge : (5 <= length times)%nat -> state b = OPEN).
  { intros H. apply Hopen; [|lia]. intros ->. simpl in H. lia. }
  split; [done|]. split; [done|]. split; [done|]. split.
  - split; [|done]. intros Ho.
    destruct (Nat.lt_ge_cases (length times) 5) as [Hl|Hl]; [|done].
    rewrite (Hlt Hl) in Ho. discriminate.
  - split.
    + intros other Hne. clear -Hne.
      induction times as [|t times IH] using rev_ind; [done|].
      rewrite recordFailures_snoc, recordFailure_other; [exact IH | done].
    + intros anySt.
      destruct (breakerOf_resetCircuitBreaker key anySt) as [Hz Hcl].
      split; [done|]. split; [done|].
      intros entry Hentry. unfold getCircuitBreakerStatus, resetCircuitBreaker.
      by rewrite Hentry, lookup_insert_eq.
Qed.

Lemma C5_breaker_opens_at_fifth_failure_witness :
  let st4 := recordFailures createRetryManager "extract_{}" [10; 20; 30; 40] ∅ in
  let st5 := recordFailures createRetryManager "extract_{}" [10; 20; 30; 40; 50] ∅ in
  circuitBreakerThreshold createRetryManager = 5
  /\ state (breakerOf "extract_{}" st4) = CLOSED
  /\ state (breakerOf "extract_{}" st5) = OPEN
  /\ failures (breakerOf "extract_{}" (resetCircuitBreaker "extract_{}" st5)) = 0.
Proof.
  intros st4 st5. split; [reflexivity|].
  pose proof (C5_breaker_opens_at_fifth_failure createRetryManager "extract_{}" ∅
                [10; 20; 30; 40] eq_refl eq_refl eq_refl) as (_ & H4 & _).
  pose proof (C5_breaker_opens_at_fifth_failure createRetryManager "extract_{}" ∅
                [10; 20; 30; 40; 50] eq_refl eq_refl eq_refl) as (_ & _ & H5 & _ & _ & Hr).
  split; [apply H4; simpl; lia|]. split; [apply H5; simpl; lia|].
  destruct (Hr st5) as [Hz _]. exact Hz.
Defined.

End BreakerClaims.

(** ** The retry loop *)

Module RetryFacts.
Import Js Types Runtime ErrorHandler RetryManager Observe BreakerFacts.

Lemma handleError_shouldRetry cfg o m command params retryCount e :
  res_shouldRetry (fst (handleError cfg o m command params retryCount e))
  = shouldRetry (extractErrorCode m) retryCount (getRetryStrategy cfg command).
Proof. unfold handleError. by destruct (shouldRetry _ _ _). Qed.

Lemma handleError_env cfg o m command params retryCount e :
  let e' := snd (handleError cfg o m command params retryCount e) in
  calls e' = calls e /\ now e' = now e.
Proof. unfold handleError. by destruct (shouldRetry _ _ _). Qed.

Lemma handleError_gives_up cfg o m command params retryCount e :
  shouldRetry (extractErrorCode m) retryCount (getRetryStrategy cfg command) = false ->
  snd (handleError cfg o m command params retryCount e) = e.
Proof. intros H. unfold handleError. by rewrite H. Qed.

Section Loop.
Variables (cfg : RetryManagerConfig) (o : Oracle) (command : string)
          (params : option JSON) (key : string).

Let strategy := getRetryStrategy (errorHandler cfg) command.

Lemma retryLoop_resolves fuel retryCount st e v :
  attempt o (calls e) = Resolves v ->
  retryLoop (S fuel) cfg o command params key retryCount st e
  = (Returns v, resetCircuitBreaker key st, snd (invoke o e)).
Proof. intros H. simpl. by rewrite H. Qed.

Lemma retryLoop_gives_up fuel retryCount st e m :
  attempt o (calls e) = Rejects m ->
  shouldRetry (extractErrorCode m) retryCount strategy = false ->
  retryLoop (S fuel) cfg o command params key retryCount st e
  = (Throws m,
     recordFailure cfg key (now (snd (invoke o e))) st,
     snd (invoke o e)).
Proof.
  intros Hm Hno. simpl. rewrite Hm.
  pose proof (handleError_shouldRetry (errorHandler cfg) o m command params
                retryCount (snd (invoke o e))) as Hs.
  pose proof (handleError_gives_up (errorHandler cfg) o m command params
                retryCount (snd (invoke o e)) Hno) as He.
  destruct (handleError _ _ _ _ _ _ _) as [errorResult e2]. simpl in *.
  subst e2. rewrite Hs. fold strategy. by rewrite Hno.
Qed.

Lemma retryLoop_retries fuel retryCount st e m :
  attempt o (calls e) = Rejects m ->
  shouldRetry (extractErrorCode m) retryCount strategy = true ->
  exists e3,
    retryLoop (S fuel) cfg o command params key retryCount st e
    = retryLoop fuel cfg o command params key (S retryCount) st e3
    /\ calls e3 = S (calls e).
Proof.
  intros Hm Hyes. simpl. rewrite Hm.
  pose proof (handleError_shouldRetry (errorHandler cfg) o m command params
                retryCount (snd (invoke o e))) as Hs.
  pose proof (handleError_env (errorHandler cfg) o m command params
                retryCount (snd (invoke o e))) as [Hc _].
  destruct (handleError _ _ _ _ _ _ _) as [errorResult e2]. simpl in *.
  rewrite Hs. fold strategy. rewrite Hyes. simpl.
  eexists. split; [reflexivity|].
  destruct (res_delay errorResult) as [d|]; [destruct (Number.toBoolean d)|]; simpl; exact Hc.
Qed.

(** With a bound above the retries the strategy still allows, the loop
    has left: it returned or it threw. *)
Lemma retryLoop_finishes fuel : forall retryCount st e,
  (Z.to_nat (maxRetries strategy - Z.of_nat retryCount) < fuel)%nat ->
  fst (fst (retryLoop fuel cfg o command params key retryCount st e)) <> Unfinished.
Proof.
  induction fuel as [|fuel IH]; intros retryCount st e Hfuel; [lia|].
  destruct (attempt o (calls e)) as [v|m] eqn:Ha.
  - by rewrite (retryLoop_resolves _ _ _ _ v Ha).
  - destruct (shouldRetry (extractErrorCode m) retryCount strategy) eqn:Hs.
    + destruct (retryLoop_retries fuel retryCount st e m Ha Hs) as (e3 & -> & _).
      apply IH. unfold shouldRetry in Hs.
      destruct (Z.of_nat retryCount >=? maxRetries strategy) eqn:E; [done|]. lia.
    + by rewrite (retryLoop_gives_up _ _ _ _ m Ha Hs).
Qed.

(** When every attempt fails the loop ends by recording one failure and
    throwing the error of the last attempt it made. *)
Lemma retryLoop_all_fail fuel : forall retryCount st e,
  (forall i, exists m, attempt o i = Rejects m) ->
  (Z.to_nat (maxRetries strategy - Z.of_nat retryCount) < fuel)%nat ->
  exists m e',
    retryLoop fuel cfg o command params key retryCount st e
    = (Throws m, recordFailure cfg key (now e') st, e')
    /\ (calls e < calls e')%nat
    /\ attempt o (pred (calls e')) = Rejects m.
Proof.
  induction fuel as [|fuel IH]; intros retryCount st e Hall Hfuel; [lia|].
  destruct (Hall (calls e)) as [m Ha].
  destruct (shouldRetry (extractErrorCode m) retryCount strategy) eqn:Hs.
  - destruct (retryLoop_retries fuel retryCount st e m Ha Hs) as (e3 & -> & Hc).
    destruct (IH (S retryCount) st e3 Hall) as (m' & e' & Hr & Hlt & Hlast).
    { unfold shouldRetry in Hs.
      destruct (Z.of_nat retryCount >=? maxRetries strategy) eqn:E; [done|]. lia. }
    exists m', e'. split; [done|]. split; [lia | done].
  - rewrite (retryLoop_gives_up _ _ _ _ m Ha Hs).
    exists m, (snd (invoke o e)). split; [done|]. simpl. split; [lia | done].
Qed.

(** When every attempt fails with an error the strategy retries, the
    loop makes one attempt for each retry that is left and one more. *)
Lemma retryLoop_all_retryable k : forall retryCount st e,
  (forall i, exists m, attempt o i = Rejects m
                       /\ extractErrorCode m ∈ retryableErrors strategy) ->
  Z.of_nat retryCount + Z.of_nat k = maxRetries strategy ->
  exists m e',
    retryLoop (S k) cfg o command params key retryCount st e
    = (Throws m, recordFailure cfg key (now e') st, e')
    /\ calls e' = (calls e + S k)%nat
    /\ attempt o (calls e + k) = Rejects m.
Proof.
  induction k as [|k IH]; intros retryCount st e Hall Hk;
    destruct (Hall (calls e)) as (m & Ha & Hin).
  - rewrite (retryLoop_gives_up 0 retryCount st e m Ha).
    + exists m, (snd (invoke o e)). simpl. rewrite Nat.add_0_r.
      split; [done|]. split; [lia | done].
    + unfold shouldRetry.
      destruct (Z.of_nat retryCount >=? maxRetries strategy) eqn:E; [done|]. lia.
  - assert (Hs : shouldRetry (extractErrorCode m) retryCount strategy = true).
    { unfold shouldRetry.
      destruct (Z.of_nat retryCount >=? maxRetries strategy) eqn:E; [lia|].
      by apply bool_decide_eq_true. }
    destruct (retryLoop_retries (S k) retryCount st e m Ha Hs) as (e3 & -> & Hc).
    destruct (IH (S retryCount) st e3 Hall) as (m' & e' & Hr & Hcalls & Hlast); [lia|].
    exists m', e'. split; [done|]. rewrite Hc in Hcalls, Hlast.
    split; [lia|]. by replace (calls e + S k)%nat with (S (calls e) + k)%nat by lia.
Qed.

(** The same, with the attempts told apart: the failure is recorded with
    the time at which the loop gives up, the attempt it gives up at is the
    first the strategy does not retry, and every attempt before it was
    retried. *)
Lemma retryLoop_all_fail_trace fuel : forall retryCount st e,
  (forall i, exists m, attempt o i = Rejects m) ->
  (Z.to_nat (maxRetries strategy - Z.of_nat retryCount) < fuel)%nat ->
  exists m e',
    retryLoop fuel cfg o command params key retryCount st e
    = (Throws m, recordFailure cfg key (now e') st, e')
    /\ (calls e < calls e')%nat
    /\ attempt o (pred (calls e')) = Rejects m
    /\ shouldRetry (extractErrorCode m)
         (retryCount + (calls e' - calls e - 1)) strategy = false
    /\ (forall i, (calls e <= i < pred (calls e'))%nat ->
          exists mi, attempt o i = Rejects mi
                     /\ shouldRetry (extractErrorCode mi)
                          (retryCount + (i - calls e)) strategy = true).
Proof.
  induction fuel as [|fuel IH]; intros retryCount st e Hall Hfuel; [lia|].
  destruct (Hall (calls e)) as [m Ha].
  destruct (shouldRetry (extractErrorCode m) retryCount strategy) eqn:Hs.
  - destruct (retryLoop_retries fuel retryCount st e m Ha Hs) as (e3 & -> & Hc).
    destruct (IH (S retryCount) st e3 Hall) as (m' & e' & Hr & Hlt & Hlast & Hgive & Hbefore).
    { unfold shouldRetry in Hs.
      destruct (Z.of_nat retryCount >=? maxRetries strategy) eqn:E; [done|]. lia. }
    exists m', e'. split; [done|]. split; [lia|]. split; [done|]. split.
    + by replace (retryCount + (calls e' - calls e - 1))%nat
        with (S retryCount + (calls e' - calls e3 - 1))%nat by lia.
    + intros i Hi. destruct (decide (i = calls e)) as [->|Hne].
      * exists m. split; [done|].
        by replace (retryCount + (calls e - calls e))%nat with retryCount by lia.
      * destruct (Hbefore i ltac:(lia)) as (mi & Hmi & Hsi). exists mi. split; [done|].
        by replace (retryCount + (i - calls e))%nat
          with (S retryCount + (i - calls e3))%nat by lia.
  - rewrite (retryLoop_gives_up _ _ _ _ m Ha Hs).
    exists m, (snd (invoke o e)). split; [done|]. simpl. split; [lia|]. split; [done|].
    split.
    + by replace (retryCount + (S (calls e) - calls e - 1))%nat with retryCount by lia.
    + intros i Hi. lia.
Qed.

(** [k] failures the strategy retries, then one it does not retry. *)
Lemma retryLoop_gives_up_after k : forall fuel retryCount st e m,
  (k < fuel)%nat ->
  (forall i, (i < k)%nat ->
     exists mi, attempt o (calls e + i) = Rejects mi
                /\ shouldRetry (extractErrorCode mi) (retryCount + i) strategy = true) ->
  attempt o (calls e + k) = Rejects m ->
  shouldRetry (extractErrorCode m) (retryCount + k) strategy = false ->
  exists e',
    retryLoop fuel cfg o command params key retryCount st e
    = (Throws m, recordFailure cfg key (now e') st, e')
    /\ calls e' = (calls e + S k)%nat.
Proof.
  induction k as [|k IH]; intros fuel retryCount st e m Hfuel Hfail Hlast Hno;
    (destruct fuel as [|fuel]; [lia|]).
  - rewrite Nat.add_0_r in Hlast, Hno.
    rewrite (retryLoop_gives_up _ _ _ _ m Hlast Hno).
    eexists. split; [reflexivity|]. simpl. lia.
  - destruct (Hfail 0%nat) as (m0 & Ha & Hs); [lia|]. rewrite Nat.add_0_r in Ha, Hs.
    destruct (retryLoop_retries fuel retryCount st e m0 Ha Hs) as (e3 & -> & Hc).
    destruct (IH fuel (S retryCount) st e3 m) as (e' & Hr & Hcalls).
    + lia.
    + intros i Hi. rewrite Hc.
      replace (S (calls e) + i)%nat with (calls e + S i)%nat by lia.
      replace (S retryCount + i)%nat with (retryCount + S i)%nat by lia.
      apply Hfail. lia.
    + rewrite Hc. by replace (S (calls e) + k)%nat with (calls e + S k)%nat by lia.
    + by replace (S retryCount + k)%nat with (retryCount + S k)%nat by lia.
    + exists e'. split; [done|]. lia.
Qed.

(** A loop that has left within its bound gives the same answer under any
    larger bound: the bound does not show in the result. *)
Lemma retryLoop_bound_irrelevant fuel : forall extra retryCount st e,
  fst (fst (retryLoop fuel cfg o command params key retryCount st e)) <> Unfinished ->
  retryLoop (fuel + extra) cfg o command params key retryCount st e
  = retryLoop fuel cfg o command params key retryCount st e.
Proof.
  induction fuel as [|fuel IH]; intros extra retryCount st e Hfin; [done|].
  change (S fuel + extra)%nat with (S (fuel + extra)).
  revert Hfin. cbn [retryLoop].
  destruct (invoke o e) as [[v|m] e1]; [done|].
  destruct (handleError _ _ _ _ _ _ _) as [errorResult e2].
  destruct (negb (res_shouldRetry errorResult)); [done|].
  intros Hfin. by apply IH.
Qed.

(** The loop only ever adds invocations, and a loop that runs at all
    invokes the operation. *)
Lemma retryLoop_calls_le fuel : forall retryCount st e,
  (calls e <= calls (snd (retryLoop fuel cfg o command params key retryCount st e)))%nat.
Proof.
  induction fuel as [|fuel IH]; intros retryCount st e; [simpl; lia|].
  destruct (attempt o (calls e)) as [v|m] eqn:Ha.
  - rewrite (retryLoop_resolves _ _ _ _ v Ha). simpl. lia.
  - destruct (shouldRetry (extractErrorCode m) retryCount strategy) eqn:Hs.
    + destruct (retryLoop_retries fuel retryCount st e m Ha Hs) as (e3 & -> & Hc).
      specialize (IH (S retryCount) st e3). lia.
    + rewrite (retryLoop_gives_up _ _ _ _ m Ha Hs). simpl. lia.
Qed.

Lemma retryLoop_invokes fuel retryCount st e :
  (calls e < calls (snd (retryLoop (S fuel) cfg o command params key retryCount st e)))%nat.
Proof.
  destruct (attempt o (calls e)) as [v|m] eqn:Ha.
  - rewrite (retryLoop_resolves _ _ _ _ v Ha). simpl. lia.
  - destruct (shouldRetry (extractErrorCode m) retryCount strategy) eqn:Hs.
    + destruct (retryLoop_retries fuel retryCount st e m Ha Hs) as (e3 & -> & Hc).
      pose proof (retryLoop_calls_le fuel (S retryCount) st e3). lia.
    + rewrite (retryLoop_gives_up _ _ _ _ m Ha Hs). simpl. lia.
Qed.

End Loop.

End RetryFacts.

Module RetryClaims.
Import Js Types Runtime ErrorHandler RetryManager Observe Examples.
Import BreakerFacts RetryFacts.

Section WithSerializer.
Variable JSON_stringify : JSON -> string.

Local Abbreviation keyOf := (circuitBreakerKey JSON_stringify).
Local Abbreviation execute := (executeWithRetry JSON_stringify).

(** The check at the head of [executeWithRetry], when it lets the call
    through, leaves every failure count as it was. *)
Lemma isCircuitBreakerOpen_count cfg key nowMs (st : gmap string Breaker) :
  let st1 := snd (isCircuitBreakerOpen cfg key nowMs st) in
  failures (breakerOf key st1) = failures (breakerOf key st)
  /\ forall other, other <> key -> st1 !! other = st !! other.
Proof.
  unfold isCircuitBreakerOpen, breakerOf.
  destruct (st !! key) as [b|] eqn:E; simpl; [|by rewrite E].
  destruct (state b); simpl; try by rewrite E.
  destruct (nowMs - lastFailureTime b >? circuitBreakerTimeout cfg); simpl.
  - rewrite lookup_insert_eq. split; [done|].
    intros other Hne. by rewrite lookup_insert_ne.
  - by rewrite E.
Qed.

(** [executeWithRetry] always completes: it returns or it throws. *)
Lemma executeWithRetry_finishes cfg o command params st e :
  fst (fst (execute cfg o command params st e)) <> Unfinished.
Proof.
  unfold executeWithRetry.
  destruct (isCircuitBreakerOpen _ _ _ _) as [[|] st1]; [done|].
  apply retryLoop_finishes. unfold attemptBound. lia.
Qed.

(** C4. If the breaker of the command's key is open and no more than
    the cooldown has passed since its last failure, [executeWithRetry]
    throws the circuit-open error, and it returns the breaker table and
    the environment it was given: the operation was not invoked and no
    failure was recorded. *)
Theorem C4_open_breaker_short_circuits cfg o command params
    (st : gmap string Breaker) e b :
  st !! keyOf command params = Some b ->
  state b = OPEN ->
  now e - lastFailureTime b <= circuitBreakerTimeout cfg ->
  execute cfg o command params st e
  = (Throws ("Circuit breaker is open for command: " ++ command), st, e)
  /\ calls (snd (execute cfg o command params st e)) = calls e
  /\ getCircuitBreakerStatus (keyOf command params)
       (snd (fst (execute cfg o command params st e))) = Some b.
Proof.
  intros Hb Hopen Hcool.
  assert (H : execute cfg o command params st e
              = (Throws ("Circuit breaker is open for command: " ++ command), st, e)).
  { unfold executeWithRetry, isCircuitBreakerOpen. rewrite Hb, Hopen.
    destruct (now e - lastFailureTime b >? circuitBreakerTimeout cfg) eqn:E; [lia|].
    reflexivity. }
  rewrite H. by repeat split.
Qed.

(** C6. For every call of [executeWithRetry] that is not short-circuited
    and in which every attempt of the operation fails: the call throws
    the error of the last attempt it made, it made at least one attempt,
    and the failure count of the command's key is one more than before
    the call, whatever the number of attempts; the breakers of other keys
    are as before. The failure is recorded when the loop gives up, and
    only then: the table returned is the table the check at the head of
    the call left, with one failure recorded for the key at the time the
    call ends; the attempt the call ends with is one the strategy does not
    retry (the budget is used up or the code is not retryable), every
    attempt before it was retried, and an attempt that is retried hands the
    table to the next iteration as it received it. *)
Theorem C6_one_failure_per_invocation cfg o command params
    (st : gmap string Breaker) e :
  (forall i, exists m, attempt o i = Rejects m) ->
  fst (isCircuitBreakerOpen cfg (keyOf command params) (now e) st) = false ->
  let strategy := getRetryStrategy (errorHandler cfg) command in
  exists m st' e',
    execute cfg o command params st e = (Throws m, st', e')
    /\ failures (breakerOf (keyOf command params) st')
       = failures (breakerOf (keyOf command params) st) + 1
    /\ (calls e < calls e')%nat
    /\ attempt o (pred (calls e')) = Rejects m
    /\ (forall other, other <> keyOf command params -> st' !! other = st !! other)
    /\ st' = recordFailure cfg (keyOf command params) (now e')
               (snd (isCircuitBreakerOpen cfg (keyOf command params) (now e) st))
    /\ lastFailureTime (breakerOf (keyOf command params) st') = now e'
    /\ shouldRetry (extractErrorCode m) (calls e' - calls e - 1) strategy = false
    /\ (forall i, (calls e <= i < pred (calls e'))%nat ->
          exists mi, attempt o i = Rejects mi
                     /\ shouldRetry (extractErrorCode mi) (i - calls e) strategy = true)
    /\ (forall fuel key retryCount (table : gmap string Breaker) env mi,
          attempt o (calls env) = Rejects mi ->
          shouldRetry (extractErrorCode mi) retryCount strategy = true ->
          exists env',
            retryLoop (S fuel) cfg o command params key retryCount table env
            = retryLoop fuel cfg o command params key (S retryCount) table env'
            /\ calls env' = S (calls env)).
Proof.
  intros Hall Hclosed strategy. unfold executeWithRetry.
  pose proof (isCircuitBreakerOpen_count cfg (keyOf command params) (now e) st)
    as [Hcount Hother].
  destruct (isCircuitBreakerOpen _ _ _ _) as [isOpen st1]. simpl in *. subst isOpen.
  destruct (retryLoop_all_fail_trace cfg o command params (keyOf command params)
              (attemptBound cfg command) 0 st1 e Hall)
    as (m & e' & Hr & Hlt & Hlast & Hgive & Hbefore); [unfold attemptBound; lia|].
  exists m, (recordFailure cfg (keyOf command params) (now e') st1), e'.
  split; [done|]. split.
  { rewrite breakerOf_recordFailure. simpl. by rewrite Hcount. }
  split; [done|]. split; [done|]. split.
  { intros other Hne. rewrite recordFailure_other; [by apply Hother | done]. }
  split; [done|]. split.
  { by rewrite breakerOf_recordFailure. }
  split; [exact Hgive|]. split; [exact Hbefore|].
  intros fuel key retryCount table env mi Ha Hs.
  by apply retryLoop_retries with (m := mi).
Qed.

End WithSerializer.

Lemma C4_open_breaker_short_circuits_witness :
  let st5 := recordFailures createRetryManager "extract_{}" [10; 20; 30; 40; 50] ∅ in
  executeWithRetry compact createRetryManager alwaysTimesOut "extract" (Some (JObj []))
    st5 {| now := 60050; calls := 0; draws := 0 |}
  = (Throws "Circuit breaker is open for command: extract", st5,
     {| now := 60050; calls := 0; draws := 0 |}).
Proof.
  intros st5.
  apply (C4_open_breaker_short_circuits compact createRetryManager alwaysTimesOut
           "extract" (Some (JObj [])) st5 {| now := 60050; calls := 0; draws := 0 |}
           {| failures := 5; lastFailureTime := 50; state := OPEN |}).
  - reflexivity.
  - reflexivity.
  - simpl. lia.
Defined.

Lemma C6_one_failure_per_invocation_witness :
  exists m st' e',
    executeWithRetry compact createRetryManager alwaysTimesOut "navigate"
      (Some (JObj [])) ∅ startEnv = (Throws m, st', e')
    /\ failures (breakerOf "navigate_{}" st') = 1
    /\ lastFailureTime (breakerOf "navigate_{}" st') = now e'
    /\ calls e' = 4%nat
    /\ now e' = 127350.
Proof.
  destruct (C6_one_failure_per_invocation compact createRetryManager alwaysTimesOut
              "navigate" (Some (JObj [])) ∅ startEnv)
    as (m & st' & e' & Hr & Hf & _ & _ & _ & _ & Ht & _).
  - intros i. exists "Command timeout". reflexivity.
  - reflexivity.
  - exists m, st', e'. split; [exact Hr|]. split; [exact Hf|]. split; [exact Ht|].
    vm_compute in Hr. injection Hr as _ _ <-. split; reflexivity.
Defined.

End RetryClaims.

(** ** Which errors are retried *)

Module CategoryClaims.
Import Js Types Runtime ErrorHandler RetryManager Observe Examples.
Import BreakerFacts RetryFacts RetryClaims.

(** The retryable codes every shipped default strategy lists are exactly
    the codes of the NETWORK, SELECTOR and TIMEOUT categories. *)
Lemma defaultRetryableErrors_categories code :
  code ∈ defaultRetryableErrors
  <-> categorizeError code = ErrorCategory.NETWORK
      \/ categorizeError code = ErrorCategory.SELECTOR
      \/ categorizeError code = ErrorCategory.TIMEOUT.
Proof.
  unfold defaultRetryableErrors. split.
  - intros H. repeat (apply elem_of_cons in H as [->|H]); simpl; auto.
    by apply elem_of_nil in H.
  - destruct code; simpl; intros [H|[H|H]]; try discriminate H;
      repeat (first [apply list_elem_of_here | apply list_elem_of_further]).
Qed.

(** [createRetryManager] gives every command the same strategy. *)
Lemma createRetryManager_strategy command :
  getRetryStrategy (errorHandler createRetryManager) command
  = {| maxRetries := 3; baseDelay := 1000; maxDelay := 10000;
       backoffMultiplier := 2; retryableErrors := defaultRetryableErrors |}.
Proof. unfold getRetryStrategy. simpl. by rewrite lookup_empty. Qed.

(** In [createDefaultErrorHandlerConfig] too, no strategy of any command
    lists a code of the VALIDATION or PERMISSION category. *)
Lemma createDefaultErrorHandlerConfig_never_retries command code retryCount :
  categorizeError code = ErrorCategory.VALIDATION
  \/ categorizeError code = ErrorCategory.PERMISSION ->
  shouldRetry code retryCount
    (getRetryStrategy createDefaultErrorHandlerConfig command) = false.
Proof.
  intros Hcat. unfold shouldRetry, getRetryStrategy. simpl.
  destruct (decide (command = "navigate")) as [->|H1];
    [|rewrite lookup_insert_ne by done;
      destruct (decide (command = "click")) as [->|H2];
      [|rewrite lookup_insert_ne by done;
        destruct (decide (command = "extract")) as [->|H3];
        [|rewrite lookup_insert_ne by done; rewrite lookup_empty]]];
    rewrite ?lookup_insert_eq; simpl;
    match goal with |- (if ?c then _ else _) = _ => destruct c end; try done;
    destruct code; simpl in Hcat; destruct Hcat as [Hcat|Hcat];
    try discriminate Hcat; reflexivity.
Qed.

Section WithSerializer.
Variable JSON_stringify : JSON -> string.

Local Abbreviation keyOf := (circuitBreakerKey JSON_stringify).
Local Abbreviation execute := (executeWithRetry JSON_stringify).

(** C9. For every command whose strategy lists the retryable codes the
    repository ships by default, whatever its retry budget, and every
    call that is not short-circuited:
    - a code of the VALIDATION or PERMISSION category is never retried,
      and a code of the NETWORK, SELECTOR or TIMEOUT category is retried
      exactly while the retry count is below [maxRetries];
    - if the first attempt fails with an error of the VALIDATION or
      PERMISSION category, the operation is invoked once and that error
      is thrown;
    - if every attempt fails with an error of the NETWORK, SELECTOR or
      TIMEOUT category, the operation is invoked [maxRetries + 1] times
      and the error of the last attempt is thrown;
    - an error of the VALIDATION or PERMISSION category ends the call at
      whichever attempt it comes: if the first [k] attempts fail with
      errors of the NETWORK, SELECTOR or TIMEOUT category, [k] being within
      the budget, and the next attempt fails with an error of the
      VALIDATION or PERMISSION category, the operation is invoked [k + 1]
      times, that error is thrown and one failure is recorded. *)
Theorem C9_retry_by_category cfg o command params (st : gmap string Breaker) e :
  let strategy := getRetryStrategy (errorHandler cfg) command in
  retryableErrors strategy = defaultRetryableErrors ->
  fst (isCircuitBreakerOpen cfg (keyOf command params) (now e) st) = false ->
  (forall code retryCount,
     categorizeError code = ErrorCategory.VALIDATION
     \/ categorizeError code = ErrorCategory.PERMISSION ->
     shouldRetry code retryCount strategy = false)
  /\ (forall code retryCount,
        categorizeError code = ErrorCategory.NETWORK
        \/ categorizeError code = ErrorCategory.SELECTOR
        \/ categorizeError code = ErrorCategory.TIMEOUT ->
        shouldRetry code retryCount strategy
        = (Z.of_nat retryCount <? maxRetries strategy)%Z)
  /\ (forall m,
        attempt o (calls e) = Rejects m ->
        categorizeError (extractErrorCode m) = ErrorCategory.VALIDATION
        \/ categorizeError (extractErrorCode m) = ErrorCategory.PERMISSION ->
        exists st' e',
          execute cfg o command params st e = (Throws m, st', e')
          /\ calls e' = S (calls e))
  /\ ((forall i, exists m,
          attempt o i = Rejects m
          /\ (categorizeError (extractErrorCode m) = ErrorCategory.NETWORK
              \/ categorizeError (extractErrorCode m) = ErrorCategory.SELECTOR
              \/ categorizeError (extractErrorCode m) = ErrorCategory.TIMEOUT)) ->
      0 <= maxRetries strategy ->
      exists m st' e',
        execute cfg o command params st e = (Throws m, st', e')
        /\ calls e' = (calls e + S (Z.to_nat (maxRetries strategy)))%nat
        /\ attempt o (calls e + Z.to_nat (maxRetries strategy)) = Rejects m)
  /\ (forall (k : nat) m,
        Z.of_nat k <= maxRetries strategy ->
        (forall i, (i < k)%nat ->
           exists mi,
             attempt o (calls e + i) = Rejects mi
             /\ (categorizeError (extractErrorCode mi) = ErrorCategory.NETWORK
                 \/ categorizeError (extractErrorCode mi) = ErrorCategory.SELECTOR
                 \/ categorizeError (extractErrorCode mi) = ErrorCategory.TIMEOUT)) ->
        attempt o (calls e + k) = Rejects m ->
        categorizeError (extractErrorCode m) = ErrorCategory.VALIDATION
        \/ categorizeError (extractErrorCode m) = ErrorCategory.PERMISSION ->
        exists st' e',
          execute cfg o command params st e = (Throws m, st', e')
          /\ calls e' = (calls e + S k)%nat
          /\ failures (breakerOf (keyOf command params) st')
             = failures (breakerOf (keyOf command params) st) + 1).
Proof.
  intros strategy Hlist Hclosed.
  assert (Hnever : forall code retryCount,
             categorizeError code = ErrorCategory.VALIDATION
             \/ categorizeError code = ErrorCategory.PERMISSION ->
             shouldRetry code retryCount strategy = false).
  { intros code retryCount Hcat. unfold shouldRetry. rewrite Hlist.
    destruct (Z.of_nat retryCount >=? maxRetries strategy); [done|].
    apply bool_decide_eq_false. rewrite defaultRetryableErrors_categories.
    intros [H|[H|H]]; destruct Hcat as [Hc|Hc]; congruence. }
  assert (Hwhile : forall code retryCount,
             categorizeError code = ErrorCategory.NETWORK
             \/ categorizeError code = ErrorCategory.SELECTOR
             \/ categorizeError code = ErrorCategory.TIMEOUT ->
             shouldRetry code retryCount strategy
             = (Z.of_nat retryCount <? maxRetries strategy)%Z).
  { intros code retryCount Hcat. unfold shouldRetry. rewrite Hlist.
    destruct (Z.of_nat retryCount >=? maxRetries strategy) eqn:E.
    - symmetry. apply Z.ltb_ge. lia.
    - rewrite bool_decide_eq_true_2 by (by apply defaultRetryableErrors_categories).
      symmetry. apply Z.ltb_lt. lia. }
  split; [exact Hnever|]. split; [exact Hwhile|].
  unfold executeWithRetry.
  pose proof (isCircuitBreakerOpen_count cfg (keyOf command params) (now e) st)
    as [Hcount _].
  destruct (isCircuitBreakerOpen _ _ _ _) as [isOpen st1]. simpl in Hclosed, Hcount.
  subst isOpen. split; [|split].
  - intros m Ha Hcat. unfold attemptBound.
    rewrite (retryLoop_gives_up cfg o command params _ _ 0 st1 e m Ha (Hnever _ _ Hcat)).
    by eexists _, _.
  - intros Hall Hbudget.
    destruct (retryLoop_all_retryable cfg o command params (keyOf command params)
                (Z.to_nat (maxRetries strategy)) 0 st1 e)
      as (m & e' & Hr & Hcalls & Hlast).
    + intros i. destruct (Hall i) as (m & Ha & Hcat). exists m. split; [done|].
      fold strategy. rewrite Hlist. by apply defaultRetryableErrors_categories.
    + fold strategy. lia.
    + exists m, (recordFailure cfg (keyOf command params) (now e') st1), e'.
      by repeat split.
  - intros k m Hk Hfirst Hlast Hcat.
    destruct (retryLoop_gives_up_after cfg o command params (keyOf command params) k
                (attemptBound cfg command) 0 st1 e m) as (e' & Hr & Hcalls).
    + unfold attemptBound. fold strategy. lia.
    + intros i Hi. destruct (Hfirst i Hi) as (mi & Ha & Hc). exists mi. split; [done|].
      fold strategy. rewrite (Hwhile _ _ Hc). apply Z.ltb_lt. lia.
    + exact Hlast.
    + apply Hnever, Hcat.
    + exists (recordFailure cfg (keyOf command params) (now e') st1), e'.
      split; [done|]. split; [done|].
      rewrite breakerOf_recordFailure. simpl. by rewrite Hcount.
Qed.

End WithSerializer.

Lemma C9_retry_by_category_witness :
  (exists st' e',
     executeWithRetry compact createRetryManager alwaysInvalidUrl "click"
       (Some (JObj [])) ∅ startEnv = (Throws "Invalid URL", st', e')
     /\ calls e' = 1%nat)
  /\ (exists m st' e',
        executeWithRetry compact createRetryManager alwaysTimesOut "click"
          (Some (JObj [])) ∅ startEnv = (Throws m, st', e')
        /\ calls e' = 4%nat)
  /\ (exists st' e',
        executeWithRetry compact createRetryManager failsThenInvalid "click"
          (Some (JObj [])) ∅ startEnv = (Throws "Invalid URL", st', e')
        /\ calls e' = 3%nat).
Proof.
  pose proof (C9_retry_by_category compact createRetryManager alwaysInvalidUrl "click"
                (Some (JObj [])) ∅ startEnv eq_refl eq_refl) as (_ & _ & Hv & _).
  pose proof (C9_retry_by_category compact createRetryManager alwaysTimesOut "click"
                (Some (JObj [])) ∅ startEnv eq_refl eq_refl) as (_ & _ & _ & Ht & _).
  pose proof (C9_retry_by_category compact createRetryManager failsThenInvalid "click"
                (Some (JObj [])) ∅ startEnv eq_refl eq_refl) as (_ & _ & _ & _ & Hk).
  split; [|split].
  - apply (Hv "Invalid URL"); [reflexivity | left; reflexivity].
  - destruct Ht as (m & st' & e' & Hr & Hcalls & _); [|by vm_compute|].
    + intros i. exists "Command timeout".
      split; [reflexivity | right; right; reflexivity].
    + exists m, st', e'. split; [exact Hr | exact Hcalls].
  - destruct (Hk 2%nat "Invalid URL") as (st' & e' & Hr & Hcalls & _).
    + by vm_compute.
    + intros i Hi. exists "Network error". split.
      * simpl. destruct i as [|[|i]]; [reflexivity | reflexivity | lia].
      * left. reflexivity.
    + reflexivity.
    + left. reflexivity.
    + exists st', e'. split; [exact Hr | exact Hcalls].
Defined.

End CategoryClaims.

(** ** Validation of inbound commands *)

Module ValidationClaims.
Import Js Types Runtime ErrorHandler RetryManager Server Observe Examples.
Import BreakerFacts RetryFacts RetryClaims.

(** On the WebSocket path a command that fails [validateCommand] is
    answered with INVALID_PARAMS at once: the state is returned as it was,
    nothing is queued and no rate-limit budget is used. *)
Lemma handleCommand_rejects_invalid clientId message generated nowMs s :
  validateCommand
    {| cmd_id := or_else (field "id" message) (Some (JStr generated));
       cmd_type := or_else (field "command" message) (field "type" message);
       cmd_params := or_else (field "params" message) (Some (JObj []));
       cmd_timestamp := nowMs;
       cmd_timeout := or_else (field "timeout" message) (Some (JNum 30000));
       cmd_retryCount := Some 0;
       cmd_maxRetries := or_else (field "maxRetries" message) (Some (JNum 3));
       cmd_priority := or_else (field "priority" message) (Some (JStr "normal"));
       cmd_clientId := clientId |} = false ->
  handleCommand clientId message generated nowMs s
  = (ErrorSent "INVALID_PARAMS" "Invalid command parameters", s).
Proof. intros H. unfold handleCommand. by rewrite H. Qed.

Example handleCommand_bogusFrame :
  handleCommand "client_1" bogusFrame "cmd_1" 2000 client0
  = (ErrorSent "INVALID_PARAMS" "Invalid command parameters", client0).
Proof. reflexivity. Qed.

(** On the MCP path nothing stands between the request and
    [executeWithRetry]: with a client connected and the breaker of the key
    not open, the operation is invoked, whatever the tool name and the
    arguments are. *)
Lemma handleMCPProtocol_invokes JSON_stringify cfg o rid toolName args s
    (st : gmap string Breaker) e :
  ClientManager.getAllClients (clientManager s) <> [] ->
  fst (isCircuitBreakerOpen cfg
         (circuitBreakerKey JSON_stringify
            (replace_first "browser_" EmptyString toolName) args)
         (now e) st) = false ->
  (calls e
   < calls (snd (handleMCPProtocol JSON_stringify cfg o
                   {| method := "tools/call"; request_id := rid;
                      params := Some {| name := Some (JStr toolName);
                                        arguments := args |} |}
                   s st e)))%nat.
Proof.
  intros Hclients Hclosed. unfold handleMCPProtocol. simpl.
  destruct (ClientManager.getAllClients (clientManager s)) as [|client rest]; [done|].
  unfold executeWithRetry.
  destruct (isCircuitBreakerOpen _ _ _ _) as [isOpen st1]. simpl in Hclosed. subst isOpen.
  unfold attemptBound.
  match goal with
  | |- context [retryLoop (S ?n) ?c ?o' ?cmd ?ps ?k ?rc ?st' ?e'] =>
      pose proof (retryLoop_invokes c o' cmd ps k n rc st' e') as Hinv;
      destruct (retryLoop (S n) c o' cmd ps k rc st' e') as [[completion st2] e2]
  end.
  simpl in Hinv. by destruct completion.
Qed.

(** C3 fails on the MCP path. With one client connected, a [tools/call]
    for the tool [browser_bogus] with a string as arguments becomes a
    command that [validateCommand] refuses, and yet [handleMCPProtocol]
    hands it to [executeWithRetry]: the operation is invoked four times
    (one attempt and three retries) and one failure is recorded for its
    key. The same command arriving as a [command] frame is refused with
    INVALID_PARAMS before anything else happens. *)
Theorem C3_tools_call_skips_validation :
  let run := handleMCPProtocol compact createRetryManager alwaysTimesOut
               bogusCall client0 ∅ startEnv in
  validateCommand (toolCommand "cmd_1" "bogus" (Some (JStr "oops")) 0) = false
  /\ fst (fst run)
     = ErrorReply (Some (JNum 7)) (-32603) "Command failed: Command timeout"
  /\ calls (snd run) = 4%nat
  /\ failures (breakerOf (circuitBreakerKey compact "bogus" (Some (JStr "oops")))
                 (snd (fst run))) = 1
  /\ handleCommand "client_1" bogusFrame "cmd_1" 2000 client0
     = (ErrorSent "INVALID_PARAMS" "Invalid command parameters", client0).
Proof. by vm_compute. Qed.

End ValidationClaims.

(** ** The pending-command table *)

Module CorrelatorFacts.
Import Js Types Runtime Server Observe.

Lemma sameCorrelator_withClients f s : sameCorrelator s (withClients f s).
Proof. by repeat split. Qed.

Lemma sameCorrelator_checkRateLimit clientId nowMs s :
  sameCorrelator s (snd (checkRateLimit clientId nowMs s)).
Proof.
  unfold checkRateLimit.
  destruct (ClientManager.getClient _ _) as [c|]; [|by repeat split].
  destruct (nowMs - windowStart (rateLimit c) >? windowMs); simpl;
    try match goal with |- context [if ?b then _ else _] => destruct b end;
    by repeat split.
Qed.

Lemma sameCorrelator_handleCommand clientId message generated nowMs s :
  sameCorrelator s (snd (handleCommand clientId message generated nowMs s)).
Proof.
  unfold handleCommand.
  destruct (negb (validateCommand _)); [by repeat split|].
  pose proof (sameCorrelator_checkRateLimit clientId nowMs s) as H.
  destruct (checkRateLimit clientId nowMs s) as [allowed s1].
  by destruct allowed.
Qed.

(** A step that is neither a send, a reply nor a timer touches the client
    registry only. *)
Lemma step_sameCorrelator s ev :
  match ev with
  | Send _ | Response _ _ _ | TimerFires _ => True
  | _ => sameCorrelator s (step s ev)
  end.
Proof.
  destruct ev; simpl; try done;
    first [apply sameCorrelator_withClients | apply sameCorrelator_handleCommand].
Qed.

Lemma consistent_sameCorrelator ids s s' :
  sameCorrelator s s' -> consistent ids s -> consistent ids s'.
Proof.
  intros (Hp & Ht & Hpr & Hn). unfold consistent. by rewrite Hp, Ht, Hpr, Hn.
Qed.

Lemma resolvedAs_sameCorrelator commandId h v s s' :
  sameCorrelator s s' -> resolvedAs commandId h v s -> resolvedAs commandId h v s'.
Proof.
  intros (Hp & Ht & Hpr & _). unfold resolvedAs. by rewrite Hp, Ht, Hpr.
Qed.

Lemma consistent_weaken ids ids' s :
  (forall x, x ∈ ids -> x ∈ ids') -> consistent ids s -> consistent ids' s.
Proof.
  intros Hsub (H1 & H2 & H3 & H4). split; [|done].
  intros commandId pc Hpc. destruct (H1 _ _ Hpc) as (? & ? & ? & ?). auto.
Qed.

Lemma consistent_initial : consistent [] initial.
Proof.
  unfold consistent, initial. simpl. repeat split;
    try (intros; simplify_map_eq; fail).
  all: intros ? [? H]; by rewrite lookup_empty in H.
Qed.

(** A settled promise keeps its state whatever is called on any promise. *)
Lemma settle_keeps p v h w s :
  promises s !! h = Some w -> promises (settle p v s) !! h = Some w.
Proof.
  intros Hh. unfold settle. destruct (promises s !! p) eqn:E; [done|]. simpl.
  rewrite lookup_insert_ne; [done|]. intros ->. congruence.
Qed.

Lemma settle_unsettled p v s :
  promises s !! p = None -> promises (settle p v s) = <[p := v]> (promises s).
Proof. intros H. unfold settle. by rewrite H. Qed.

Lemma settle_frame p v s :
  pendingCommands (settle p v s) = pendingCommands s
  /\ timers (settle p v s) = timers s
  /\ nextHandle (settle p v s) = nextHandle s
  /\ clientManager (settle p v s) = clientManager s.
Proof. unfold settle. by destruct (promises s !! p). Qed.

Lemma handleResponse_pending clientId message nowMs s pc :
  pendingCommands s !! rsp_id message = Some pc ->
  handleResponse clientId message nowMs s
  = resolveWith (rsp_id message) pc (settlementOf (Response clientId message nowMs))
      (withClients
         (ClientManager.updateClientState clientId
            {| ClientManager.upd_lastHeartbeat := None;
               ClientManager.upd_lastActivity := Some nowMs |}) s).
Proof.
  intros H. unfold handleResponse, resolveWith. simpl. rewrite H.
  by destruct (rsp_success message).
Qed.

Lemma handleResponse_not_pending clientId message nowMs s :
  pendingCommands s !! rsp_id message = None ->
  handleResponse clientId message nowMs s
  = withClients
      (ClientManager.updateClientState clientId
         {| ClientManager.upd_lastHeartbeat := None;
            ClientManager.upd_lastActivity := Some nowMs |}) s.
Proof. intros H. unfold handleResponse. simpl. by rewrite H. Qed.

Lemma fireTimer_armed t commandId p s :
  timers s !! t = Some (commandId, p) ->
  fireTimer t s
  = resolveWith commandId {| promise := p; timeout := t |} (Failed "Command timeout") s.
Proof. intros H. unfold fireTimer. by rewrite H. Qed.

Lemma fireTimer_not_armed t s : timers s !! t = None -> fireTimer t s = s.
Proof. intros H. unfold fireTimer. by rewrite H. Qed.

Lemma resolveWith_resolved ids commandId pc v s :
  consistent ids s ->
  pendingCommands s !! commandId = Some pc ->
  resolvedAs commandId (timeout pc) v (resolveWith commandId pc v s).
Proof.
  intros (H1 & _) Hpc. destruct (H1 _ _ Hpc) as (_ & Heq & _ & Hun).
  unfold resolvedAs, resolveWith.
  destruct (settle_frame (promise pc) v
              (deletePending commandId (clearTimeout (timeout pc) s)))
    as (-> & -> & _ & _).
  rewrite settle_unsettled by done. simpl.
  rewrite !lookup_delete_eq, <- Heq, lookup_insert_eq. done.
Qed.

Lemma resolveWith_consistent ids commandId pc v s :
  consistent ids s ->
  pendingCommands s !! commandId = Some pc ->
  consistent ids (resolveWith commandId pc v s).
Proof.
  intros (H1 & H2 & H3 & H4) Hpc.
  destruct (H1 _ _ Hpc) as (_ & Heq & Htimer & Hun).
  unfold consistent, resolveWith.
  destruct (settle_frame (promise pc) v
              (deletePending commandId (clearTimeout (timeout pc) s)))
    as (-> & -> & -> & _).
  rewrite settle_unsettled by done. simpl.
  split; [|split; [|split]].
  - intros id' pc' Hpc'.
    destruct (decide (id' = commandId)) as [->|Hne]; [by rewrite lookup_delete_eq in Hpc'|].
    rewrite lookup_delete_ne in Hpc' by done.
    destruct (H1 _ _ Hpc') as (Hin & Heq' & Htimer' & Hun').
    assert (Hdiff : timeout pc' <> timeout pc).
    { intros E. rewrite E, Htimer in Htimer'. congruence. }
    split; [done|]. split; [done|]. split.
    + by rewrite lookup_delete_ne.
    + rewrite lookup_insert_ne; [done|]. congruence.
  - intros t id' p Ht.
    destruct (decide (t = timeout pc)) as [->|Hne]; [by rewrite lookup_delete_eq in Ht|].
    rewrite lookup_delete_ne in Ht by done.
    pose proof (H2 _ _ _ Ht) as Hpc'.
    destruct (decide (id' = commandId)) as [->|Hne'].
    + rewrite Hpc in Hpc'. injection Hpc' as ->. done.
    + by rewrite lookup_delete_ne.
  - intros t [x Ht]. apply H3.
    destruct (decide (t = timeout pc)) as [->|Hne]; [by rewrite lookup_delete_eq in Ht|].
    rewrite lookup_delete_ne in Ht by done. eauto.
  - intros p [x Hp].
    destruct (decide (p = promise pc)) as [->|Hne].
    + rewrite Heq. apply H3. rewrite Htimer. eauto.
    + rewrite lookup_insert_ne in Hp by done. apply H4. eauto.
Qed.

Lemma sendCommand_consistent ids commandId s :
  consistent ids s -> commandId ∉ ids ->
  consistent (ids ++ [commandId]) (sendCommand commandId s).
Proof.
  intros (H1 & H2 & H3 & H4) Hfresh.
  assert (Hnot : pendingCommands s !! commandId = None).
  { destruct (pendingCommands s !! commandId) as [pc|] eqn:E; [|done].
    destruct (H1 _ _ E) as (Hin & _). contradiction. }
  assert (Hh : timers s !! nextHandle s = None).
  { destruct (timers s !! nextHandle s) eqn:E; [|done].
    assert (nextHandle s < nextHandle s)%nat by (apply H3; eauto). lia. }
  assert (Hp : promises s !! nextHandle s = None).
  { destruct (promises s !! nextHandle s) eqn:E; [|done].
    assert (nextHandle s < nextHandle s)%nat by (apply H4; eauto). lia. }
  unfold consistent, sendCommand. simpl. split; [|split; [|split]].
  - intros id' pc' Hpc'.
    destruct (decide (id' = commandId)) as [->|Hne].
    + rewrite lookup_insert_eq in Hpc'. injection Hpc' as <-. simpl.
      rewrite lookup_insert_eq. split; [|done].
      apply elem_of_app. right. apply list_elem_of_here.
    + rewrite lookup_insert_ne in Hpc' by done.
      destruct (H1 _ _ Hpc') as (Hin & Heq' & Htimer' & Hun').
      split; [apply elem_of_app; by left|]. split; [done|]. split; [|done].
      rewrite lookup_insert_ne; [done|]. intros E. rewrite <- E in Htimer'. congruence.
  - intros t id' p Ht.
    destruct (decide (t = nextHandle s)) as [->|Hne].
    + rewrite lookup_insert_eq in Ht. injection Ht as <- <-.
      by rewrite lookup_insert_eq.
    + rewrite lookup_insert_ne in Ht by done.
      pose proof (H2 _ _ _ Ht) as Hpc'.
      rewrite lookup_insert_ne; [done|]. intros <-. congruence.
  - intros t [x Ht].
    destruct (decide (t = nextHandle s)) as [->|Hne]; [lia|].
    rewrite lookup_insert_ne in Ht by done.
    assert (t < nextHandle s)%nat by (apply H3; eauto). lia.
  - intros p Hsome. assert (p < nextHandle s)%nat by by apply H4. lia.
Qed.

(** Along a trace whose sent ids are new each time, consistency holds. *)
Lemma step_consistent ids s ev :
  consistent ids s ->
  (forall commandId, ev = Send commandId -> commandId ∉ ids) ->
  consistent (ids ++ sent [ev]) (step s ev).
Proof.
  intros Hc Hfresh.
  pose proof (step_sameCorrelator s ev) as Hsame.
  destruct ev as [| | clientId message nowMs | | | | commandId | t]; simpl in *;
    rewrite ?app_nil_r;
    try (by eapply consistent_sameCorrelator; [exact Hsame | exact Hc]).
  - destruct (pendingCommands s !! rsp_id message) as [pc|] eqn:E.
    + rewrite (handleResponse_pending _ _ _ _ pc E).
      apply resolveWith_consistent; [|done].
      eapply consistent_sameCorrelator; [apply sameCorrelator_withClients | exact Hc].
    + rewrite (handleResponse_not_pending _ _ _ _ E).
      eapply consistent_sameCorrelator; [apply sameCorrelator_withClients | exact Hc].
  - apply sendCommand_consistent; [done | by apply Hfresh].
  - destruct (timers s !! t) as [[commandId p]|] eqn:E.
    + rewrite (fireTimer_armed _ _ _ _ E).
      apply resolveWith_consistent; [done|].
      destruct Hc as (_ & H2 & _). by apply H2.
    + by rewrite (fireTimer_not_armed _ _ E).
Qed.

Lemma sent_app evs evs' : sent (evs ++ evs') = (sent evs ++ sent evs')%list.
Proof. unfold sent. apply flat_map_app. Qed.

Lemma run_snoc evs ev s : run (evs ++ [ev]) s = step (run evs s) ev.
Proof. unfold run. by rewrite fold_left_app. Qed.

Lemma run_consistent evs : forall ids s,
  consistent ids s ->
  NoDup (ids ++ sent evs) ->
  consistent (ids ++ sent evs) (run evs s).
Proof.
  induction evs as [|ev evs IH] using rev_ind; intros ids s Hc Hnd.
  - simpl. by rewrite app_nil_r.
  - rewrite run_snoc, sent_app, app_assoc. rewrite sent_app, app_assoc in Hnd.
    apply step_consistent.
    + apply IH; [done|]. by apply NoDup_app in Hnd as (Hnd & _).
    + intros commandId ->. simpl in Hnd.
      apply NoDup_app in Hnd as (_ & Hdisj & _). intros Hin.
      apply (Hdisj _ Hin), list_elem_of_here.
Qed.

(** Once resolved, a command stays resolved with the same settlement,
    unless its id is sent again. *)
Lemma step_resolved ids commandId h v s ev :
  consistent ids s ->
  resolvedAs commandId h v s ->
  ev <> Send commandId ->
  resolvedAs commandId h v (step s ev).
Proof.
  intros Hc (Hp & Ht & Hv) Hne.
  pose proof (step_sameCorrelator s ev) as Hsame.
  destruct ev as [| | clientId message nowMs | | | | id' | t]; simpl in *;
    try (by eapply resolvedAs_sameCorrelator; [exact Hsame | done]).
  - unfold handleResponse. simpl.
    destruct (pendingCommands s !! rsp_id message) as [pc|] eqn:E; [|done].
    assert (Hid : rsp_id message <> commandId) by (intros E'; rewrite E' in E; congruence).
    assert (R : forall w, resolvedAs commandId h v
                (settle (promise pc) w
                   (deletePending (rsp_id message)
                      (clearTimeout (timeout pc)
                         (withClients
                            (ClientManager.updateClientState clientId
                               {| ClientManager.upd_lastHeartbeat := None;
                                  ClientManager.upd_lastActivity := Some nowMs |}) s))))).
    { intros w. unfold resolvedAs.
      match goal with |- context [settle ?p ?w ?s0] =>
        destruct (settle_frame p w s0) as (-> & -> & _ & _) end.
      split; [|split].
      - simpl. by rewrite lookup_delete_ne.
      - simpl. destruct (decide (timeout pc = h)) as [->|Hd];
          [apply lookup_delete_eq | by rewrite lookup_delete_ne].
      - by apply settle_keeps. }
    destruct (rsp_success message); apply R.
  - assert (Hid : id' <> commandId) by congruence.
    destruct Hc as (_ & _ & _ & H4).
    assert (h < nextHandle s)%nat by (apply H4; eauto).
    unfold resolvedAs, sendCommand. simpl.
    rewrite !lookup_insert_ne by (done || lia). done.
  - unfold fireTimer. destruct (timers s !! t) as [[id' p]|] eqn:E; [|done].
    destruct Hc as (_ & H2 & _). pose proof (H2 _ _ _ E) as Hpc.
    assert (Hid : id' <> commandId) by (intros E'; rewrite E' in Hpc; congruence).
    unfold resolvedAs, timeoutCallback.
    match goal with |- context [settle ?p ?w ?s0] =>
      destruct (settle_frame p w s0) as (-> & -> & _ & _) end.
    split; [|split].
    + simpl. by rewrite lookup_delete_ne.
    + simpl. destruct (decide (t = h)) as [->|Hd];
        [apply lookup_delete_eq | by rewrite lookup_delete_ne].
    + by apply settle_keeps.
Qed.

Lemma run_resolved evs : forall ids commandId h v s,
  consistent ids s ->
  resolvedAs commandId h v s ->
  NoDup (ids ++ sent evs) ->
  commandId ∈ ids ->
  resolvedAs commandId h v (run evs s).
Proof.
  induction evs as [|ev evs IH] using rev_ind; intros ids commandId h v s Hc Hr Hnd Hin;
    [done|].
  rewrite run_snoc. rewrite sent_app, app_assoc in Hnd.
  assert (Hnd' : NoDup (ids ++ sent evs)) by by apply NoDup_app in Hnd as (Hnd & _).
  eapply step_resolved.
  - apply run_consistent; [exact Hc | exact Hnd'].
  - eapply IH; eauto.
  - intros ->. simpl in Hnd. apply NoDup_app in Hnd as (_ & Hdisj & _).
    apply (Hdisj commandId); [apply elem_of_app; by left | apply list_elem_of_here].
Qed.

End CorrelatorFacts.

Module CorrelatorClaims.
Import Js Types Runtime Server Observe Examples CorrelatorFacts.

(** C1. Along every trace of the dispatch loop in which the ids of sent
    commands are pairwise distinct: if [commandId] is pending with entry
    [pc] and [ev] is a reply for it or the firing of its timer, then [ev]
    removes the entry, disarms the timer and settles the promise (with the
    reply, or with the error "Command timeout"); before [ev] the timer was
    armed and the promise unsettled; and after any further events the
    entry is still absent, the timer still disarmed and the promise still
    settled as [ev] settled it, a further reply for the id changes neither
    the pending table, the timers nor the promises, the timer does not
    run again, and even the body of the timeout callback would leave the
    pending table as it is. All the functions involved are total: none
    throws. *)
Theorem C1_resolved_exactly_once (before after : list Event) (ev : Event)
    (commandId : string) (pc : PendingCommand) :
  NoDup (sent (before ++ ev :: after)) ->
  pendingCommands (run before initial) !! commandId = Some pc ->
  resolves ev commandId pc ->
  let s1 := run before initial in
  let s2 := step s1 ev in
  let s3 := run after s2 in
  (timers s1 !! timeout pc = Some (commandId, promise pc)
   /\ promises s1 !! promise pc = None
   /\ promise pc = timeout pc)
  /\ resolvedAs commandId (timeout pc) (settlementOf ev) s2
  /\ resolvedAs commandId (timeout pc) (settlementOf ev) s3
  /\ (forall clientId message nowMs,
        rsp_id message = commandId ->
        sameCorrelator s3 (handleResponse clientId message nowMs s3))
  /\ fireTimer (timeout pc) s3 = s3
  /\ (forall p, pendingCommands (timeoutCallback commandId p s3) = pendingCommands s3).
Proof.
  intros Hnd Hpc Hev s1 s2 s3.
  rewrite sent_app in Hnd. change (ev :: after) with ([ev] ++ after)%list in Hnd.
  rewrite sent_app in Hnd.
  assert (Hsent : sent [ev] = []) by (destruct ev; simpl in *; done).
  rewrite Hsent in Hnd. simpl in Hnd.
  assert (Hc1 : consistent (sent before) s1).
  { apply (run_consistent before [] initial consistent_initial).
    simpl. by apply NoDup_app in Hnd as (Hnd & _). }
  pose proof Hc1 as (H1 & H2 & H3 & H4).
  destruct (H1 _ _ Hpc) as (Hin & Heq & Htimer & Hun).
  assert (Hc2 : consistent (sent before) s2).
  { pose proof (step_consistent (sent before) s1 ev Hc1) as Hs.
    rewrite Hsent, app_nil_r in Hs. apply Hs.
    intros id' ->. done. }
  assert (Hr2 : resolvedAs commandId (timeout pc) (settlementOf ev) s2).
  { subst s2. destruct ev as [| | clientId message nowMs | | | | | t]; simpl in Hev; try done.
    - subst commandId. simpl step. rewrite (handleResponse_pending _ _ _ _ pc Hpc).
      eapply resolveWith_resolved; [|done].
      eapply consistent_sameCorrelator; [apply sameCorrelator_withClients | exact Hc1].
    - subst t. simpl step. rewrite (fireTimer_armed _ _ _ _ Htimer).
      replace {| promise := promise pc; timeout := timeout pc |} with pc by by destruct pc.
      eapply resolveWith_resolved; [exact Hc1 | done]. }
  assert (Hr3 : resolvedAs commandId (timeout pc) (settlementOf ev) s3).
  { apply (run_resolved after (sent before)); done. }
  split; [done|]. split; [done|]. split; [done|].
  destruct Hr3 as (Hp3 & Ht3 & Hv3). split; [|split].
  - intros clientId message nowMs <-.
    rewrite (handleResponse_not_pending _ _ _ _ Hp3). apply sameCorrelator_withClients.
  - by apply fireTimer_not_armed.
  - intros p. unfold timeoutCallback.
    match goal with |- context [settle ?p ?w ?s0] =>
      destruct (settle_frame p w s0) as (-> & _) end.
    simpl. by apply delete_id.
Qed.

Lemma C1_resolved_exactly_once_witness :
  let s3 := run lateEvents (step (run twoPending initial) replyOne) in
  pendingCommands s3 !! "cmd_1" = None
  /\ promises s3 !! 0%nat = Some (Fulfilled (Some (JStr "done")))
  /\ fireTimer 0 s3 = s3.
Proof.
  intros s3.
  destruct (C1_resolved_exactly_once twoPending lateEvents replyOne "cmd_1"
              {| promise := 0; timeout := 0 |})
    as (_ & _ & (Hp & _ & Hv) & _ & Hfire & _).
  - apply (bool_decide_unpack _). by vm_compute.
  - by vm_compute.
  - reflexivity.
  - split; [exact Hp | split; [exact Hv | exact Hfire]].
Defined.

(** C2 (as the code has it). A disconnection, by the transport closing or
    by the heartbeat sweep, changes the client registry only: the pending
    commands, the armed timers and the promises are the same after it as
    before. A command that was pending stays pending, and it is rejected
    when its own timer fires, with the error "Command timeout". *)
Theorem C2_disconnect_keeps_pending clientId nowMs s :
  sameCorrelator s (handleDisconnection clientId s)
  /\ sameCorrelator s (cleanupStaleConnections nowMs s)
  /\ forall ids commandId pc s',
       consistent ids s ->
       pendingCommands s !! commandId = Some pc ->
       s' = handleDisconnection clientId s \/ s' = cleanupStaleConnections nowMs s ->
       pendingCommands s' !! commandId = Some pc
       /\ promises s' !! promise pc = None
       /\ resolvedAs commandId (timeout pc) (Failed "Command timeout")
            (fireTimer (timeout pc) s').
Proof.
  assert (Hd : sameCorrelator s (handleDisconnection clientId s))
    by apply sameCorrelator_withClients.
  assert (Hs : sameCorrelator s (cleanupStaleConnections nowMs s))
    by apply sameCorrelator_withClients.
  split; [done|]. split; [done|].
  intros ids commandId pc s' Hc Hpc Hs'.
  assert (Hsame : sameCorrelator s s') by (destruct Hs' as [->| ->]; done).
  pose proof (consistent_sameCorrelator ids s s' Hsame Hc) as Hc'.
  destruct Hsame as (Hp & Ht & Hpr & _).
  assert (Hpc' : pendingCommands s' !! commandId = Some pc) by by rewrite Hp.
  pose proof Hc' as (H1 & H2 & _). destruct (H1 _ _ Hpc') as (_ & Heq & Htimer & Hun).
  split; [done|]. split; [done|].
  rewrite (fireTimer_armed _ _ _ _ Htimer).
  replace {| promise := promise pc; timeout := timeout pc |} with pc by by destruct pc.
  eapply resolveWith_resolved; [exact Hc' | done].
Qed.

Lemma C2_disconnect_keeps_pending_witness :
  let s := run twoPending initial in
  let s' := handleDisconnection "client_1" s in
  pendingCommands s' !! "cmd_2" = Some {| promise := 1; timeout := 1 |}
  /\ promises s' !! 1%nat = None.
Proof.
  intros s s'.
  destruct (C2_disconnect_keeps_pending "client_1" 0 s) as (_ & _ & H).
  destruct (H (sent twoPending) "cmd_2" {| promise := 1; timeout := 1 |} s')
    as (Hp & Hu & _).
  - apply (run_consistent twoPending [] initial consistent_initial).
    apply (bool_decide_unpack _). by vm_compute.
  - by vm_compute.
  - by left.
  - split; [exact Hp | exact Hu].
Defined.

(** C2, as stated, fails: a client connects, two commands are sent to it
    and it disconnects (or is swept as stale); both commands are still
    pending and neither promise has been rejected, with "target
    disconnected" or otherwise. Each is rejected only when its timer
    fires, with the timeout error. *)
Lemma C2_counterexample :
  let s := run twoPending initial in
  let closed := handleDisconnection "client_1" s in
  let swept := cleanupStaleConnections 200000 s in
  ClientManager.getAllClients (clientManager s) <> []
  /\ ClientManager.getAllClients (clientManager closed) = []
  /\ ClientManager.getAllClients (clientManager swept) = []
  /\ pendingCommands closed !! "cmd_1" = Some {| promise := 0; timeout := 0 |}
  /\ pendingCommands closed !! "cmd_2" = Some {| promise := 1; timeout := 1 |}
  /\ promises closed !! 0%nat = None
  /\ promises closed !! 1%nat = None
  /\ pendingCommands swept !! "cmd_1" = Some {| promise := 0; timeout := 0 |}
  /\ promises swept !! 0%nat = None
  /\ promises (fireTimer 0 closed) !! 0%nat = Some (Failed "Command timeout")
  /\ promises (fireTimer 1 closed) !! 1%nat = Some (Failed "Command timeout").
Proof. by vm_compute. Qed.

End CorrelatorClaims.

(** ** More on the client registry *)

Module RegistryFacts.
Import Js Types Runtime Server Observe Invariants.

Lemma get_None_keys clientId (m : ClientManager.t) :
  ClientManager.get clientId m = None <-> clientId ∉ map fst m.
Proof.
  induction m as [|[k c] m IH]; simpl.
  - split; [intros _; apply not_elem_of_nil | done].
  - destruct (String.eqb k clientId) eqn:E.
    + apply String.eqb_eq in E. subst k. split; [done|].
      intros H. exfalso. apply H, list_elem_of_here.
    + apply String.eqb_neq in E. rewrite IH, not_elem_of_cons.
      split; [intros H; split; [congruence | done] | by intros [_ H]].
Qed.

Lemma get_Some_elem clientId c (m : ClientManager.t) :
  ClientManager.get clientId m = Some c -> (clientId, c) ∈ m.
Proof.
  induction m as [|[k c'] m IH]; simpl; [done|].
  destruct (String.eqb k clientId) eqn:E.
  - apply String.eqb_eq in E. intros [= ->]. subst k. apply list_elem_of_here.
  - intros H. apply list_elem_of_further. by apply IH.
Qed.

Lemma keys_set clientId c (m : ClientManager.t) :
  map fst (ClientManager.set clientId c m)
  = match ClientManager.get clientId m with
    | Some _ => map fst m
    | None => (map fst m ++ [clientId])%list
    end.
Proof.
  induction m as [|[k c'] m IH]; simpl; [done|].
  destruct (String.eqb k clientId) eqn:E; simpl; [done|].
  rewrite IH. by destruct (ClientManager.get clientId m).
Qed.

Lemma Forall_set (P : string * ClientState -> Prop) clientId c (m : ClientManager.t) :
  Forall P m -> P (clientId, c) -> Forall P (ClientManager.set clientId c m).
Proof.
  intros Hm Hc. induction Hm as [|[k c'] m Hk Hm IH]; simpl.
  - by constructor.
  - destruct (String.eqb k clientId) eqn:E.
    + apply String.eqb_eq in E. subst k. by constructor.
    + by constructor.
Qed.

Lemma delete_sublist clientId (m : ClientManager.t) :
  ClientManager.delete clientId m `sublist_of` m.
Proof.
  induction m as [|[k c] m IH]; simpl; [done|].
  destruct (String.eqb k clientId); [by apply sublist_cons | by apply sublist_skip].
Qed.

Lemma get_delete_ne clientId other (m : ClientManager.t) :
  clientId <> other ->
  ClientManager.get other (ClientManager.delete clientId m) = ClientManager.get other m.
Proof.
  intros Hne. induction m as [|[k c] m IH]; simpl; [done|].
  destruct (String.eqb k clientId) eqn:E; simpl.
  - apply String.eqb_eq in E. subst k.
    destruct (String.eqb clientId other) eqn:E'; [|done].
    apply String.eqb_eq in E'. contradiction.
  - by rewrite IH.
Qed.

Lemma get_delete_eq clientId (m : ClientManager.t) :
  NoDup (map fst m) ->
  ClientManager.get clientId (ClientManager.delete clientId m) = None.
Proof.
  induction m as [|[k c] m IH]; simpl; [done|]. intros Hnd.
  apply NoDup_cons in Hnd as [Hk Hnd].
  destruct (String.eqb k clientId) eqn:E; simpl.
  - apply String.eqb_eq in E. subst k. by apply get_None_keys.
  - rewrite E. by apply IH.
Qed.

Lemma length_delete clientId (m : ClientManager.t) :
  length (ClientManager.delete clientId m)
  = match ClientManager.get clientId m with
    | Some _ => pred (length m)
    | None => length m
    end.
Proof.
  induction m as [|[k c] m IH]; simpl; [done|].
  destruct (String.eqb k clientId); simpl; [done|].
  rewrite IH. destruct (ClientManager.get clientId m) eqn:E; [|done].
  destruct m; [done | simpl; lia].
Qed.

Lemma delete_app_here clientId c (a b : ClientManager.t) :
  clientId ∉ map fst a ->
  ClientManager.delete clientId (a ++ (clientId, c) :: b)%list = (a ++ b)%list.
Proof.
  induction a as [|[k c'] a IH]; simpl; intros Hk.
  - by rewrite String.eqb_refl.
  - apply not_elem_of_cons in Hk as [Hne Hk].
    destruct (String.eqb k clientId) eqn:E.
    + apply String.eqb_eq in E. congruence.
    + by rewrite IH.
Qed.

Lemma registryOk_set clientId c (m : ClientManager.t) :
  registryOk m -> entryOk (clientId, c) -> registryOk (ClientManager.set clientId c m).
Proof.
  intros [Hnd Hall] Hc. split; [|by apply Forall_set].
  rewrite keys_set. destruct (ClientManager.get clientId m) eqn:E; [done|].
  apply NoDup_app. split; [done|]. split; [|apply NoDup_singleton].
  intros x Hx Hx'. apply list_elem_of_singleton in Hx'. subst x.
  by apply get_None_keys in E.
Qed.

Lemma registryOk_delete clientId (m : ClientManager.t) :
  registryOk m -> registryOk (ClientManager.delete clientId m).
Proof.
  intros [Hnd Hall]. pose proof (delete_sublist clientId m) as Hsub. split.
  - apply (fmap_sublist fst) in Hsub. by eapply sublist_NoDup.
  - rewrite Forall_forall in Hall. apply Forall_forall.
    intros x Hx. apply Hall. by eapply elem_of_sublist.
Qed.

Lemma registryOk_get clientId c (m : ClientManager.t) :
  registryOk m -> ClientManager.get clientId m = Some c -> entryOk (clientId, c).
Proof.
  intros [_ Hall] Hget. rewrite Forall_forall in Hall.
  apply Hall. by apply get_Some_elem.
Qed.

End RegistryFacts.

Module RegistryInvariant.
Import Js Types Runtime Server Observe Invariants RegistryFacts.

Lemma registryOk_updateClientState clientId updates (m : ClientManager.t) :
  registryOk m -> registryOk (ClientManager.updateClientState clientId updates m).
Proof.
  intros Hok. unfold ClientManager.updateClientState.
  destruct (ClientManager.get clientId m) as [c|] eqn:E; [|done].
  apply registryOk_set; [done|].
  by pose proof (registryOk_get _ _ _ Hok E) as (? & ? & ? & ? & ?).
Qed.

Lemma registryOk_setRateLimit clientId rl s :
  registryOk (clientManager s) ->
  0 <= requests rl <= maxRequests ->
  registryOk (clientManager (setRateLimit clientId rl s)).
Proof.
  intros Hok Hrl. unfold setRateLimit. simpl.
  destruct (ClientManager.get clientId (clientManager s)) as [c|] eqn:E; [|done].
  apply registryOk_set; [done|].
  by pose proof (registryOk_get _ _ _ Hok E) as (? & ? & ? & ? & ?).
Qed.

Lemma registryOk_checkRateLimit clientId nowMs s :
  registryOk (clientManager s) ->
  registryOk (clientManager (snd (checkRateLimit clientId nowMs s))).
Proof.
  intros Hok. unfold checkRateLimit, ClientManager.getClient.
  destruct (ClientManager.get clientId (clientManager s)) as [c|] eqn:E; [|done].
  pose proof (registryOk_get _ _ _ Hok E) as (_ & _ & _ & _ & Hb).
  cbn [snd] in Hb. unfold maxRequests in Hb. cbv zeta.
  destruct (nowMs - windowStart (rateLimit c) >? windowMs); cbn [requests windowStart].
  - change (0 >=? maxRequests) with false. cbn [snd].
    apply registryOk_setRateLimit; [|cbn [requests]; unfold maxRequests; lia].
    apply registryOk_setRateLimit; [done | cbn [requests]; unfold maxRequests; lia].
  - destruct (requests (rateLimit c) >=? maxRequests) eqn:E'; cbn [snd]; [done|].
    apply registryOk_setRateLimit; [done | cbn [requests]; unfold maxRequests in *; lia].
Qed.

Lemma registryOk_sweep nowMs (l : list ClientState) : forall m : ClientManager.t,
  registryOk m ->
  registryOk
    (fold_left
       (fun m' client =>
          if nowMs - lastHeartbeat client >? staleTimeout
          then ClientManager.removeClient (id client) m' else m') l m).
Proof.
  induction l as [|c l IH]; intros m Hok; simpl; [done|].
  apply IH. destruct (nowMs - lastHeartbeat c >? staleTimeout); [|done].
  by apply registryOk_delete.
Qed.

Lemma step_registryOk s ev :
  registryOk (clientManager s) -> registryOk (clientManager (step s ev)).
Proof.
  intros Hok.
  destruct ev as [clientId nowMs | clientId message generated nowMs
                 | clientId message nowMs | clientId nowMs | clientId | nowMs
                 | commandId | t]; simpl.
  - apply registryOk_set; [done|]. repeat split; simpl; unfold maxRequests; lia.
  - unfold handleCommand. destruct (negb (validateCommand _)); [done|].
    pose proof (registryOk_checkRateLimit clientId nowMs s Hok) as H.
    destruct (checkRateLimit clientId nowMs s) as [allowed s1]. by destruct allowed.
  - unfold handleResponse. simpl.
    pose proof (registryOk_updateClientState clientId
                  {| ClientManager.upd_lastHeartbeat := None;
                     ClientManager.upd_lastActivity := Some nowMs |} _ Hok) as H.
    destruct (pendingCommands s !! rsp_id message) as [pc|]; [|done].
    destruct (rsp_success message);
      match goal with |- context [settle ?p ?w ?s0] =>
        unfold settle; destruct (promises s0 !! p) end; done.
  - by apply registryOk_updateClientState.
  - by apply registryOk_delete.
  - by apply registryOk_sweep.
  - done.
  - unfold fireTimer. destruct (timers s !! t) as [[commandId p]|]; [|done].
    unfold timeoutCallback, settle. simpl.
    by destruct (promises s !! p).
Qed.

Lemma run_registryOk evs : forall s,
  registryOk (clientManager s) -> registryOk (clientManager (run evs s)).
Proof.
  induction evs as [|ev evs IH]; intros s Hok; [done|].
  simpl. apply IH. by apply step_registryOk.
Qed.

Lemma registryOk_initial : registryOk (clientManager initial).
Proof. split; [apply NoDup_nil_2 | constructor]. Qed.

End RegistryInvariant.

Module RegistryProperties.
Import Js Types Runtime Server Observe Invariants RegistryFacts RegistryInvariant.

(** X1.  The registry keeps one entry per id: a registered client is found under
    its id, registering leaves every other id as it was, and an id that was
    removed is not found any more. *)
Theorem registry_add_get_remove (c : ClientState) (m : ClientManager.t) :
  NoDup (map fst m) ->
  ClientManager.getClient (id c) (ClientManager.addClient c m) = Some c
  /\ (forall other, other <> id c ->
        ClientManager.getClient other (ClientManager.addClient c m)
        = ClientManager.getClient other m)
  /\ ClientManager.getClient (id c)
       (ClientManager.removeClient (id c) (ClientManager.addClient c m)) = None
  /\ (forall other, other <> id c ->
        ClientManager.getClient other (ClientManager.removeClient (id c) m)
        = ClientManager.getClient other m)
  /\ NoDup (map fst (ClientManager.addClient c m))
  /\ NoDup (map fst (ClientManager.removeClient (id c) m)).
Proof.
  intros Hnd. unfold ClientManager.getClient, ClientManager.addClient,
    ClientManager.removeClient.
  assert (Hadd : NoDup (map fst (ClientManager.set (id c) c m))).
  { rewrite keys_set. destruct (ClientManager.get (id c) m) eqn:E; [done|].
    apply NoDup_app. split; [done|]. split; [|apply NoDup_singleton].
    intros x Hx Hx'. apply list_elem_of_singleton in Hx'. subst x.
    by apply get_None_keys in E. }
  split; [apply ClientManagerFacts.get_set_eq|]. split.
  { intros other Hne. apply ClientManagerFacts.get_set_ne. congruence. }
  split; [by apply get_delete_eq|]. split.
  { intros other Hne. apply get_delete_ne. congruence. }
  split; [done|].
  pose proof (delete_sublist (id c) m) as Hsub.
  apply (fmap_sublist fst) in Hsub.
  eapply sublist_NoDup; first [exact Hsub | exact Hnd].
Qed.

Lemma registry_add_get_remove_witness :
  ClientManager.getClient "client_1"
    (ClientManager.removeClient "client_1" (clientManager Examples.client0)) = None.
Proof.
  destruct (registry_add_get_remove
              {| id := "client_1"; connected := true; connectedAt := 1000;
                 lastHeartbeat := 1000; lastActivity := 1000;
                 activeCommands := []; commandHistory := [];
                 apiKey := "no-auth-required";
                 rateLimit := {| requests := 0; windowStart := 1000 |} |}
              ClientManager.empty) as (_ & _ & H & _).
  - apply NoDup_nil_2.
  - exact H.
Defined.

(** X2.  Registering an id that is already there replaces its state in place and
    keeps the count; a new id goes to the end and adds one. Removing an id
    that is there takes one off; removing an absent id changes nothing. *)
Theorem registry_count (c : ClientState) (clientId : string) (m : ClientManager.t) :
  (ClientManager.getClient (id c) m = None ->
     ClientManager.addClient c m = (m ++ [(id c, c)])%list
     /\ ClientManager.getClientCount (ClientManager.addClient c m)
        = S (ClientManager.getClientCount m))
  /\ (is_Some (ClientManager.getClient (id c) m) ->
        map fst (ClientManager.addClient c m) = map fst m
        /\ ClientManager.getClientCount (ClientManager.addClient c m)
           = ClientManager.getClientCount m)
  /\ (is_Some (ClientManager.getClient clientId m) ->
        S (ClientManager.getClientCount (ClientManager.removeClient clientId m))
        = ClientManager.getClientCount m)
  /\ (ClientManager.getClient clientId m = None ->
        ClientManager.removeClient clientId m = m).
Proof.
  unfold ClientManager.getClient, ClientManager.addClient, ClientManager.removeClient,
    ClientManager.getClientCount.
  assert (Hkeys : forall k x (l : ClientManager.t),
            length (ClientManager.set k x l) = length (map fst (ClientManager.set k x l)))
    by (intros; by rewrite length_map).
  split; [|split; [|split]].
  - intros Hnone. split.
    + induction m as [|[k c'] m IH]; simpl in *; [done|].
      destruct (String.eqb k (id c)); [done|]. by rewrite IH.
    + rewrite Hkeys, keys_set, Hnone, length_app, length_map. simpl. lia.
  - intros [c' Hsome]. split.
    + by rewrite keys_set, Hsome.
    + by rewrite Hkeys, keys_set, Hsome, length_map.
  - intros [c' Hsome]. rewrite length_delete, Hsome.
    destruct m; [done | simpl; lia].
  - apply ClientManagerFacts.get_delete_eq_None.
Qed.

Lemma registry_count_witness :
  ClientManager.getClientCount
    (ClientManager.removeClient "ghost" (clientManager Examples.client0)) = 1%nat.
Proof.
  destruct (registry_count
              {| id := "client_1"; connected := true; connectedAt := 1000;
                 lastHeartbeat := 1000; lastActivity := 1000;
                 activeCommands := []; commandHistory := [];
                 apiKey := "no-auth-required";
                 rateLimit := {| requests := 0; windowStart := 1000 |} |}
              "ghost" (clientManager Examples.client0)) as (_ & _ & _ & H).
  rewrite H; reflexivity.
Defined.

End RegistryProperties.

(** ** Sessions: registration, liveness and the sweep *)

Module SessionFacts.
Import Js Types Runtime Server Observe Invariants RegistryFacts RegistryInvariant.

Lemma withClients_id s : withClients (fun m => m) s = s.
Proof. by destruct s. Qed.

Lemma keys_updateClientState clientId updates (m : ClientManager.t) :
  map fst (ClientManager.updateClientState clientId updates m) = map fst m.
Proof.
  unfold ClientManager.updateClientState.
  destruct (ClientManager.get clientId m) eqn:E; [|done].
  by rewrite keys_set, E.
Qed.

Lemma keys_setRateLimit clientId rl s :
  map fst (clientManager (setRateLimit clientId rl s)) = map fst (clientManager s).
Proof.
  unfold setRateLimit. cbn [clientManager withClients].
  destruct (ClientManager.get clientId (clientManager s)) eqn:E; [|done].
  by rewrite keys_set, E.
Qed.

Lemma keys_checkRateLimit clientId nowMs s :
  map fst (clientManager (snd (checkRateLimit clientId nowMs s)))
  = map fst (clientManager s).
Proof.
  unfold checkRateLimit.
  destruct (ClientManager.getClient clientId (clientManager s)); [|done]. cbv zeta.
  destruct (_ >? windowMs); cbn [requests windowStart].
  - change (0 >=? maxRequests) with false. cbn [snd].
    by rewrite !keys_setRateLimit.
  - destruct (_ >=? maxRequests); cbn [snd]; [done|]. by rewrite keys_setRateLimit.
Qed.

Lemma keys_sweep nowMs (l : list ClientState) : forall (m : ClientManager.t) x,
  x ∈ map fst
        (fold_left
           (fun m' client =>
              if nowMs - lastHeartbeat client >? staleTimeout
              then ClientManager.removeClient (id client) m' else m') l m) ->
  x ∈ map fst m.
Proof.
  induction l as [|c l IH]; intros m x Hx; simpl in Hx; [done|].
  apply IH in Hx. destruct (nowMs - lastHeartbeat c >? staleTimeout); [|done].
  pose proof (delete_sublist (id c) m) as Hsub.
  apply (fmap_sublist fst) in Hsub. by eapply elem_of_sublist.
Qed.

(** The ids in the registry after a step were there before, or the step is
    the [auth] frame of the id. *)
Lemma step_keys s ev x :
  x ∈ map fst (clientManager (step s ev)) ->
  x ∈ map fst (clientManager s) \/ x ∈ authenticated [ev].
Proof.
  destruct ev as [clientId nowMs | clientId message generated nowMs
                 | clientId message nowMs | clientId nowMs | clientId | nowMs
                 | commandId | t]; cbn [step authenticated flat_map app].
  - unfold handleAuth, ClientManager.addClient. cbn [clientManager withClients id].
    rewrite keys_set. destruct (ClientManager.get clientId (clientManager s)); [by left|].
    rewrite elem_of_app. intros [H|H]; [by left | by right].
  - unfold handleCommand. destruct (negb (validateCommand _)); [by left|].
    pose proof (keys_checkRateLimit clientId nowMs s) as H.
    destruct (checkRateLimit clientId nowMs s) as [allowed s1]. simpl in H.
    destruct allowed; simpl; rewrite H; by left.
  - unfold handleResponse. cbn [pendingCommands withClients].
    destruct (pendingCommands s !! rsp_id message) as [pc|].
    + destruct (rsp_success message);
        match goal with |- context [settle ?p ?w ?s0] =>
          unfold settle; destruct (promises s0 !! p) end;
        cbn [clientManager deletePending clearTimeout withClients];
        rewrite keys_updateClientState; by left.
    + cbn [clientManager withClients]. rewrite keys_updateClientState. by left.
  - unfold handleHeartbeat. cbn [clientManager withClients].
    rewrite keys_updateClientState. by left.
  - unfold handleDisconnection, ClientManager.removeClient.
    cbn [clientManager withClients]. intros Hx. left.
    pose proof (delete_sublist clientId (clientManager s)) as Hsub.
    apply (fmap_sublist fst) in Hsub. by eapply elem_of_sublist.
  - unfold cleanupStaleConnections. cbn [clientManager withClients].
    intros Hx. left. by eapply keys_sweep.
  - by left.
  - unfold fireTimer. destruct (timers s !! t) as [[commandId p]|]; [|by left].
    unfold timeoutCallback, settle. cbn [promises deletePending clearTimeout].
    destruct (promises s !! p); by left.
Qed.

End SessionFacts.

Module SessionProperties.
Import Js Types Runtime Server Observe Invariants.
Import RegistryFacts RegistryInvariant SessionFacts.

Lemma activeCount_zero (m : ClientManager.t) : forall n,
  Forall entryOk m ->
  fold_left (fun count kc => (count + length (activeCommands (snd kc)))%nat) m n = n.
Proof.
  induction m as [|kc m IH]; intros n Hall; [done|].
  apply Forall_cons in Hall as [(_ & _ & Hact & _) Hall]. simpl.
  rewrite Hact. simpl. rewrite Nat.add_0_r. by apply IH.
Qed.

(** X3.  In every state the server can reach, the registry has one entry per id,
    each filed under the id of its client; every registered client counts
    as connected, so [getConnectedClients] is [getAllClients]; and no client
    has an active command, so [getActiveCommandCount] is 0. *)
Theorem reachable_registry_shape (evs : list Event) :
  let m := clientManager (run evs initial) in
  NoDup (map fst m)
  /\ Forall (fun kc => fst kc = id (snd kc)) m
  /\ ClientManager.getConnectedClients m = ClientManager.getAllClients m
  /\ ClientManager.getActiveCommandCount m = 0%nat.
Proof.
  intros m. pose proof (run_registryOk evs initial registryOk_initial) as [Hnd Hall].
  fold m in Hnd, Hall. split; [done|]. split; [|split].
  - eapply Forall_impl; [exact Hall|]. by intros kc (H & _).
  - unfold ClientManager.getConnectedClients, ClientManager.getAllClients.
    clear Hnd. induction Hall as [|kc l (_ & Hc & _) Hl IH]; simpl; [done|].
    by rewrite Hc, IH.
  - by apply activeCount_zero.
Qed.

(** X4.  In every state the server can reach, the request counter of every
    client is between 0 and 100. *)
Theorem rate_counter_bounded (evs : list Event) (clientId : string) (rl : RateLimit) :
  rateLimitOf clientId (run evs initial) = Some rl ->
  0 <= requests rl <= 100.
Proof.
  intros Hrl. apply RateLimitFacts.rateLimitOf_Some in Hrl as (c & Hc & <-).
  pose proof (run_registryOk evs initial registryOk_initial) as Hok.
  by pose proof (registryOk_get _ _ _ Hok Hc) as (_ & _ & _ & _ & Hb).
Qed.

Lemma rate_counter_bounded_witness :
  0 <= requests {| requests := 1; windowStart := 1000 |} <= 100.
Proof.
  apply (rate_counter_bounded
           [Auth "client_1" 1000;
            Command "client_1" [("command", JStr "click")] "cmd_1" 1200]
           "client_1" {| requests := 1; windowStart := 1000 |}).
  reflexivity.
Defined.

(** X5.  Only an [auth] frame registers a client: an id found in the registry of
    a reachable state is the id of an [auth] frame of the trace. Frames of a
    client that is not registered leave the registry as it is: a heartbeat
    and a disconnection return the state they were given, and a reply
    changes no client. *)
Theorem registered_only_by_auth (evs : list Event) (clientId : string) :
  (is_Some (ClientManager.getClient clientId (clientManager (run evs initial))) ->
   clientId ∈ authenticated evs)
  /\ (forall s nowMs message,
        ClientManager.getClient clientId (clientManager s) = None ->
        handleHeartbeat clientId nowMs s = s
        /\ handleDisconnection clientId s = s
        /\ clientManager (handleResponse clientId message nowMs s) = clientManager s).
Proof.
  split.
  - intros [c Hc]. apply get_Some_elem in Hc.
    assert (Hk : clientId ∈ map fst (clientManager (run evs initial))).
    { apply list_elem_of_fmap. by exists (clientId, c). }
    clear c Hc. revert Hk.
    induction evs as [|ev evs IH] using rev_ind; [intros H; by apply elem_of_nil in H|].
    rewrite CorrelatorFacts.run_snoc. intros Hk.
    unfold authenticated. rewrite flat_map_app. apply elem_of_app.
    apply step_keys in Hk as [Hk|Hk]; [left; by apply IH | by right].
  - intros s nowMs message Hnone. unfold ClientManager.getClient in Hnone.
    assert (Hupd : forall u,
              ClientManager.updateClientState clientId u (clientManager s) = clientManager s)
      by (intros u; unfold ClientManager.updateClientState; by rewrite Hnone).
    split; [|split].
    + unfold handleHeartbeat, withClients. rewrite Hupd. by destruct s.
    + unfold handleDisconnection, withClients, ClientManager.removeClient.
      rewrite ClientManagerFacts.get_delete_eq_None by done. by destruct s.
    + unfold handleResponse. cbn [pendingCommands withClients].
      destruct (pendingCommands s !! rsp_id message) as [pc|].
      * destruct (rsp_success message);
          match goal with |- context [settle ?p ?w ?s0] =>
            unfold settle; destruct (promises s0 !! p) end;
          cbn [clientManager deletePending clearTimeout withClients]; apply Hupd.
      * cbn [clientManager withClients]. apply Hupd.
Qed.

Lemma registered_only_by_auth_witness :
  handleHeartbeat "ghost" 5000 Examples.client0 = Examples.client0.
Proof.
  destruct (registered_only_by_auth [] "ghost") as [_ H].
  destruct (H Examples.client0 5000
              {| rsp_id := "cmd_1"; rsp_success := true; rsp_data := None;
                 rsp_error := None |}) as [Hh _]; [reflexivity | exact Hh].
Defined.

(** X6.  An [auth] frame gives its client a new window with the counter at 0,
    whatever the registry held for the id: the next rate-limit check of the
    client succeeds, also when its previous window was used up. *)
Theorem auth_resets_rate_limit (clientId : string) (nowMs t : Z) (s : State) :
  rateLimitOf clientId (handleAuth clientId nowMs s)
  = Some {| requests := 0; windowStart := nowMs |}
  /\ fst (checkRateLimit clientId t (handleAuth clientId nowMs s)) = true.
Proof.
  assert (Hrl : rateLimitOf clientId (handleAuth clientId nowMs s)
                = Some {| requests := 0; windowStart := nowMs |}).
  { unfold rateLimitOf, handleAuth, ClientManager.getClient, ClientManager.addClient.
    cbn [clientManager withClients id]. by rewrite ClientManagerFacts.get_set_eq. }
  split; [done|].
  destruct (Z.le_gt_cases (t - nowMs) windowMs) as [Hin|Hout].
  - destruct (RateLimitFacts.checkRateLimit_allowed clientId t _ 0 nowMs Hrl Hin)
      as (s' & -> & _); [unfold maxRequests; lia | done].
  - destruct (RateLimitFacts.checkRateLimit_expired clientId t _ _ Hrl)
      as (s' & -> & _); [simpl; lia | done].
Qed.

End SessionProperties.

Module SweepProperties.
Import Js Types Runtime Server Observe Invariants.
Import RegistryFacts RegistryInvariant SessionFacts.

Local Abbreviation fresh nowMs :=
  (fun kc : string * ClientState => negb (stale nowMs (snd kc))).

Lemma filter_sublist (P : string * ClientState -> bool) (m : ClientManager.t) :
  List.filter P m `sublist_of` m.
Proof.
  induction m as [|x m IH]; simpl; [done|].
  destruct (P x); [by apply sublist_skip | by apply sublist_cons].
Qed.

Lemma get_filter (P : string * ClientState -> bool) clientId (m : ClientManager.t) :
  NoDup (map fst m) ->
  ClientManager.get clientId (List.filter P m)
  = match ClientManager.get clientId m with
    | Some c => if P (clientId, c) then Some c else None
    | None => None
    end.
Proof.
  induction m as [|[k c] m IH]; simpl; [done|]. intros Hnd.
  apply NoDup_cons in Hnd as [Hk Hnd].
  destruct (String.eqb k clientId) eqn:E.
  - apply String.eqb_eq in E. subst k.
    destruct (P (clientId, c)); simpl; [by rewrite String.eqb_refl|].
    apply get_None_keys. intros Hin. apply Hk.
    pose proof (filter_sublist P m) as Hsub.
    apply (fmap_sublist fst) in Hsub. by eapply elem_of_sublist.
  - destruct (P (k, c)); simpl; [rewrite E|]; by apply IH.
Qed.

Lemma sweep_filter_aux nowMs (l : ClientManager.t) : forall pre : ClientManager.t,
  registryOk (pre ++ l)%list ->
  fold_left
    (fun m' client =>
       if nowMs - lastHeartbeat client >? staleTimeout
       then ClientManager.removeClient (id client) m' else m')
    (map snd l) (List.filter (fresh nowMs) pre ++ l)%list
  = List.filter (fresh nowMs) (pre ++ l)%list.
Proof.
  induction l as [|[k c] l IH]; intros pre Hok.
  - simpl. by rewrite !app_nil_r.
  - assert (Hok' : registryOk ((pre ++ [(k, c)]) ++ l)%list) by by rewrite <- app_assoc.
    specialize (IH (pre ++ [(k, c)])%list Hok').
    rewrite <- app_assoc in IH. simpl in IH. rewrite <- IH.
    destruct Hok as [Hnd Hall].
    rewrite map_app in Hnd. apply NoDup_app in Hnd as (_ & Hdisj & _).
    apply Forall_app in Hall as [_ Hall]. apply Forall_cons in Hall as [(Hk & _) _].
    simpl in Hk. subst k. simpl. rewrite List.filter_app. simpl. unfold stale.
    destruct (nowMs - lastHeartbeat c >? staleTimeout) eqn:E; simpl.
    + rewrite app_nil_r. unfold ClientManager.removeClient.
      rewrite delete_app_here; [done|].
      intros Hin. apply (Hdisj (id c)); [|apply list_elem_of_here].
      pose proof (filter_sublist (fresh nowMs) pre) as Hs.
      apply (fmap_sublist fst) in Hs. by eapply elem_of_sublist.
    + by rewrite <- app_assoc.
Qed.

(** X7.  On a reachable state the sweep keeps exactly the clients whose last
    heartbeat is at most 120000 ms old, in their order: the registry after
    it is the registry before it without the stale entries. A client is
    found afterwards if and only if it was found before and is not stale. *)
Theorem sweep_removes_exactly_stale (evs : list Event) (nowMs : Z) :
  let s := run evs initial in
  clientManager (cleanupStaleConnections nowMs s)
  = List.filter (fun kc => negb (nowMs - lastHeartbeat (snd kc) >? 120000))
      (clientManager s)
  /\ forall clientId c,
       ClientManager.getClient clientId (clientManager (cleanupStaleConnections nowMs s))
       = Some c
       <-> ClientManager.getClient clientId (clientManager s) = Some c
           /\ nowMs - lastHeartbeat c <= 120000.
Proof.
  intros s.
  pose proof (run_registryOk evs initial registryOk_initial) as Hok. fold s in Hok.
  assert (Heq : clientManager (cleanupStaleConnections nowMs s)
                = List.filter (fresh nowMs) (clientManager s)).
  { unfold cleanupStaleConnections. cbn [clientManager withClients].
    apply (sweep_filter_aux nowMs (clientManager s) []). exact Hok. }
  split; [exact Heq|].
  intros clientId c. rewrite Heq. unfold ClientManager.getClient.
  rewrite get_filter by apply Hok.
  destruct (ClientManager.get clientId (clientManager s)) as [c'|];
    [|split; [done | by intros [? _]]].
  unfold stale, staleTimeout. simpl.
  destruct (nowMs - lastHeartbeat c' >? 120000) eqn:E; simpl.
  - split; [done|]. intros [[= ->] H]. lia.
  - split; [intros [= ->]; split; [done|lia] | by intros [H _]].
Qed.

Lemma clientManager_handleResponse clientId message nowMs s :
  clientManager (handleResponse clientId message nowMs s)
  = ClientManager.updateClientState clientId
      {| ClientManager.upd_lastHeartbeat := None;
         ClientManager.upd_lastActivity := Some nowMs |} (clientManager s).
Proof.
  unfold handleResponse. cbn [pendingCommands withClients].
  destruct (pendingCommands s !! rsp_id message) as [pc|]; [|done].
  destruct (rsp_success message);
    match goal with |- context [settle ?p ?w ?s0] =>
      unfold settle; destruct (promises s0 !! p) end; done.
Qed.

Lemma keys_filter_set nowMs clientId c c' (m : ClientManager.t) :
  ClientManager.get clientId m = Some c ->
  lastHeartbeat c' = lastHeartbeat c ->
  map fst (List.filter (fresh nowMs) (ClientManager.set clientId c' m))
  = map fst (List.filter (fresh nowMs) m).
Proof.
  intros Hget Hhb. induction m as [|[k c0] m IH]; simpl in *; [done|].
  destruct (String.eqb k clientId) eqn:E; simpl.
  - injection Hget as ->. unfold stale. rewrite Hhb.
    by destruct (nowMs - lastHeartbeat c >? staleTimeout).
  - destruct (negb (stale nowMs c0)); simpl; by rewrite IH.
Qed.

(** X8.  Liveness is the heartbeat alone. A reply leaves the last-heartbeat time
    of every client as it was, so the sweep removes the same clients whether
    or not a reply has just come in; a heartbeat of a registered client
    keeps it in the registry through every sweep of the next 120000 ms. *)
Theorem liveness_is_heartbeat_only (evs : list Event) (clientId : string)
    (message : ResponseFrame) (nowMs t : Z) :
  let s := run evs initial in
  (forall other,
     lastHeartbeat <$> ClientManager.getClient other
                         (clientManager (handleResponse clientId message nowMs s))
     = lastHeartbeat <$> ClientManager.getClient other (clientManager s))
  /\ map fst (clientManager
               (cleanupStaleConnections t (handleResponse clientId message nowMs s)))
     = map fst (clientManager (cleanupStaleConnections t s))
  /\ (is_Some (ClientManager.getClient clientId (clientManager s)) ->
      t - nowMs <= 120000 ->
      is_Some (ClientManager.getClient clientId
                 (clientManager
                    (cleanupStaleConnections t (handleHeartbeat clientId nowMs s))))).
Proof.
  intros s.
  pose proof (run_registryOk evs initial registryOk_initial) as Hok. fold s in Hok.
  assert (Hsweep : forall s0, registryOk (clientManager s0) ->
            clientManager (cleanupStaleConnections t s0)
            = List.filter (fresh t) (clientManager s0)).
  { intros s0 H0. unfold cleanupStaleConnections. cbn [clientManager withClients].
    by apply (sweep_filter_aux t (clientManager s0) []). }
  split; [|split].
  - intros other. rewrite clientManager_handleResponse.
    unfold ClientManager.updateClientState, ClientManager.getClient.
    destruct (ClientManager.get clientId (clientManager s)) as [c|] eqn:E; [|done].
    destruct (decide (clientId = other)) as [<-|Hne].
    + by rewrite ClientManagerFacts.get_set_eq, E.
    + by rewrite ClientManagerFacts.get_set_ne.
  - rewrite (Hsweep s Hok), Hsweep.
    + rewrite clientManager_handleResponse. unfold ClientManager.updateClientState.
      destruct (ClientManager.get clientId (clientManager s)) as [c|] eqn:E; [|done].
      by apply (keys_filter_set t clientId c).
    + rewrite clientManager_handleResponse. by apply registryOk_updateClientState.
  - intros [c Hc] Hrecent. unfold ClientManager.getClient in *.
    rewrite Hsweep.
    + unfold handleHeartbeat. cbn [clientManager withClients].
      unfold ClientManager.updateClientState. rewrite Hc.
      rewrite get_filter.
      * rewrite ClientManagerFacts.get_set_eq. unfold stale, staleTimeout. simpl.
        destruct (t - nowMs >? 120000) eqn:E'; [lia | by eexists].
      * rewrite keys_set, Hc. apply Hok.
    + unfold handleHeartbeat. cbn [clientManager withClients].
      by apply registryOk_updateClientState.
Qed.

Lemma liveness_is_heartbeat_only_witness :
  is_Some (ClientManager.getClient "client_1"
             (clientManager
                (cleanupStaleConnections 250000
                   (handleHeartbeat "client_1" 200000 (run [Auth "client_1" 1000] initial))))).
Proof.
  apply (liveness_is_heartbeat_only [Auth "client_1" 1000] "client_1"
           {| rsp_id := "cmd_1"; rsp_success := true; rsp_data := None; rsp_error := None |}
           200000 250000).
  - by eexists.
  - lia.
Defined.

End SweepProperties.

(** ** Command frames and tool calls *)

Module DispatchProperties.
Import Js Types Runtime ErrorHandler RetryManager Server Observe Invariants.
Import RetryFacts.

Lemma validTypes_truthy kind :
  existsb (String.eqb kind) validTypes = true -> truthy (Some (JStr kind)) = true.
Proof.
  intros H. simpl. destruct (String.eqb kind EmptyString) eqn:E; [|done].
  apply String.eqb_eq in E. subst kind. discriminate H.
Qed.

(** X9.  How a [command] frame is validated. A frame without a (truthy)
    [command] field is judged by its [type], which is "command", and so is
    always refused. For a frame whose [command] is a known kind, the
    parameters are refused exactly when they are a truthy value that is not
    an object or an array (a non-empty string, a non-zero number or [true]):
    missing, [null] and other falsy parameters are replaced by an empty
    object and pass. A refused frame leaves the state as it was. *)
Theorem command_frame_validation (clientId : string) (message : list (string * JSON))
    (generated : string) (nowMs : Z) (s : State) :
  let result := handleCommand clientId message generated nowMs s in
  let refused := (ErrorSent "INVALID_PARAMS" "Invalid command parameters", s) in
  (truthy (field "command" message) = false ->
   field "type" message = Some (JStr "command") ->
   result = refused)
  /\ (forall kind,
        field "command" message = Some (JStr kind) ->
        existsb (String.eqb kind) validTypes = true ->
        (result = refused
         <-> truthy (field "params" message) = true
             /\ typeof_object (field "params" message) = false)).
Proof.
  intros result refused. subst result refused. unfold handleCommand.
  match goal with |- context [validateCommand ?c] => set (command := c) end.
  split.
  - intros Hcmd Htype.
    assert (Hv : validateCommand command = false).
    { subst command. unfold validateCommand. cbn [cmd_type cmd_params].
      unfold or_else. by rewrite Hcmd, Htype. }
    by rewrite Hv.
  - intros kind Hkind Hvalid.
    pose proof (validTypes_truthy kind Hvalid) as Htruthy.
    assert (Hv : validateCommand command
                 = negb (truthy (field "params" message)
                         && negb (typeof_object (field "params" message)))).
    { subst command. unfold validateCommand. cbn [cmd_type cmd_params].
      unfold or_else. rewrite Hkind, Htruthy. cbn [includes_value].
      rewrite Hvalid. cbn [negb].
      destruct (truthy (field "params" message)) eqn:Hp.
      - rewrite Hp. by destruct (typeof_object (field "params" message)).
      - reflexivity. }
    rewrite Hv.
    destruct (truthy (field "params" message));
      destruct (typeof_object (field "params" message)); cbn [negb andb];
      try (split; [done | by intros [? ?]]);
      (split; [|by intros [? ?]]);
      destruct (checkRateLimit clientId nowMs s) as [[|] s1]; cbn [negb]; intros [= ?].
Qed.

Lemma command_frame_validation_witness :
  handleCommand "client_1" [("type", JStr "command"); ("params", JObj [])] "cmd_1" 2000
    Examples.client0
  = (ErrorSent "INVALID_PARAMS" "Invalid command parameters", Examples.client0).
Proof.
  destruct (command_frame_validation "client_1"
              [("type", JStr "command"); ("params", JObj [])] "cmd_1" 2000
              Examples.client0) as [H _].
  apply H; reflexivity.
Defined.

(** X10.  A valid [command] frame of a registered client whose window is open and
    not used up is queued: the command carries the id of the frame, or the
    generated one when the frame has none, the client's counter goes up by
    one, and the pending commands are not touched. *)
Theorem command_frame_accepted (clientId : string) (message : list (string * JSON))
    (generated kind : string) (nowMs n w : Z) (s : State) :
  field "command" message = Some (JStr kind) ->
  existsb (String.eqb kind) validTypes = true ->
  truthy (field "params" message) = false
  \/ typeof_object (field "params" message) = true ->
  rateLimitOf clientId s = Some {| requests := n; windowStart := w |} ->
  nowMs - w <= 60000 ->
  n < 100 ->
  exists command s',
    handleCommand clientId message generated nowMs s = (Enqueued command, s')
    /\ cmd_type command = Some (JStr kind)
    /\ cmd_id command = or_else (field "id" message) (Some (JStr generated))
    /\ cmd_clientId command = clientId
    /\ rateLimitOf clientId s' = Some {| requests := n + 1; windowStart := w |}
    /\ sameCorrelator s s'.
Proof.
  intros Hkind Hvalid Hparams Hrl Hwin Hn.
  pose proof (validTypes_truthy kind Hvalid) as Htruthy.
  destruct (RateLimitFacts.checkRateLimit_allowed clientId nowMs s n w Hrl Hwin Hn)
    as (s' & Hcheck & Hrl').
  pose proof (CorrelatorFacts.sameCorrelator_checkRateLimit clientId nowMs s) as Hsame.
  rewrite Hcheck in Hsame.
  unfold handleCommand.
  match goal with |- context [validateCommand ?c] => set (command := c) end.
  assert (Hv : validateCommand
                 {| cmd_id := or_else (field "id" message) (Some (JStr generated));
                    cmd_type := or_else (field "command" message) (field "type" message);
                    cmd_params := or_else (field "params" message) (Some (JObj []));
                    cmd_timestamp := nowMs;
                    cmd_timeout := or_else (field "timeout" message) (Some (JNum 30000));
                    cmd_retryCount := Some 0;
                    cmd_maxRetries := or_else (field "maxRetries" message) (Some (JNum 3));
                    cmd_priority := or_else (field "priority" message) (Some (JStr "normal"));
                    cmd_clientId := clientId |} = true).
  { unfold validateCommand. cbn [cmd_type cmd_params].
    unfold or_else. rewrite Hkind, Htruthy. cbn [includes_value].
    rewrite Hvalid. cbn [negb].
    destruct (truthy (field "params" message)) eqn:Hp.
    - destruct Hparams as [?|Ho]; [done|]. by rewrite ?Hp, ?Ho.
    - reflexivity. }
  fold command in Hv. rewrite Hv, Hcheck. cbn [negb].
  exists command, s'. split; [reflexivity|]. subst command.
  cbn [cmd_type cmd_id cmd_clientId].
  cbn [snd] in Hsame.
  split; [unfold or_else; by rewrite Hkind, Htruthy|].
  split; [reflexivity|]. split; [reflexivity|]. split; [exact Hrl' | exact Hsame].
Qed.

Lemma command_frame_accepted_witness :
  exists command s',
    handleCommand "client_1" [("type", JStr "command"); ("command", JStr "click")]
      "cmd_1" 2000 Examples.client0 = (Enqueued command, s')
    /\ cmd_id command = Some (JStr "cmd_1")
    /\ rateLimitOf "client_1" s' = Some {| requests := 1; windowStart := 1000 |}.
Proof.
  destruct (command_frame_accepted "client_1"
              [("type", JStr "command"); ("command", JStr "click")]
              "cmd_1" "click" 2000 0 1000 Examples.client0)
    as (command & s' & Hr & _ & Hid & _ & Hrl & _).
  - reflexivity.
  - reflexivity.
  - by left.
  - reflexivity.
  - lia.
  - lia.
  - exists command, s'. split; [exact Hr|]. split; [exact Hid | exact Hrl].
Defined.

End DispatchProperties.

Module StringFacts.
Import Js.

Lemma prefix_app (p s : string) : String.prefix p (p ++ s) = true.
Proof.
  induction p as [|c p IH]; simpl; [by destruct s|].
  by destruct (ascii_dec c c).
Qed.

Lemma prefix_spec (p s : string) :
  String.prefix p s = true <-> exists rest, s = p ++ rest.
Proof.
  split.
  - revert s. induction p as [|c p IH]; intros s H; simpl in *; [by exists s|].
    destruct s as [|c' s]; simpl in H; [done|].
    destruct (ascii_dec c c') as [<-|]; [|done].
    destruct (IH s H) as [rest ->]. by exists rest.
  - intros [rest ->]. apply prefix_app.
Qed.

Lemma drop_app (p s : string) : drop (String.length p) (p ++ s) = s.
Proof. induction p as [|c p IH]; simpl; [by destruct s | done]. Qed.

Lemma string_app_assoc (a b c : string) : (a ++ b) ++ c = a ++ (b ++ c).
Proof.
  induction a as [|x a IH]; [done|].
  change (String x ((a ++ b) ++ c) = String x (a ++ (b ++ c))). by rewrite IH.
Qed.

(** [includes] is the substring test. *)
Lemma includes_spec (s needle : string) :
  includes s needle = true <-> exists before after, s = before ++ needle ++ after.
Proof.
  split.
  - induction s as [|c s IH]; cbn [includes].
    + rewrite orb_false_r. intros H. apply prefix_spec in H as [rest ->].
      by exists EmptyString, rest.
    + intros H. apply orb_true_iff in H as [H|H].
      * apply prefix_spec in H as [rest ->]. by exists EmptyString, rest.
      * destruct (IH H) as (before & after & ->). by exists (String c before), after.
  - intros (before & after & ->). induction before as [|c before IH].
    + change (EmptyString ++ needle ++ after) with (needle ++ after).
      destruct (needle ++ after) eqn:E; cbn [includes]; rewrite <- E, prefix_app; done.
    + change (String c before ++ needle ++ after)
        with (String c (before ++ needle ++ after)).
      cbn [includes]. rewrite IH. apply orb_true_r.
Qed.

Lemma includes_trans (s a b : string) :
  includes s a = true -> includes a b = true -> includes s b = true.
Proof.
  intros H1 H2. apply includes_spec in H1 as (p & q & ->).
  apply includes_spec in H2 as (p' & q' & ->). apply includes_spec.
  exists (p ++ p'), (q' ++ q). by rewrite !string_app_assoc.
Qed.

Lemma replace_first_prefix (pat by_ s : string) :
  replace_first pat by_ (pat ++ s) = by_ ++ s.
Proof.
  destruct (pat ++ s) eqn:E; cbn [replace_first]; rewrite <- E, prefix_app, drop_app; done.
Qed.

Lemma replace_first_absent (pat by_ s : string) :
  includes s pat = false -> replace_first pat by_ s = s.
Proof.
  induction s as [|c s IH]; cbn [includes replace_first]; intros H;
    apply orb_false_iff in H as [Hp H].
  - by rewrite Hp.
  - by rewrite Hp, IH.
Qed.

End StringFacts.

Module ToolCallProperties.
Import Js Types Runtime ErrorHandler RetryManager Server Observe Invariants.
Import RetryFacts StringFacts.

Section WithSerializer.
Variable JSON_stringify : JSON -> string.

Local Abbreviation mcp := (handleMCPProtocol JSON_stringify).

(** X11.  The [browser_] prefix of a tool name is optional: a tool called by the
    bare command name is handled exactly as the tool with the prefix, and a
    name that does not contain [browser_] is used as the command kind as it
    is. *)
Theorem tool_prefix_optional cfg o rid (kind : string) args s
    (st : gmap string Breaker) e :
  includes kind "browser_" = false ->
  mcp cfg o {| method := "tools/call"; request_id := rid;
               params := Some {| name := Some (JStr ("browser_" ++ kind));
                                 arguments := args |} |} s st e
  = mcp cfg o {| method := "tools/call"; request_id := rid;
                 params := Some {| name := Some (JStr kind); arguments := args |} |} s st e
  /\ replace_first "browser_" EmptyString kind = kind
  /\ replace_first "browser_" EmptyString ("browser_" ++ kind) = kind.
Proof.
  intros Habsent.
  pose proof (replace_first_absent "browser_" EmptyString kind Habsent) as H1.
  pose proof (replace_first_prefix "browser_" EmptyString kind) as H2.
  change (EmptyString ++ kind) with kind in H2.
  split; [|by split].
  unfold handleMCPProtocol. cbn [method params name arguments request_id].
  by rewrite H1, H2.
Qed.

(** X12.  What [tools/call] answers. A call whose [params] are missing, or
    whose [name] is not a string, raises a [TypeError] before anything else
    is looked at: no reply is built, whether a client is registered or not,
    and neither the breaker table nor the environment changes. For a name
    that is a string: without a registered client the answer is "No
    connected clients" and neither the breaker table nor the environment
    changes, so the operation is not invoked; with one, the call always
    completes, with a result that carries the value the operation resolved
    with or with the error -32603 whose message is "Command failed: "
    followed by the message thrown; the reply carries the id of the
    request. *)
Theorem tools_call_reply cfg o rid call s (st : gmap string Breaker) e :
  let request := {| method := "tools/call"; request_id := rid; params := Some call |} in
  mcp cfg o {| method := "tools/call"; request_id := rid; params := None |} s st e
  = (Raises, st, e)
  /\ ((forall toolName, name call <> Some (JStr toolName)) ->
      mcp cfg o request s st e = (Raises, st, e))
  /\ (forall toolName,
        name call = Some (JStr toolName) ->
        (ClientManager.getAllClients (clientManager s) = [] ->
         mcp cfg o request s st e
         = (ErrorReply rid (-32603) "No connected clients", st, e))
        /\ (ClientManager.getAllClients (clientManager s) <> [] ->
            let '(completion, st', e') :=
              executeWithRetry JSON_stringify cfg o
                (replace_first "browser_" EmptyString toolName) (arguments call) st e in
            (exists value,
               completion = Returns value
               /\ mcp cfg o request s st e = (ToolResult rid value, st', e'))
            \/ (exists thrown,
                  completion = Throws thrown
                  /\ mcp cfg o request s st e
                     = (ErrorReply rid (-32603) ("Command failed: " ++ thrown),
                        st', e')))).
Proof.
  intros request. subst request. unfold handleMCPProtocol.
  cbn [method params request_id]. split; [reflexivity|]. split.
  - intros Hname. destruct (name call) as [[| | |toolName| |]|]; try reflexivity.
    by destruct (Hname toolName).
  - intros toolName ->. split.
    + by intros ->.
    + intros Hclients.
      destruct (ClientManager.getAllClients (clientManager s)) as [|client rest]; [done|].
      pose proof (RetryClaims.executeWithRetry_finishes JSON_stringify cfg o
                    (replace_first "browser_" EmptyString toolName) (arguments call) st e)
        as Hfin.
      destruct (executeWithRetry _ _ _ _ _ _ _) as [[completion st'] e'].
      destruct completion as [value|thrown|]; [left; eauto | right; eauto | done].
Qed.

End WithSerializer.

Lemma tool_prefix_optional_witness :
  replace_first "browser_" EmptyString "navigate" = "navigate".
Proof.
  destruct (tool_prefix_optional Examples.compact createRetryManager
              Examples.alwaysTimesOut None "navigate" None Examples.client0 ∅
              Examples.startEnv) as (_ & H & _).
  - reflexivity.
  - exact H.
Defined.

Lemma tools_call_reply_witness :
  handleMCPProtocol Examples.compact createRetryManager Examples.alwaysTimesOut
    Examples.bogusCall initial ∅ Examples.startEnv
  = (ErrorReply (Some (JNum 7)) (-32603) "No connected clients", ∅, Examples.startEnv)
  /\ handleMCPProtocol Examples.compact createRetryManager Examples.alwaysTimesOut
       {| method := "tools/call"; request_id := Some (JNum 7);
          params := Some {| name := Some (JNum 5); arguments := None |} |}
       Examples.client0 ∅ Examples.startEnv
     = (Raises, ∅, Examples.startEnv).
Proof.
  split.
  - destruct (tools_call_reply Examples.compact createRetryManager Examples.alwaysTimesOut
                (Some (JNum 7))
                {| name := Some (JStr "browser_bogus"); arguments := Some (JStr "oops") |}
                initial ∅ Examples.startEnv) as (_ & _ & H).
    destruct (H "browser_bogus" eq_refl) as [H0 _]. apply H0. reflexivity.
  - destruct (tools_call_reply Examples.compact createRetryManager Examples.alwaysTimesOut
                (Some (JNum 7)) {| name := Some (JNum 5); arguments := None |}
                Examples.client0 ∅ Examples.startEnv) as (_ & H & _).
    apply H. intros toolName. discriminate.
Defined.

End ToolCallProperties.

(** ** Error classification and backoff *)

Module ErrorProperties.
Import Js Number Types Runtime ErrorHandler RetryManager Observe Invariants StringFacts.
Import Double DoubleFacts.

Local Ltac listed := apply (bool_decide_unpack _); by vm_compute.

Local Ltac retried_code :=
  split; [listed|]; intros _; split; [listed|];
  let rc := fresh "rc" in
  let strategy := fresh "strategy" in
  let Hl := fresh "Hl" in
  let E := fresh "E" in
  intros rc strategy Hl; unfold shouldRetry; rewrite Hl;
  destruct (Z.of_nat rc >=? maxRetries strategy) eqn:E;
    [symmetry; apply Z.ltb_ge; lia|];
  rewrite bool_decide_eq_true_2 by listed;
  symmetry; apply Z.ltb_lt; lia.

(** X13.  The codes [extractErrorCode] can give. The test for "tab not found"
    comes after the test for "not found", which every such message passes:
    the code TAB_NOT_FOUND is never given, and neither are ELEMENT_NOT_FOUND,
    INVALID_PARAMS, AUTHENTICATION_FAILED, RATE_LIMIT_EXCEEDED and
    COMMAND_FAILED, for which there is no test. A message that contains
    "tab not found" in any letter case gets a code of the TIMEOUT, NETWORK or
    SELECTOR category, which the default strategy retries. *)
Theorem extractErrorCode_range (errorMessage : string) :
  extractErrorCode errorMessage
  ∈ [TIMEOUT; NETWORK_ERROR; CLOUDFLARE_BLOCK; SELECTOR_NOT_FOUND;
     ELEMENT_NOT_VISIBLE; ELEMENT_NOT_INTERACTABLE; NAVIGATION_FAILED;
     PERMISSION_DENIED; INVALID_URL; STORAGE_ERROR; COOKIE_ERROR; SCRIPT_ERROR;
     UNKNOWN]
  /\ (includes (toLowerCase errorMessage) "tab not found" = true ->
      extractErrorCode errorMessage
      ∈ [TIMEOUT; NETWORK_ERROR; CLOUDFLARE_BLOCK; SELECTOR_NOT_FOUND]
      /\ forall retryCount strategy,
           retryableErrors strategy = defaultRetryableErrors ->
           shouldRetry (extractErrorCode errorMessage) retryCount strategy
           = (Z.of_nat retryCount <? maxRetries strategy)%Z).
Proof.
  assert (Hsub : forall m, includes m "tab not found" = true ->
                           includes m "not found" = true).
  { intros m H. eapply includes_trans; [exact H | reflexivity]. }
  unfold extractErrorCode. set (message := toLowerCase errorMessage).
  destruct (includes message "timeout") eqn:H1.
  { retried_code. }
  destruct (includes message "network") eqn:H2.
  { retried_code. }
  destruct (includes message "cloudflare") eqn:H3.
  { retried_code. }
  destruct (includes message "selector" || includes message "not found") eqn:H4.
  { retried_code. }
  apply orb_false_iff in H4 as [_ Hnf].
  assert (Htab : includes message "tab not found" = false).
  { destruct (includes message "tab not found") eqn:E; [|done].
    apply Hsub in E. congruence. }
  rewrite Htab. split; [|done].
  repeat (match goal with |- context [if ?b then _ else _] => destruct b end;
          [listed|]).
  listed.
Qed.

Lemma extractErrorCode_range_witness :
  extractErrorCode "Tab not found" ∈ [TIMEOUT; NETWORK_ERROR; CLOUDFLARE_BLOCK; SELECTOR_NOT_FOUND].
Proof.
  destruct (extractErrorCode_range "Tab not found") as [_ H].
  destruct H as [H _]; [reflexivity | exact H].
Defined.

(** X14.  The recoverable flag of an error context says whether the default
    strategy would retry the error: it is set exactly for the codes of the
    NETWORK, SELECTOR and TIMEOUT categories, which are exactly the codes the
    default strategies list as retryable. *)
Theorem recoverable_is_default_retryable cfg command params errorCode retryCount e :
  let context := createErrorContext cfg command params errorCode retryCount e in
  (ctx_recoverable context = true
   <-> ctx_category context = ErrorCategory.NETWORK
       \/ ctx_category context = ErrorCategory.SELECTOR
       \/ ctx_category context = ErrorCategory.TIMEOUT)
  /\ ctx_recoverable context = bool_decide (errorCode ∈ defaultRetryableErrors)
  /\ ctx_retryCount context = retryCount
  /\ ctx_timestamp context = now e.
Proof.
  cbn [createErrorContext ctx_recoverable ctx_category ctx_retryCount ctx_timestamp].
  split; [|by split].
  destruct errorCode; cbn [categorizeError];
    (destruct (isRecoverable _) eqn:E; vm_compute in E; try discriminate E);
    (split; [intros H; first [discriminate H | auto]
            | intros [H|[H|H]]; first [discriminate H | reflexivity]]).
Qed.

(** X15.  The cap of the backoff, in the doubles of the code. For every
    strategy, attempt index and random value of [0, 1), when the delay before
    jitter is not negative (so it is not NaN either) and [maxDelay] plus a
    tenth of it is finite: the delay before jitter does not exceed
    [maxDelay], and the delay returned is a whole number from 0 to the floor
    of [maxDelay + 0.1 * maxDelay], whatever the attempt index and whatever
    [Math.pow] returns. *)
Theorem backoff_capped (pow : float -> float -> float) strategy retryCount (r : float) :
  (0 <=? r)%float = true -> (r <? 1)%float = true ->
  let d := backoffDelay pow strategy retryCount in
  let cap := maxDelay strategy in
  (0 <=? d)%float = true ->
  is_finite (cap + tenth * cap)%float = true ->
  (d <=? cap)%float = true
  /\ exists z top,
       calculateRetryDelay pow strategy retryCount r = Int z
       /\ Math_floor (cap + tenth * cap)%float = Int top
       /\ (0 <= z <= top)%Z.
Proof.
  intros Hr0 Hr1 d cap Hd0 Hfin.
  destruct (Math_min_le _ _ Hd0) as [Hle Hcap]. fold cap in Hle, Hcap.
  change (Math_min _ cap) with d in Hle.
  split; [exact Hle|].
  pose proof (zero_leb d Hd0) as Hdn.
  pose proof (leb_mag d cap Hle Hdn Hcap) as Hmag.
  destruct (range_top_mono d cap Hdn Hcap Hmag Hfin) as (Hfin' & hi & top' & Hhi & Htop & Hht).
  destruct (jitter_range d r Hr0 Hr1 Hd0 Hfin')
    as (lo & z & hi' & _ & Hz & Hhi' & Hlo & Hzh).
  rewrite Hhi in Hhi'. injection Hhi' as <-.
  exists z, top'. split; [exact Hz|]. split; [exact Htop | lia].
Qed.

Lemma backoff_capped_witness :
  exists z, calculateRetryDelay Examples.powerOf Examples.shippedStrategy 5 0.5%float = Int z
            /\ (0 <= z <= 11000)%Z.
Proof.
  destruct (backoff_capped Examples.powerOf Examples.shippedStrategy 5 0.5%float)
    as (_ & z & top' & Hz & Htop & Hle).
  - reflexivity.
  - reflexivity.
  - reflexivity.
  - reflexivity.
  - exists z. split; [exact Hz|].
    assert (E : top' = 11000%Z) by (vm_compute in Htop; congruence).
    rewrite <- E. exact Hle.
Defined.

End ErrorProperties.

(** ** More on the retry loop and the breaker *)

Module RetryMoreFacts.
Import Js Types Runtime ErrorHandler RetryManager Observe BreakerObserve.
Import BreakerFacts RetryFacts.

Section Loop.
Variables (cfg : RetryManagerConfig) (o : Oracle) (command : string)
          (params : option JSON) (key : string).

Let strategy := getRetryStrategy (errorHandler cfg) command.

(** The table the loop returns: the one it was given when the bound ran
    out, that one with the key reset when it returned, and that one with a
    failure recorded when it threw. *)
Lemma retryLoop_table fuel : forall retryCount st e,
  match retryLoop fuel cfg o command params key retryCount st e with
  | (Returns _, st', _) => st' = resetCircuitBreaker key st
  | (Throws _, st', e') => st' = recordFailure cfg key (now e') st
  | (Unfinished, st', _) => st' = st
  end.
Proof.
  induction fuel as [|fuel IH]; intros retryCount st e; [done|].
  destruct (attempt o (calls e)) as [v|m] eqn:Ha.
  - by rewrite (retryLoop_resolves _ _ _ _ _ _ _ _ _ v Ha).
  - destruct (shouldRetry (extractErrorCode m) retryCount strategy) eqn:Hs.
    + destruct (retryLoop_retries cfg o command params key fuel retryCount st e m Ha Hs)
        as (e3 & -> & _).
      apply IH.
    + by rewrite (retryLoop_gives_up cfg o command params key _ _ _ _ m Ha Hs).
Qed.

Lemma retryLoop_calls_bound fuel : forall retryCount st e,
  (calls (snd (retryLoop fuel cfg o command params key retryCount st e))
   <= calls e + fuel)%nat.
Proof.
  induction fuel as [|fuel IH]; intros retryCount st e; [simpl; lia|].
  destruct (attempt o (calls e)) as [v|m] eqn:Ha.
  - rewrite (retryLoop_resolves _ _ _ _ _ _ _ _ _ v Ha). simpl. lia.
  - destruct (shouldRetry (extractErrorCode m) retryCount strategy) eqn:Hs.
    + destruct (retryLoop_retries cfg o command params key fuel retryCount st e m Ha Hs)
        as (e3 & -> & Hc).
      specialize (IH (S retryCount) st e3). lia.
    + rewrite (retryLoop_gives_up cfg o command params key _ _ _ _ m Ha Hs). simpl. lia.
Qed.

(** [k] failures the strategy retries, then a success. *)
Lemma retryLoop_succeeds_after k : forall fuel retryCount st e v,
  (k < fuel)%nat ->
  Z.of_nat retryCount + Z.of_nat k <= maxRetries strategy ->
  (forall i, (i < k)%nat ->
     exists m, attempt o (calls e + i) = Rejects m
               /\ extractErrorCode m ∈ retryableErrors strategy) ->
  attempt o (calls e + k) = Resolves v ->
  exists e',
    retryLoop fuel cfg o command params key retryCount st e
    = (Returns v, resetCircuitBreaker key st, e')
    /\ calls e' = (calls e + S k)%nat.
Proof.
  induction k as [|k IH]; intros fuel retryCount st e v Hfuel Hbudget Hfail Hok;
    (destruct fuel as [|fuel]; [lia|]).
  - rewrite Nat.add_0_r in Hok.
    rewrite (retryLoop_resolves _ _ _ _ _ _ _ _ _ v Hok).
    eexists. split; [reflexivity|]. simpl. lia.
  - destruct (Hfail 0%nat) as (m & Ha & Hin); [lia|]. rewrite Nat.add_0_r in Ha.
    assert (Hs : shouldRetry (extractErrorCode m) retryCount strategy = true).
    { unfold shouldRetry.
      destruct (Z.of_nat retryCount >=? maxRetries strategy) eqn:E; [lia|].
      by apply bool_decide_eq_true. }
    destruct (retryLoop_retries cfg o command params key fuel retryCount st e m Ha Hs)
      as (e3 & -> & Hc).
    destruct (IH fuel (S retryCount) st e3 v) as (e' & Hr & Hcalls).
    + lia.
    + lia.
    + intros i Hi. rewrite Hc.
      replace (S (calls e) + i)%nat with (calls e + S i)%nat by lia. apply Hfail. lia.
    + rewrite Hc. by replace (S (calls e) + k)%nat with (calls e + S k)%nat by lia.
    + exists e'. split; [done|]. lia.
Qed.

End Loop.

Lemma breakerOk_recordFailure cfg key nowMs (st : gmap string Breaker) :
  breakersOk cfg st -> breakersOk cfg (recordFailure cfg key nowMs st).
Proof.
  intros Hok k b. unfold recordFailure.
  destruct (decide (key = k)) as [<-|Hne]; [|rewrite lookup_insert_ne by done; apply Hok].
  rewrite lookup_insert_eq. intros [= <-].
  assert (Hb : breakerOk cfg (default freshBreaker (st !! key))).
  { destruct (st !! key) as [b|] eqn:E; [by eapply Hok|].
    simpl. unfold breakerOk. simpl. split; [lia|]. split; [done | by right]. }
  destruct Hb as (H0 & Hopen & Hclosed). unfold breakerOk. simpl.
  destruct (failures (default freshBreaker (st !! key)) + 1 >=? circuitBreakerThreshold cfg)
    eqn:E.
  - split; [lia|]. split; [lia | done].
  - split; [lia|]. split.
    + intros Hs. specialize (Hopen Hs). lia.
    + intros _. left. lia.
Qed.

Lemma breakerOk_resetCircuitBreaker cfg key (st : gmap string Breaker) :
  breakersOk cfg st -> breakersOk cfg (resetCircuitBreaker key st).
Proof.
  intros Hok k b. unfold resetCircuitBreaker.
  destruct (st !! key) as [b0|] eqn:E; [|apply Hok].
  destruct (decide (key = k)) as [<-|Hne]; [|rewrite lookup_insert_ne by done; apply Hok].
  rewrite lookup_insert_eq. intros [= <-]. unfold breakerOk. simpl.
  split; [lia|]. split; [done | by right].
Qed.

Lemma breakerOk_isCircuitBreakerOpen cfg key nowMs (st : gmap string Breaker) :
  breakersOk cfg st -> breakersOk cfg (snd (isCircuitBreakerOpen cfg key nowMs st)).
Proof.
  intros Hok. unfold isCircuitBreakerOpen.
  destruct (st !! key) as [b|] eqn:E; [|done].
  destruct (state b) eqn:Es; try done.
  destruct (nowMs - lastFailureTime b >? circuitBreakerTimeout cfg); [|done].
  intros k b'. simpl.
  destruct (decide (key = k)) as [<-|Hne]; [|rewrite lookup_insert_ne by done; apply Hok].
  rewrite lookup_insert_eq. intros [= <-].
  destruct (Hok _ _ E) as (H0 & Hopen & _). unfold breakerOk. simpl.
  split; [done|]. split; [|done]. intros _. apply Hopen. by rewrite Es.
Qed.

End RetryMoreFacts.

Module RetryProperties.
Import Js Types Runtime ErrorHandler RetryManager Observe BreakerObserve.
Import BreakerFacts RetryFacts RetryMoreFacts.

Section WithSerializer.
Variable JSON_stringify : JSON -> string.

Local Abbreviation keyOf := (circuitBreakerKey JSON_stringify).
Local Abbreviation execute := (executeWithRetry JSON_stringify).

Lemma isCircuitBreakerOpen_other cfg key nowMs (st : gmap string Breaker) other :
  other <> key -> snd (isCircuitBreakerOpen cfg key nowMs st) !! other = st !! other.
Proof.
  intros Hne. unfold isCircuitBreakerOpen.
  destruct (st !! key) as [b|]; [|done].
  destruct (state b); try done.
  destruct (nowMs - lastFailureTime b >? circuitBreakerTimeout cfg); [|done].
  simpl. by rewrite lookup_insert_ne.
Qed.

(** X16.  The loop of [executeWithRetry] leaves by itself. Run for any
    number of iterations that is at least [maxRetries + 1] (one, when
    [maxRetries] is negative), it has returned or thrown, whatever the
    operation does, after invoking the operation at least once and at most
    [maxRetries + 1] times, and it gives the answer [executeWithRetry]
    gives: letting it run longer changes nothing. So one call of
    [executeWithRetry] invokes the operation at most [maxRetries + 1] times,
    and never takes an invocation back. *)
Theorem retry_attempts_bounded cfg o command params (st : gmap string Breaker) e :
  let bound := S (Z.to_nat (maxRetries (getRetryStrategy (errorHandler cfg) command))) in
  let e' := snd (execute cfg o command params st e) in
  (calls e <= calls e')%nat
  /\ (calls e' <= calls e + bound)%nat
  /\ (forall fuel key retryCount (table : gmap string Breaker) env,
        (bound <= fuel)%nat ->
        let run := retryLoop fuel cfg o command params key retryCount table env in
        fst (fst run) <> Unfinished
        /\ (calls env < calls (snd run) <= calls env + bound)%nat
        /\ run = retryLoop bound cfg o command params key retryCount table env)
  /\ (fst (isCircuitBreakerOpen cfg (keyOf command params) (now e) st) = false ->
      forall fuel, (bound <= fuel)%nat ->
        retryLoop fuel cfg o command params (keyOf command params) 0
          (snd (isCircuitBreakerOpen cfg (keyOf command params) (now e) st)) e
        = execute cfg o command params st e).
Proof.
  intros bound e'.
  assert (Hloop : forall fuel key retryCount (table : gmap string Breaker) env,
             (bound <= fuel)%nat ->
             fst (fst (retryLoop fuel cfg o command params key retryCount table env))
             <> Unfinished
             /\ (calls env
                 < calls (snd (retryLoop fuel cfg o command params key retryCount table env))
                 <= calls env + bound)%nat
             /\ retryLoop fuel cfg o command params key retryCount table env
                = retryLoop bound cfg o command params key retryCount table env).
  { intros fuel key retryCount table env Hfuel.
    assert (Hfin : fst (fst (retryLoop bound cfg o command params key retryCount
                               table env)) <> Unfinished).
    { apply retryLoop_finishes. unfold bound. lia. }
    assert (Heq : retryLoop fuel cfg o command params key retryCount table env
                  = retryLoop bound cfg o command params key retryCount table env).
    { replace fuel with (bound + (fuel - bound))%nat by lia.
      by apply retryLoop_bound_irrelevant. }
    rewrite Heq. split; [done|]. split; [|done]. split.
    - apply retryLoop_invokes.
    - apply retryLoop_calls_bound. }
  subst e'. unfold executeWithRetry.
  destruct (isCircuitBreakerOpen _ _ _ _) as [[|] st1]; cbn [fst snd].
  - split; [lia|]. split; [lia|]. split; [exact Hloop | intros [=]].
  - split; [apply retryLoop_calls_le|]. split; [apply retryLoop_calls_bound|].
    split; [exact Hloop|]. intros _ fuel Hfuel.
    by destruct (Hloop fuel (keyOf command params) 0%nat st1 e Hfuel) as (_ & _ & ->).
Qed.

(** X17.  A call changes the breaker of its own key only: the breaker of every
    other key is the same after the call as before, however the call ends.
    And a call that returns leaves its own key closed with a count of 0,
    also when it returned after retries. *)
Theorem breaker_key_isolation cfg o command params (st : gmap string Breaker) e :
  let '(completion, st', e') := execute cfg o command params st e in
  (forall other, other <> keyOf command params -> st' !! other = st !! other)
  /\ (forall value, completion = Returns value ->
        failures (breakerOf (keyOf command params) st') = 0
        /\ state (breakerOf (keyOf command params) st') = CLOSED).
Proof.
  unfold executeWithRetry.
  pose proof (isCircuitBreakerOpen_other cfg (keyOf command params) (now e) st) as Hother.
  destruct (isCircuitBreakerOpen _ _ _ _) as [[|] st1]; simpl in Hother.
  - split; [done | intros value [=]].
  - pose proof (retryLoop_table cfg o command params (keyOf command params)
                  (attemptBound cfg command) 0 st1 e) as Htable.
    destruct (retryLoop _ _ _ _ _ _ _ _ _) as [[completion st'] e'].
    destruct completion as [value|thrown|]; subst st'.
    + split.
      * intros other Hne. rewrite resetCircuitBreaker_other; [by apply Hother | done].
      * intros _ _. apply breakerOf_resetCircuitBreaker.
    + split; [|intros value [=]].
      intros other Hne. rewrite recordFailure_other; [by apply Hother | done].
    + split; [done | intros value [=]].
Qed.

(** X18.  Failures the strategy retries, followed by a success: when the first
    [k] attempts fail with retryable errors, [k] is within the retry budget
    and the next attempt succeeds, the call returns the value of that
    attempt after [k + 1] invocations, and no failure is recorded: the key is
    left closed with a count of 0. *)
Theorem retry_then_success cfg o command params (st : gmap string Breaker) e
    (k : nat) value :
  let strategy := getRetryStrategy (errorHandler cfg) command in
  fst (isCircuitBreakerOpen cfg (keyOf command params) (now e) st) = false ->
  Z.of_nat k <= maxRetries strategy ->
  (forall i, (i < k)%nat ->
     exists m, attempt o (calls e + i) = Rejects m
               /\ extractErrorCode m ∈ retryableErrors strategy) ->
  attempt o (calls e + k) = Resolves value ->
  exists st' e',
    execute cfg o command params st e = (Returns value, st', e')
    /\ calls e' = (calls e + S k)%nat
    /\ failures (breakerOf (keyOf command params) st') = 0
    /\ state (breakerOf (keyOf command params) st') = CLOSED.
Proof.
  intros strategy Hclosed Hk Hfail Hok. unfold executeWithRetry.
  destruct (isCircuitBreakerOpen _ _ _ _) as [isOpen st1]. simpl in Hclosed. subst isOpen.
  destruct (retryLoop_succeeds_after cfg o command params (keyOf command params) k
              (attemptBound cfg command) 0 st1 e value) as (e' & Hr & Hcalls).
  - unfold attemptBound. fold strategy. lia.
  - fold strategy. lia.
  - exact Hfail.
  - exact Hok.
  - exists (resetCircuitBreaker (keyOf command params) st1), e'.
    split; [done|]. split; [done|]. apply breakerOf_resetCircuitBreaker.
Qed.

(** X19.  The half-open probe. When the breaker of the key is open and more than
    the cooldown has passed since its last failure, the call is let through
    with the breaker half-open. If the first attempt succeeds the breaker is
    closed with a count of 0. If every attempt fails the breaker is open
    again, with one more failure and the time of this failure. The probe is
    a call like any other, not a single attempt: if every attempt fails with
    an error the strategy retries, the operation is invoked
    [maxRetries + 1] times before the breaker opens again. *)
Theorem half_open_probe cfg o command params (st : gmap string Breaker) e b :
  st !! keyOf command params = Some b ->
  state b = OPEN ->
  now e - lastFailureTime b > circuitBreakerTimeout cfg ->
  circuitBreakerThreshold cfg <= failures b + 1 ->
  let strategy := getRetryStrategy (errorHandler cfg) command in
  isCircuitBreakerOpen cfg (keyOf command params) (now e) st
  = (false, <[keyOf command params :=
               {| failures := failures b; lastFailureTime := lastFailureTime b;
                  state := HALF_OPEN |}]> st)
  /\ (forall value,
        attempt o (calls e) = Resolves value ->
        exists st' e',
          execute cfg o command params st e = (Returns value, st', e')
          /\ st' !! keyOf command params
             = Some {| failures := 0; lastFailureTime := lastFailureTime b;
                       state := CLOSED |})
  /\ ((forall i, exists m, attempt o i = Rejects m) ->
      exists m st' e',
        execute cfg o command params st e = (Throws m, st', e')
        /\ (calls e < calls e')%nat
        /\ st' !! keyOf command params
           = Some {| failures := failures b + 1; lastFailureTime := now e';
                     state := OPEN |})
  /\ ((forall i, exists m, attempt o i = Rejects m
                           /\ extractErrorCode m ∈ retryableErrors strategy) ->
      0 <= maxRetries strategy ->
      exists m st' e',
        execute cfg o command params st e = (Throws m, st', e')
        /\ calls e' = (calls e + S (Z.to_nat (maxRetries strategy)))%nat
        /\ attempt o (calls e + Z.to_nat (maxRetries strategy)) = Rejects m
        /\ st' !! keyOf command params
           = Some {| failures := failures b + 1; lastFailureTime := now e';
                     state := OPEN |}).
Proof.
  intros Hb Hopen Hcool Hthr strategy.
  assert (Hcheck : isCircuitBreakerOpen cfg (keyOf command params) (now e) st
            = (false, <[keyOf command params :=
                         {| failures := failures b; lastFailureTime := lastFailureTime b;
                            state := HALF_OPEN |}]> st)).
  { unfold isCircuitBreakerOpen. rewrite Hb, Hopen.
    destruct (now e - lastFailureTime b >? circuitBreakerTimeout cfg) eqn:E; [done | lia]. }
  assert (Hrecorded : forall t,
            recordFailure cfg (keyOf command params) t
              (<[keyOf command params :=
                  {| failures := failures b; lastFailureTime := lastFailureTime b;
                     state := HALF_OPEN |}]> st) !! keyOf command params
            = Some {| failures := failures b + 1; lastFailureTime := t; state := OPEN |}).
  { intros t. unfold recordFailure. rewrite !lookup_insert_eq. simpl.
    destruct (failures b + 1 >=? circuitBreakerThreshold cfg) eqn:E; [done | lia]. }
  split; [exact Hcheck|]. unfold executeWithRetry. rewrite Hcheck.
  split; [|split].
  - intros value Ha. unfold attemptBound.
    rewrite (retryLoop_resolves _ _ _ _ _ _ _ _ _ value Ha).
    eexists _, _. split; [reflexivity|].
    unfold resetCircuitBreaker. rewrite lookup_insert_eq. simpl.
    by rewrite lookup_insert_eq.
  - intros Hall.
    destruct (retryLoop_all_fail cfg o command params (keyOf command params)
                (attemptBound cfg command) 0
                (<[keyOf command params :=
                    {| failures := failures b; lastFailureTime := lastFailureTime b;
                       state := HALF_OPEN |}]> st) e Hall)
      as (m & e' & Hr & Hlt & _); [unfold attemptBound; lia|].
    eexists m, _, e'. split; [exact Hr|]. split; [done|]. apply Hrecorded.
  - intros Hall Hbudget.
    destruct (retryLoop_all_retryable cfg o command params (keyOf command params)
                (Z.to_nat (maxRetries strategy)) 0
                (<[keyOf command params :=
                    {| failures := failures b; lastFailureTime := lastFailureTime b;
                       state := HALF_OPEN |}]> st) e Hall)
      as (m & e' & Hr & Hcalls & Hlast); [fold strategy; lia|].
    eexists m, _, e'. split; [exact Hr|]. split; [done|]. split; [done|]. apply Hrecorded.
Qed.

(** X20.  Every call keeps the breaker table well formed: if before the call no
    stored count is negative, every breaker that is not closed has reached
    the threshold and every closed one is below it or at 0, the same holds
    after the call. The empty table is well formed. *)
Theorem breaker_table_invariant cfg o command params (st : gmap string Breaker) e :
  breakersOk cfg st ->
  breakersOk cfg (snd (fst (execute cfg o command params st e)))
  /\ breakersOk cfg (resetAllCircuitBreakers st).
Proof.
  intros Hok. split; [|intros k b; unfold resetAllCircuitBreakers; by rewrite lookup_empty].
  unfold executeWithRetry.
  pose proof (breakerOk_isCircuitBreakerOpen cfg (keyOf command params) (now e) st Hok)
    as Hok1.
  destruct (isCircuitBreakerOpen _ _ _ _) as [[|] st1]; simpl in Hok1; [done|].
  pose proof (retryLoop_table cfg o command params (keyOf command params)
                (attemptBound cfg command) 0 st1 e) as Htable.
  destruct (retryLoop _ _ _ _ _ _ _ _ _) as [[completion st'] e'].
  destruct completion as [value|thrown|]; subst st'; simpl.
  - by apply breakerOk_resetCircuitBreaker.
  - by apply breakerOk_recordFailure.
  - done.
Qed.

End WithSerializer.

Lemma retry_then_success_witness :
  exists st' e',
    executeWithRetry Examples.compact createRetryManager Examples.failsTwice "navigate"
      (Some (JObj [])) ∅ Examples.startEnv = (Returns (Some (JStr "ok")), st', e')
    /\ calls e' = 3%nat.
Proof.
  destruct (retry_then_success Examples.compact createRetryManager Examples.failsTwice
              "navigate" (Some (JObj [])) ∅ Examples.startEnv 2 (Some (JStr "ok")))
    as (st' & e' & Hr & Hc & _).
  - reflexivity.
  - by vm_compute.
  - intros i Hi. exists "Network error". split.
    + simpl. destruct i as [|[|i]]; [reflexivity | reflexivity | lia].
    + apply (bool_decide_unpack _). by vm_compute.
  - reflexivity.
  - exists st', e'. split; [exact Hr | exact Hc].
Defined.

Lemma half_open_probe_witness :
  let st5 := recordFailures createRetryManager "extract_{}" [10; 20; 30; 40; 50] ∅ in
  exists m st' e',
    executeWithRetry Examples.compact createRetryManager Examples.alwaysTimesOut
      "extract" (Some (JObj [])) st5 {| now := 70000; calls := 0; draws := 0 |}
    = (Throws m, st', e')
    /\ calls e' = 4%nat
    /\ st' !! "extract_{}"
       = Some {| failures := 6; lastFailureTime := now e'; state := OPEN |}.
Proof.
  intros st5.
  destruct (half_open_probe Examples.compact createRetryManager Examples.alwaysTimesOut
              "extract" (Some (JObj [])) st5 {| now := 70000; calls := 0; draws := 0 |}
              {| failures := 5; lastFailureTime := 50; state := OPEN |})
    as (_ & _ & _ & H).
  - reflexivity.
  - reflexivity.
  - by vm_compute.
  - by vm_compute.
  - destruct H as (m & st' & e' & Hr & Hcalls & _ & Hst).
    + intros i. exists "Command timeout". split; [reflexivity|].
      apply (bool_decide_unpack _). by vm_compute.
    + by vm_compute.
    + exists m, st', e'. split; [exact Hr|]. split; [exact Hcalls | exact Hst].
Defined.

Lemma breaker_table_invariant_witness :
  breakersOk createRetryManager
    (snd (fst (executeWithRetry Examples.compact createRetryManager
                 Examples.alwaysInvalidUrl "extract" (Some (JObj [])) ∅
                 Examples.startEnv))).
Proof.
  apply (breaker_table_invariant Examples.compact createRetryManager
           Examples.alwaysInvalidUrl "extract" (Some (JObj [])) ∅ Examples.startEnv).
  intros key b H. by rewrite lookup_empty in H.
Defined.

End RetryProperties.

Module TripProperties.
Import Js Types Runtime ErrorHandler RetryManager Observe BreakerObserve.
Import BreakerFacts RetryFacts RetryMoreFacts.

Section WithSerializer.
Variable JSON_stringify : JSON -> string.

Local Abbreviation keyOf := (circuitBreakerKey JSON_stringify).
Local Abbreviation execute := (executeWithRetry JSON_stringify).

Lemma closed_lets_through cfg key nowMs (st : gmap string Breaker) :
  state (breakerOf key st) = CLOSED ->
  isCircuitBreakerOpen cfg key nowMs st = (false, st).
Proof.
  unfold breakerOf, isCircuitBreakerOpen.
  destruct (st !! key) as [b|]; simpl; [|done]. by intros ->.
Qed.

Lemma executeTimes_failing cfg o command params (k : nat) :
  forall (st : gmap string Breaker) e,
  (forall i, exists m, attempt o i = Rejects m) ->
  state (breakerOf (keyOf command params) st) = CLOSED ->
  failures (breakerOf (keyOf command params) st) + Z.of_nat k
    <= circuitBreakerThreshold cfg ->
  exists results st' e',
    executeTimes JSON_stringify k cfg o command params st e = (results, st', e')
    /\ length results = k
    /\ Forall (fun c => exists m, c = Throws m) results
    /\ (calls e + k <= calls e')%nat
    /\ failures (breakerOf (keyOf command params) st')
       = failures (breakerOf (keyOf command params) st) + Z.of_nat k
    /\ ((0 < k)%nat ->
        lastFailureTime (breakerOf (keyOf command params) st') = now e'
        /\ state (breakerOf (keyOf command params) st')
           = if failures (breakerOf (keyOf command params) st) + Z.of_nat k
                >=? circuitBreakerThreshold cfg
             then OPEN else CLOSED).
Proof.
  induction k as [|k IH]; intros st e Hall Hclosed Hroom.
  - exists [], st, e. simpl. rewrite Z.add_0_r, Nat.add_0_r.
    split; [done|]. split; [done|]. split; [apply Forall_nil_2|].
    split; [done|]. split; [done|]. intros H. lia.
  - cbn [executeTimes]. unfold executeWithRetry.
    rewrite (closed_lets_through cfg _ (now e) st Hclosed).
    destruct (retryLoop_all_fail cfg o command params (keyOf command params)
                (attemptBound cfg command) 0 st e Hall)
      as (m & e1 & Hr & Hlt & _); [unfold attemptBound; lia|].
    rewrite Hr.
    set (st1 := recordFailure cfg (keyOf command params) (now e1) st).
    pose proof (breakerOf_recordFailure cfg (keyOf command params) (now e1) st) as Hb.
    fold st1 in Hb. rewrite Hclosed in Hb.
    destruct k as [|k].
    + exists [Throws m], st1, e1. cbn [executeTimes]. rewrite Hb. simpl.
      repeat split; try lia.
      repeat constructor. by exists m.
    + assert (Hlow : (failures (breakerOf (keyOf command params) st) + 1
                      >=? circuitBreakerThreshold cfg) = false) by lia.
      rewrite Hlow in Hb.
      destruct (IH st1 e1 Hall) as (results & st' & e' & Hr' & Hlen & Hthrows & Hcalls
                                     & Hcount & Hlast).
      * by rewrite Hb.
      * rewrite Hb. simpl. lia.
      * rewrite Hr'. exists (Throws m :: results), st', e'.
        rewrite Hb in Hcount, Hlast. simpl in Hcount, Hlast.
        split; [done|]. split; [simpl; lia|]. split; [constructor; eauto|].
        split; [lia|]. split; [lia|]. intros _.
        destruct Hlast as [Ht Hs]; [lia|]. split; [done|]. rewrite Hs.
        by replace (failures (breakerOf (keyOf command params) st) + 1 + Z.of_nat (S k))
          with (failures (breakerOf (keyOf command params) st) + Z.of_nat (S (S k)))
          by lia.
Qed.

(** X21.  Tripping the breaker. From a key whose breaker is closed with no
    failure counted, [n] calls in a row whose attempts all fail, with a
    threshold of [n >= 1]: every one of them invokes the operation and
    throws its error, and after them the breaker is open with a count of
    [n]. A further call made while no more than the cooldown has passed
    since the last of them throws the circuit-open error and leaves the
    table and the environment as they are: the operation is not invoked. *)
Theorem breaker_trips_then_short_circuits cfg o command params
    (st : gmap string Breaker) e (n : nat) :
  circuitBreakerThreshold cfg = Z.of_nat n ->
  (1 <= n)%nat ->
  failures (breakerOf (keyOf command params) st) = 0 ->
  state (breakerOf (keyOf command params) st) = CLOSED ->
  (forall i, exists m, attempt o i = Rejects m) ->
  exists results stN eN,
    executeTimes JSON_stringify n cfg o command params st e = (results, stN, eN)
    /\ length results = n
    /\ Forall (fun c => exists m, c = Throws m) results
    /\ (calls e + n <= calls eN)%nat
    /\ failures (breakerOf (keyOf command params) stN) = Z.of_nat n
    /\ state (breakerOf (keyOf command params) stN) = OPEN
    /\ forall later,
         now later - now eN <= circuitBreakerTimeout cfg ->
         execute cfg o command params stN later
         = (Throws ("Circuit breaker is open for command: " ++ command), stN, later).
Proof.
  intros Hthr Hn Hzero Hclosed Hall.
  destruct (executeTimes_failing cfg o command params n st e Hall Hclosed)
    as (results & stN & eN & Hr & Hlen & Hthrows & Hcalls & Hcount & Hlast); [lia|].
  destruct Hlast as [Htime Hstate]; [lia|].
  rewrite Hzero in Hcount, Hstate. simpl in Hcount, Hstate.
  assert (Hopen : state (breakerOf (keyOf command params) stN) = OPEN).
  { rewrite Hstate.
    match goal with |- (if ?c then _ else _) = _ => destruct c eqn:E end; [done | lia]. }
  exists results, stN, eN. do 5 (split; [done|]). split; [done|].
  intros later Hlater. unfold executeWithRetry, isCircuitBreakerOpen.
  unfold breakerOf in Hopen, Htime.
  destruct (stN !! keyOf command params) as [b|] eqn:Eb; simpl in Hopen, Htime;
    [|discriminate Hopen].
  rewrite Hopen, Htime.
  destruct (now later - now eN >? circuitBreakerTimeout cfg) eqn:E; [lia | done].
Qed.

End WithSerializer.

Lemma breaker_trips_then_short_circuits_witness :
  exists results stN eN,
    executeTimes Examples.compact 5 createRetryManager Examples.alwaysInvalidUrl
      "extract" (Some (JObj [("selector", JStr "#x")])) ∅ Examples.startEnv
    = (results, stN, eN)
    /\ executeWithRetry Examples.compact createRetryManager Examples.alwaysInvalidUrl
         "extract" (Some (JObj [("selector", JStr "#x")])) stN eN
       = (Throws "Circuit breaker is open for command: extract", stN, eN).
Proof.
  destruct (breaker_trips_then_short_circuits Examples.compact createRetryManager
              Examples.alwaysInvalidUrl "extract" (Some (JObj [("selector", JStr "#x")]))
              ∅ Examples.startEnv 5)
    as (results & stN & eN & Hr & _ & _ & _ & _ & _ & Hshort).
  - reflexivity.
  - lia.
  - reflexivity.
  - reflexivity.
  - intros i. by exists "Invalid URL".
  - exists results, stN, eN. split; [exact Hr|]. apply Hshort. simpl. lia.
Defined.

End TripProperties.

(** ** The command queue *)

Module QueueFacts.
Import Js Types CommandQueue QueueObserve.

Lemma insert_perm c l : insertByPriority c l ≡ₚ c :: l.
Proof.
  induction l as [|x l IH]; simpl; [done|].
  destruct (priorityOf c <=? priorityOf x)%Z; [done|].
  rewrite IH. apply Permutation_swap.
Qed.

Lemma insert_sorted c l :
  StronglySorted byPriority l -> StronglySorted byPriority (insertByPriority c l).
Proof.
  induction 1 as [|x l Hl IH Hx]; simpl.
  - repeat constructor.
  - destruct (priorityOf c <=? priorityOf x)%Z eqn:E.
    + constructor; [by constructor|].
      constructor; [unfold byPriority; lia|].
      eapply Forall_impl; [exact Hx|]. unfold byPriority. intros y Hy. lia.
    + constructor; [done|].
      rewrite (insert_perm c l). constructor; [unfold byPriority; lia | done].
Qed.

Lemma insert_filter v c l :
  List.filter (hasPriority v) (insertByPriority c l)
  = List.filter (hasPriority v) (c :: l).
Proof.
  induction l as [|x l IH]; simpl; [done|].
  destruct (priorityOf c <=? priorityOf x)%Z eqn:E; [done|].
  simpl. rewrite IH. simpl. unfold hasPriority.
  destruct (priorityOf c =? v)%Z eqn:Ec; [|done].
  destruct (priorityOf x =? v)%Z eqn:Ex; [lia | done].
Qed.

Lemma insert_least x l :
  Forall (byPriority x) l -> insertByPriority x l = x :: l.
Proof.
  destruct 1 as [|y l Hy Hl]; simpl; [done|].
  unfold byPriority in Hy. by destruct (priorityOf x <=? priorityOf y)%Z eqn:E; [|lia].
Qed.

Lemma sort_perm l : sortByPriority l ≡ₚ l.
Proof. induction l as [|c l IH]; simpl; [done|]. by rewrite insert_perm, IH. Qed.

Lemma sort_sorted l : StronglySorted byPriority (sortByPriority l).
Proof. induction l as [|c l IH]; simpl; [constructor | by apply insert_sorted]. Qed.

Lemma sort_filter v l :
  List.filter (hasPriority v) (sortByPriority l) = List.filter (hasPriority v) l.
Proof.
  induction l as [|c l IH]; [done|].
  cbn [sortByPriority]. rewrite insert_filter. simpl. by rewrite IH.
Qed.

End QueueFacts.

Module QueueInvariant.
Import Js Types CommandQueue QueueObserve QueueFacts.

Lemma enqueued_app ops ops' : enqueued (ops ++ ops') = (enqueued ops ++ enqueued ops')%list.
Proof. unfold enqueued. by rewrite flat_map_app. Qed.

Lemma after_snoc ops op : after (ops ++ [op]) = apply (after ops) op.
Proof. unfold after. by rewrite fold_left_app. Qed.

Lemma processTurn_ok ops q :
  (executed q ++ queue q)%list ≡ₚ enqueued ops ->
  StronglySorted byPriority (queue q) ->
  queueOk ops (processTurn q).
Proof.
  intros Hc Hs. unfold processTurn. destruct (queue q) as [|c rest] eqn:E.
  - split; simpl; [done | done | constructor].
  - split; simpl.
    + by rewrite <- app_assoc.
    + discriminate.
    + by inversion Hs.
Qed.

Lemma apply_ok ops q op : queueOk ops q -> queueOk (ops ++ [op]) (apply q op).
Proof.
  intros [Hc Hi Hs].
  destruct op as [c|]; cbn [apply].
  - assert (Hc' : (executed q ++ sortByPriority (queue q ++ [c]))%list
                  ≡ₚ enqueued (ops ++ [Enqueue c])).
    { rewrite enqueued_app, sort_perm, app_assoc, Hc. simpl. done. }
    unfold enqueue. destruct (processing q) eqn:Ep.
    + split; simpl; [done | discriminate | apply sort_sorted].
    + apply processTurn_ok; simpl; [done | apply sort_sorted].
  - assert (Hc' : (executed q ++ queue q)%list ≡ₚ enqueued (ops ++ [Resume])).
    { rewrite enqueued_app. simpl. by rewrite app_nil_r. }
    unfold resume. destruct (processing q) eqn:Ep.
    + by apply processTurn_ok.
    + split; [exact Hc' | intros _; by apply Hi | exact Hs].
Qed.

Lemma after_ok ops : queueOk ops (after ops).
Proof.
  induction ops as [|op ops IH] using rev_ind.
  - split; simpl; [done | done | constructor].
  - rewrite after_snoc. by apply apply_ok.
Qed.

Lemma drain_busy n : forall q,
  processing q = true -> length (queue q) = n ->
  let q' := Nat.iter (S n) resume q in
  queue q' = [] /\ processing q' = false /\ executed q' = (executed q ++ queue q)%list.
Proof.
  induction n as [|n IH]; intros q Hp Hn.
  - destruct (queue q) as [|c rest] eqn:E; [|discriminate].
    simpl. unfold resume, processTurn. rewrite Hp, E. simpl.
    by rewrite app_nil_r.
  - destruct (queue q) as [|c rest] eqn:E; [discriminate|].
    cbv zeta. rewrite Nat.iter_succ_r.
    assert (Hr : resume q = {| queue := rest; processing := true;
                               executed := (executed q ++ [c])%list |}).
    { unfold resume, processTurn. by rewrite Hp, E. }
    rewrite Hr.
    destruct (IH {| queue := rest; processing := true;
                    executed := (executed q ++ [c])%list |}) as (H1 & H2 & H3);
      [done | simpl in *; lia |].
    split; [exact H1|]. split; [exact H2|].
    rewrite H3. simpl. by rewrite <- app_assoc.
Qed.

Lemma resume_idle n q : processing q = false -> Nat.iter n resume q = q.
Proof.
  intros Hp. induction n as [|n IH]; [done|].
  simpl. rewrite IH. unfold resume. by rewrite Hp.
Qed.

End QueueInvariant.

Module QueueProperties.
Import Js Types CommandQueue QueueObserve QueueFacts QueueInvariant.

(** X22.  The sort of [enqueue] keeps every command exactly once, orders
    the queue by priority value, and keeps the commands of one priority
    value in the order they had: the queue is first in, first out within a
    priority. The priority value of a command is 0, 1 or 2, whatever its
    priority field holds. *)
Theorem enqueue_sort_stable (l : list MCPCommand) :
  sortByPriority l ≡ₚ l /\
  StronglySorted byPriority (sortByPriority l) /\
  (forall v, List.filter (hasPriority v) (sortByPriority l)
             = List.filter (hasPriority v) l) /\
  (forall c, 0 <= priorityOf c <= 2).
Proof.
  split; [apply sort_perm|]. split; [apply sort_sorted|].
  split; [intros v; apply sort_filter|].
  intros c. unfold priorityOf, getPriorityValue.
  destruct (cmd_priority c) as [[]|]; try lia.
  repeat match goal with |- context [if ?b then _ else _] => destruct b end; lia.
Qed.

(** X23.  A command pushed on an ordered queue
    lands behind every queued command of its own or a more urgent priority
    and ahead of every less urgent one. *)
Theorem enqueue_position (q : list MCPCommand) (c : MCPCommand)
  (Hq : StronglySorted byPriority q) :
  sortByPriority (q ++ [c])
  = (List.filter (fun x => (priorityOf x <=? priorityOf c)%Z) q
     ++ [c]
     ++ List.filter (fun x => (priorityOf c <? priorityOf x)%Z) q)%list.
Proof.
  induction Hq as [|x q Hq IH Hx]; [done|].
  cbn [app sortByPriority]. rewrite IH. cbn [List.filter].
  destruct (priorityOf x <=? priorityOf c)%Z eqn:E.
  - assert ((priorityOf c <? priorityOf x)%Z = false) as -> by lia.
    apply insert_least. apply Forall_app. split.
    + apply Forall_forall. intros y Hy.
      apply list_elem_of_In, filter_In in Hy as [Hy _].
      rewrite Forall_forall in Hx. by apply Hx, list_elem_of_In.
    + constructor; [unfold byPriority; lia|].
      apply Forall_forall. intros y Hy.
      apply list_elem_of_In, filter_In in Hy as [Hy _].
      rewrite Forall_forall in Hx. by apply Hx, list_elem_of_In.
  - assert ((priorityOf c <? priorityOf x)%Z = true) as -> by lia.
    assert (Hle : List.filter (fun y => (priorityOf y <=? priorityOf c)%Z) q = []).
    { clear IH Hq. induction Hx as [|y q Hy Hx IH]; [done|].
      simpl. unfold byPriority in Hy.
      by destruct (priorityOf y <=? priorityOf c)%Z eqn:Ey; [lia|]. }
    assert (Hgt : List.filter (fun y => (priorityOf c <? priorityOf y)%Z) q = q).
    { clear IH Hq Hle. induction Hx as [|y q Hy Hx IH]; [done|].
      simpl. unfold byPriority in Hy.
      destruct (priorityOf c <? priorityOf y)%Z eqn:Ey; [by rewrite IH | lia]. }
    rewrite Hle, Hgt. cbn [app insertByPriority].
    assert ((priorityOf x <=? priorityOf c)%Z = false) as -> by lia.
    by rewrite insert_least.
Qed.

Lemma enqueue_position_witness :
  let mk id p := {| cmd_id := Some (JStr id); cmd_type := Some (JStr "navigate");
                    cmd_params := None; cmd_timestamp := 0; cmd_timeout := None;
                    cmd_retryCount := None; cmd_maxRetries := None;
                    cmd_priority := p; cmd_clientId := "client" |} in
  let hi := mk "a" (Some (JStr "high")) in
  let no := mk "b" None in
  let lo := mk "c" (Some (JStr "low")) in
  let new := mk "d" (Some (JStr "normal")) in
  sortByPriority ([hi; no; lo] ++ [new]) = [hi; no; new; lo].
Proof.
  intros mk hi no lo new.
  refine (enqueue_position [hi; no; lo] new _).
  repeat constructor; unfold byPriority; by vm_compute.
Defined.

(** X24.  Whatever the
    interleaving of calls of [enqueue] with the turns of the processing
    loop, no command is lost and none is executed twice: the executed
    commands and the queued ones are together the enqueued ones; the queue
    is ordered by priority; and a queue that is not processing is empty. *)
Theorem queue_conserves_commands (ops : list Op) :
  let q := after ops in
  (executed q ++ queue q)%list ≡ₚ enqueued ops /\
  StronglySorted byPriority (queue q) /\
  (processing q = false -> getQueueLength q = 0%nat).
Proof.
  destruct (after_ok ops) as [Hc Hi Hs]. cbv zeta.
  split; [done|]. split; [done|].
  intros Hp. unfold getQueueLength. by rewrite (Hi Hp).
Qed.

(** X25.  Left alone, the processing loop
    drains the queue: after one turn for each queued command and one more,
    the queue is empty, the flag is cleared, and the queued commands have
    been executed in queue order. *)
Theorem queue_drains (ops : list Op) :
  let q := after ops in
  let q' := Nat.iter (S (getQueueLength q)) resume q in
  queue q' = [] /\ processing q' = false /\
  executed q' = (executed q ++ queue q)%list /\
  executed q' ≡ₚ enqueued ops.
Proof.
  cbv zeta. destruct (after_ok ops) as [Hc Hi Hs].
  set (q := after ops) in *.
  assert (H : queue (Nat.iter (S (getQueueLength q)) resume q) = [] /\
              processing (Nat.iter (S (getQueueLength q)) resume q) = false /\
              executed (Nat.iter (S (getQueueLength q)) resume q)
              = (executed q ++ queue q)%list).
  { destruct (processing q) eqn:Ep.
    - by apply drain_busy.
    - rewrite resume_idle by done. rewrite (Hi eq_refl). by rewrite app_nil_r. }
  destruct H as (H1 & H2 & H3). repeat split; try done. by rewrite H3.
Qed.

End QueueProperties.

(** ** The logger and the configuration loader *)

Module LoggerProperties.
Import Js Logger.

(** X26.  A call of [error] always writes an entry, whatever
    level is configured; a logger that writes the entries of one method also
    writes those of every more severe one; a method writes one entry or
    none, under its own level name; and a level string that is none of
    debug, info, warn and error (in any case) configures the logger as info
    does. *)
Theorem logger_filtering (configured message : string) (out : Output) :
  logAt configured ERROR message out = (out ++ [("ERROR", message)])%list /\
  (forall m1 m2 message',
     value m1 <= value m2 ->
     logAt configured m1 message out <> out ->
     logAt configured m2 message' out = (out ++ [(levelName m2, message')])%list) /\
  (forall m, logAt configured m message out = out \/
             logAt configured m message out = (out ++ [(levelName m, message)])%list) /\
  (~ In (toLowerCase configured) ["debug"; "info"; "warn"; "error"] ->
   forall m, logAt configured m message out = logAt "info" m message out).
Proof.
  split; [|split; [|split]].
  - unfold logAt. by destruct (parseLevel configured).
  - intros m1 m2 message' Hle Hout. unfold logAt in *.
    destruct (value (parseLevel configured) <=? value m1)%Z eqn:E1; [|done].
    by destruct (value (parseLevel configured) <=? value m2)%Z eqn:E2; [|lia].
  - intros m. unfold logAt.
    destruct (value (parseLevel configured) <=? value m)%Z; [by right | by left].
  - intros Hnot m. unfold logAt.
    assert (parseLevel configured = INFO) as ->.
    { unfold parseLevel. cbv zeta.
      destruct (String.eqb_spec (toLowerCase configured) "debug") as [e|_];
        [exfalso; apply Hnot; rewrite e; simpl; tauto|].
      destruct (String.eqb_spec (toLowerCase configured) "info") as [e|_]; [done|].
      destruct (String.eqb_spec (toLowerCase configured) "warn") as [e|_];
        [exfalso; apply Hnot; rewrite e; simpl; tauto|].
      destruct (String.eqb_spec (toLowerCase configured) "error") as [e|_];
        [exfalso; apply Hnot; rewrite e; simpl; tauto|].
      done. }
    done.
Qed.

End LoggerProperties.

Module ConfigProperties.
Import Js ConfigLoader ConfigObserve.

Lemma checkFields_spec config fields :
  match checkFields fields config with
  | None => Forall (present config) fields
  | Some msg =>
      exists pre f post,
        fields = (pre ++ f :: post)%list /\ Forall (present config) pre /\
        ~ present config f /\
        msg = "Missing required configuration field: " ++ f
  end.
Proof.
  induction fields as [|f rest IH]; simpl; [constructor|].
  destruct (getNestedValue (Some config) f) as [v|] eqn:E.
  - assert (Hv : v = JNull \/ (v <> JNull /\ present config f)).
    { unfold present. rewrite E. destruct v; (by left) || (right; by split). }
    destruct Hv as [->|[Hv Hp]].
    + exists [], f, rest. unfold present. rewrite E. by repeat split; auto.
    + assert (Hc : match v with
                   | JNull => Some ("Missing required configuration field: " ++ f)
                   | _ => checkFields rest config
                   end = checkFields rest config) by by destruct v.
      rewrite Hc. destruct (checkFields rest config) as [msg|].
      * destruct IH as (pre & g & post & -> & Hpre & Hg & ->).
        exists (f :: pre), g, post. repeat split; auto.
      * by constructor.
  - exists [], f, rest. unfold present. rewrite E. by repeat split; auto.
Qed.

(** X27.  A configuration is accepted
    exactly when each of the six required fields is there and is not null
    (false, zero or an empty string is enough); a refused one is refused
    with the name of the first required field that is missing, in the order
    of the list; and a configuration whose [server] section is missing, or
    is not an object, is refused for [server.port]. *)
Theorem validateConfig_first_missing (config : JSON) :
  (validateConfig config = None <-> Forall (present config) required) /\
  (forall msg, validateConfig config = Some msg ->
     exists pre f post,
       required = (pre ++ f :: post)%list /\ Forall (present config) pre /\
       ~ present config f /\
       msg = "Missing required configuration field: " ++ f) /\
  (forall v, getNestedValue (Some config) "rateLimit.enabled" = Some v ->
     v <> JNull -> present config "rateLimit.enabled") /\
  (forall fields,
     config = JObj fields ->
     (forall fs, field "server" fields <> Some (JObj fs)) ->
     validateConfig config = Some "Missing required configuration field: server.port").
Proof.
  pose proof (checkFields_spec config required) as H.
  fold (validateConfig config) in H.
  split; [|split; [|split]].
  - split.
    + intros E. by rewrite E in H.
    + intros Hall. destruct (validateConfig config) as [msg|]; [|done].
      destruct H as (pre & f & post & Hreq & _ & Hf & _).
      exfalso. apply Hf. rewrite Hreq in Hall.
      apply Forall_app in Hall as [_ Hall]. by inversion Hall.
  - intros msg E. by rewrite E in H.
  - intros v E Hv. unfold present. rewrite E. by destruct v.
  - intros fields -> Hno. unfold validateConfig, required. cbn [checkFields].
    assert (E : getNestedValue (Some (JObj fields)) "server.port" = None).
    { change (optionalProperty (field "server" fields) "port" = None).
      destruct (field "server" fields) as [[]|] eqn:E; try done.
      by destruct (Hno fields0). }
    by rewrite E.
Qed.

End ConfigProperties.

(** ** Replies and their senders *)

Module ReplyProperties.
Import Js Types Runtime Server Observe Examples CorrelatorFacts.

(** X28.  A reply settles the pending command whose id
    it carries whoever sends it: the sender is compared with nothing, so a
    client that never authenticated, or one the command was not meant for,
    resolves it as well, and the other pending commands stay pending. A
    reply whose id is not pending changes no pending entry, timer or
    promise. *)
Theorem reply_sender_not_checked (evs : list Event) (sender : string)
    (message : ResponseFrame) (nowMs : Z) (Hnd : NoDup (sent evs)) :
  let s := run evs initial in
  let s' := handleResponse sender message nowMs s in
  (forall pc,
     pendingCommands s !! rsp_id message = Some pc ->
     resolvedAs (rsp_id message) (promise pc)
       (settlementOf (Response sender message nowMs)) s'
     /\ (forall other, other <> rsp_id message ->
           pendingCommands s' !! other = pendingCommands s !! other))
  /\ (pendingCommands s !! rsp_id message = None -> sameCorrelator s s').
Proof.
  cbv zeta. set (s := run evs initial).
  assert (Hc : consistent (sent evs) s)
    by (apply (run_consistent evs [] initial consistent_initial); exact Hnd).
  split.
  - intros pc Hpc. rewrite (handleResponse_pending _ _ _ _ _ Hpc).
    set (s1 := withClients _ s).
    assert (Hs1 : sameCorrelator s s1) by apply sameCorrelator_withClients.
    assert (Hc1 : consistent (sent evs) s1) by by apply (consistent_sameCorrelator _ s).
    assert (Hpc1 : pendingCommands s1 !! rsp_id message = Some pc) by done.
    split.
    + destruct Hc as (H1 & _). destruct (H1 _ _ Hpc) as (_ & -> & _).
      by eapply resolveWith_resolved.
    + intros other Hne. unfold resolveWith.
      destruct (settle_frame (promise pc)
                  (settlementOf (Response sender message nowMs))
                  (deletePending (rsp_id message) (clearTimeout (timeout pc) s1)))
        as (-> & _).
      simpl. by rewrite lookup_delete_ne.
  - intros Hnone. rewrite handleResponse_not_pending by done.
    apply sameCorrelator_withClients.
Qed.

Lemma reply_sender_not_checked_witness :
  let s := run twoPending initial in
  let message := {| rsp_id := "cmd_2"; rsp_success := false;
                    rsp_data := None; rsp_error := None |} in
  let s' := handleResponse "intruder" message 2000 s in
  NoDup (sent twoPending) /\
  ClientManager.getClient "intruder" (clientManager s) = None /\
  resolvedAs "cmd_2" 1 (Failed "Command failed") s' /\
  is_Some (pendingCommands s' !! "cmd_1").
Proof.
  intros s message s'.
  assert (Hnd : NoDup (sent twoPending))
    by (apply (bool_decide_unpack _); by vm_compute).
  split; [exact Hnd|]. split; [by vm_compute|].
  destruct (reply_sender_not_checked twoPending "intruder" message 2000 Hnd)
    as [H _].
  destruct (H {| promise := 1; timeout := 1 |}) as [Hres Hother]; [by vm_compute|].
  split; [exact Hres|].
  fold s s' in Hother. rewrite (Hother "cmd_1"); [|discriminate].
  exists {| promise := 0; timeout := 0 |}. by vm_compute.
Defined.

End ReplyProperties.
